(** * xyzpy: the combination runner (gen/combo_runner.py) and its helpers
      (utils.py), embedded as Rocq functions.

    Python objects are a small universe of values; dictionaries of keyword
    arguments are finite maps; code that raises returns a [res]; code that
    calls the user function, talks to a pool or advances the progress bar
    runs in a state-and-exception monad over a [world] that holds the
    objects created so far and the events seen by the calling thread. *)

From stdpp Require Import gmap strings list fin_maps.
From Stdlib Require Import ZArith Permutation Ascii.

Open Scope Z_scope.
Set Warnings "-register-all".

(** ** Values *)

(** The Python values the runner handles: scalars, tuples, lists and
    references to opaque objects (futures, deferred nodes). *)
Inductive value : Type :=
| VNone
| VBool (b : bool)
| VInt (z : Z)
| VTuple (xs : list value)
| VList (xs : list value)
| VRef (id : nat).

(** Keyword arguments ([**kwds]) and the constants mapping. *)
Abbreviation kwargs := (gmap string value).

(** A combination list: ordered pairs of an argument name and its values. *)
Abbreviation combos_t := (list (string * list value)).

Inductive exn : Type :=
| AttributeError (attr : string)
| TypeError (msg : string)
| ValueError (msg : string)
| IndexError
| UserError (payload : value).

Inductive res (A : Type) : Type :=
| Ok (a : A)
| Raise (e : exn).
Arguments Ok {A} a.
Arguments Raise {A} e.

Definition res_bind {A B} (r : res A) (k : A -> res B) : res B :=
  match r with
  | Ok a => k a
  | Raise e => Raise e
  end.

Definition res_map {A B} (f : A -> B) (r : res A) : res B :=
  res_bind r (fun a => Ok (f a)).

Section MapR.
Context {A B : Type} (f : A -> res B).

(** A comprehension [[f(x) for x in xs]] whose body may raise. *)
Fixpoint mapR (xs : list A) : res (list B) :=
  match xs with
  | [] => Ok []
  | x :: xs' =>
      res_bind (f x) (fun y => res_bind (mapR xs') (fun ys => Ok (y :: ys)))
  end.
End MapR.

(** Iterating a value ([for x in v], unpacking with a star): lists and
    tuples yield their items, the other values of the universe are not
    iterable. *)
Definition iter (v : value) : res (list value) :=
  match v with
  | VList xs | VTuple xs => Ok xs
  | _ => Raise (TypeError "object is not iterable")
  end.

Definition items (v : value) : option (list value) :=
  match v with
  | VList xs | VTuple xs => Some xs
  | _ => None
  end.

(** ** utils.py *)

(** [prod(it)]: [functools.reduce(operator.mul, it)], which raises on an
    empty iterable. *)
Definition prod (it : list Z) : res Z :=
  match it with
  | [] => Raise (TypeError "reduce() of empty sequence with no initial value")
  | x :: xs => Ok (fold_left Z.mul xs x)
  end.

(** [zip] of the unpacked [rows]: the columns of [rows], as many as the
    shortest row has items; no row, no column. *)
Fixpoint zip_star (rows : list (list value)) : list (list value) :=
  match rows with
  | [] => []
  | r :: rest =>
      match rest with
      | [] => map (fun x => [x]) r
      | _ :: _ => zip_with cons r (zip_star rest)
      end
  end.

(** [zip] of the unpacked [its], on values: every item of [its] is
    iterated, and each column comes out as a tuple. *)
Definition zip_values (its : value) : res (list value) :=
  res_bind (iter its) (fun rows =>
  res_bind (mapR iter rows) (fun cols =>
  Ok (map VTuple (zip_star cols)))).

(** [_unzipper(its, zip_level)], by the number [n] of levels above the
    innermost one ([zip_level - 1] when [zip_level > 1], else [0]). The
    generator it returns is given by the list of what it yields. *)
Fixpoint _unzipper (n : nat) (its : value) : res value :=
  match n with
  | O => Ok its
  | S n' =>
      res_bind (iter its) (fun xs =>
      res_map VList
        (mapR (fun it =>
                 res_map VList (res_bind (_unzipper n' it) zip_values)) xs))
  end.

(** [unzip(its, zip_level)]: [its] itself at level 0, else the zip object,
    given by the tuples it yields. *)
Definition unzip (its : value) (zip_level : Z) : res value :=
  if zip_level =? 0 then Ok its
  else res_map VList
         (res_bind (_unzipper (Z.to_nat (zip_level - 1)) its) zip_values).

(** [flatten(its, n)], given by the items the returned iterable yields. *)
Fixpoint flatten_levels (n : nat) (its : value) : res (list value) :=
  match n with
  | O => iter its
  | S n' =>
      res_bind (iter its) (fun xs =>
      res_map (@List.concat value) (mapR (flatten_levels n') xs))
  end.

Definition flatten (its : value) (n : Z) : res (list value) :=
  flatten_levels (Z.to_nat (n - 1)) its.

(** ** Shapes and logical indices *)

(** [has_shape dims t]: [t] is nested [length dims] deep and dimension [i]
    has length [dims !! i] everywhere. *)
Fixpoint has_shape (dims : list nat) (t : value) : bool :=
  match dims with
  | [] => true
  | n :: ds =>
      match items t with
      | Some xs => (length xs =? n)%nat && forallb (has_shape ds) xs
      | None => false
      end
  end.

(** [t[i1][i2]...[ik]] for non-negative indices. *)
Fixpoint index (t : value) (path : list nat) : option value :=
  match path with
  | [] => Some t
  | i :: p =>
      match items t with
      | Some xs =>
          match xs !! i with
          | Some x => index x p
          | None => None
          end
      | None => None
      end
  end.

(** ** The world: objects, events, and the monad of effectful code *)

(** The callables the runner passes around: the user function, and the
    closure [new_fn] that [update_upon_eval] builds around a callable. *)
Inductive callable : Type :=
| Fn
| UpdateUponEval (f : callable).

(** Opaque objects, known by reference. A [Delayed] node stands for a call
    that has not run. A [Handle] is what a pool returns for a registered
    call: it may expose [result()], [get()], and carry the attribute
    [_stored_result]. *)
Inductive obj : Type :=
| Delayed (f : callable) (kw : kwargs)
| Handle (f : callable) (kw : kwargs) (has_result has_get : bool)
         (stored : option value).

(** What the calling thread does, in order: calls of the user function and
    [pbar.update()]. *)
Inductive event : Type :=
| Call (kw : kwargs)
| Update.

Record world : Type := World { heap : list obj; trace : list event }.

Definition M (A : Type) : Type := world -> res A * world.

Definition ret {A} (a : A) : M A := fun w => (Ok a, w).

Definition raise {A} (e : exn) : M A := fun w => (Raise e, w).

Definition bind {A B} (m : M A) (k : A -> M B) : M B :=
  fun w =>
    match m w with
    | (Ok a, w') => k a w'
    | (Raise e, w') => (Raise e, w')
    end.

Declare Scope py_scope.
Delimit Scope py_scope with py.
Notation "x <- m ;; k" := (bind m (fun x => k))
  (at level 100, m at next level, right associativity) : py_scope.
Notation "m1 ;;; m2" := (bind m1 (fun _ => m2))
  (at level 100, right associativity) : py_scope.
Open Scope py_scope.

Definition lift {A} (r : res A) : M A := fun w => (r, w).

Definition emit (e : event) : M unit :=
  fun w => (Ok tt, World (heap w) (trace w ++ [e])).

(** A new object; its reference is its position in the heap. *)
Definition alloc (o : obj) : M value :=
  fun w => (Ok (VRef (length (heap w))), World (heap w ++ [o]) (trace w)).

Section MapM.
Context {A B : Type} (f : A -> M B).

(** A comprehension [[f(x) for x in xs]] whose body has effects: left to
    right, stopping at the first exception. *)
Fixpoint mapM (xs : list A) : M (list B) :=
  match xs with
  | [] => ret []
  | x :: xs' => y <- f x ;; ys <- mapM xs' ;; ret (y :: ys)
  end.
End MapM.

(** [try: m  except AttributeError: h] *)
Definition try_except_AttributeError {A} (m h : M A) : M A :=
  fun w =>
    match m w with
    | (Raise (AttributeError _), w') => h w'
    | r => r
    end.

(** [pbar.update()] *)
Definition pbar_update : M unit := emit Update.

(** A pool-like object, by the capabilities the runner probes: the
    attribute [scheduler], the methods [submit] and [apply_async], and the
    accessors its handles expose. *)
Record pool_obj : Type := Pool {
  has_scheduler : bool;
  has_submit : bool;
  has_apply_async : bool;
  gives_result : bool;
  gives_get : bool
}.

Inductive strategy : Type := Strategy (name : string).

Inductive parallel_t : Type :=
| PBool (b : bool)
| PStr (s : string).

Inductive scheduler_t : Type :=
| SNone
| SName (s : string)
| SGet (g : strategy).

Definition parallel_truthy (p : parallel_t) : bool :=
  match p with
  | PBool b => b
  | PStr s => negb (String.eqb s "")
  end.

Definition parallel_is (p : parallel_t) (name : string) : bool :=
  match p with
  | PStr s => String.eqb s name
  | PBool _ => false
  end.

Definition scheduler_truthy (s : scheduler_t) : bool :=
  match s with
  | SNone => false
  | SName n => negb (String.eqb n "")
  | SGet _ => true
  end.

Definition num_workers_truthy (n : option Z) : bool :=
  match n with
  | Some k => negb (k =? 0)
  | None => false
  end.

(** ** gen/combo_runner.py *)

Section Runner.

(** The user function: from its keyword arguments to a value or an
    exception. *)
Variable fn : kwargs -> res value.

(** The order in which [as_completed] hands back the futures it is given:
    the backend's completion order. *)
Variable as_completed : list value -> list value.

(** The table of scheduler names behind [dask_scheduler_get]. *)
Variable known_scheduler : string -> option strategy.

(** Calling a callable in the calling thread. [new_fn] of
    [update_upon_eval] calls the wrapped callable, then updates the bar,
    then returns the result. *)
Fixpoint call (f : callable) (kw : kwargs) : M value :=
  match f with
  | Fn => emit (Call kw) ;;; lift (fn kw)
  | UpdateUponEval g =>
      result <- call g kw ;;
      pbar_update ;;;
      ret result
  end.

(** [update_upon_eval(fn, pbar)] of utils.py returns the closure [new_fn]. *)
Definition update_upon_eval (f : callable) : callable := UpdateUponEval f.

(** What a call of the callable yields when a worker or a graph
    evaluation runs it: its effects stay there. *)
Fixpoint remote (f : callable) (kw : kwargs) : res value :=
  match f with
  | Fn => fn kw
  | UpdateUponEval g => remote g kw
  end.

(** The keywords of a call [f( **kwds, **{arg: x})]: a repeated keyword
    is a [TypeError], raised before [f] is entered. *)
Definition merge_kwargs (kwds : kwargs) (arg : string) (x : value)
  : res kwargs :=
  match kwds !! arg with
  | Some _ => Raise (TypeError "got multiple values for keyword argument")
  | None => Ok (<[arg := x]> kwds)
  end.

(** [pool.submit(fn, **kwds)] or [pool.apply_async(fn, **kwds)]: the call
    is registered and a handle comes back. The method is taken to hand the
    keywords on to the call, as [submit] of concurrent.futures does; a
    method that keeps keywords for itself, as [apply_async] of
    multiprocessing does, is not described by this. *)
Definition pool_register (p : pool_obj) (f : callable) (kw : kwargs)
  : M value :=
  alloc (Handle f kw (gives_result p) (gives_get p) None).

(** [default_submitter(pool, fn, *args, **kwds)]. Its own parameters
    [pool] and [fn] are filled by position, so a keyword of either name
    is a [TypeError]. *)
Definition default_submitter (p : pool_obj) (f : callable) (kwds : kwargs)
  : M value :=
  match kwds !! "pool", kwds !! "fn" with
  | None, None =>
      if has_submit p then pool_register p f kwds
      else if has_apply_async p then pool_register p f kwds
      else raise (AttributeError "apply_async")
  | _, _ => raise (TypeError "got multiple values for argument")
  end.

(** [_get_fn_name(fn)] of utils.py: the callables of the universe are plain
    functions, whose [__name__] is there. *)
Definition _get_fn_name (f : callable) : res string :=
  match f with
  | Fn => Ok "fn"
  | UpdateUponEval _ => Ok "new_fn"
  end.

(** [delayed(fn, pure=True)( **kw)]: a deferred node, nothing runs. *)
Definition delayed (f : callable) (kw : kwargs) : M value :=
  alloc (Delayed f kw).

(** [nested_submit(fn, combos, kwds, delay, pool, submitter)]. [combos[0]]
    of an empty list is an [IndexError]; [if pool:] holds of a pool object
    and fails of [None]. *)
Fixpoint nested_submit (f : callable) (combos : combos_t) (kwds : kwargs)
    (delay : bool) (pool : option pool_obj)
    (submitter : pool_obj -> callable -> kwargs -> M value)
    {struct combos} : M value :=
  match combos with
  | [] => raise IndexError
  | (arg, inputs) :: rest =>
      match rest with
      | [] =>
          match pool with
          | Some p =>
              xs <- mapM (fun x => kw <- lift (merge_kwargs kwds arg x) ;;
                                   submitter p f kw) inputs ;;
              ret (VList xs)
          | None =>
              if delay then
                xs <- mapM (fun x => kw <- lift (merge_kwargs kwds arg x) ;;
                                     delayed f kw) inputs ;;
                ret (VList xs)
              else
                xs <- mapM (fun x => kw <- lift (merge_kwargs kwds arg x) ;;
                                     call f kw) inputs ;;
                ret (VList xs)
          end
      | _ :: _ =>
          xs <- mapM (fun x => nested_submit f rest (<[arg := x]> kwds)
                                 delay pool submitter) inputs ;;
          ret (VList xs)
      end
  end.

(** [future.result()] *)
Definition py_result (future : value) : M value :=
  fun w =>
    match future with
    | VRef id =>
        match heap w !! id with
        | Some (Handle f kw true _ _) => (remote f kw, w)
        | _ => (Raise (AttributeError "result"), w)
        end
    | _ => (Raise (AttributeError "result"), w)
    end.

(** [future.get()] *)
Definition py_get (future : value) : M value :=
  fun w =>
    match future with
    | VRef id =>
        match heap w !! id with
        | Some (Handle f kw _ true _) => (remote f kw, w)
        | _ => (Raise (AttributeError "get"), w)
        end
    | _ => (Raise (AttributeError "get"), w)
    end.

(** [default_getter(pbar)], by whether [pbar] is given (a progress bar
    counts as given). *)
Definition default_getter (pbar : bool) (future : value) : M value :=
  if pbar then
    res <- try_except_AttributeError (py_result future) (py_get future) ;;
    pbar_update ;;;
    ret res
  else
    res <- try_except_AttributeError (py_result future) (py_get future) ;;
    ret res.

(** [nested_get(futures, ndim, getter)]: both comprehensions iterate
    [futures]; any [ndim] other than 1 goes one level down. *)
Fixpoint nested_get (getter : value -> M value) (futures : value)
    (ndim : Z) {struct futures} : M value :=
  match futures with
  | VList xs | VTuple xs =>
      if ndim =? 1 then
        ys <- mapM getter xs ;; ret (VList ys)
      else
        ys <- mapM (fun fut => nested_get getter fut (ndim - 1)) xs ;;
        ret (VList ys)
  | _ => raise (TypeError "object is not iterable")
  end.

(** The pool-like executors the runner creates itself: they have [submit]
    and their futures have [result()]. *)
Definition executor : pool_obj := Pool false true false true false.

(** [MPIPoolExecutor(num_workers)] of mpi4py. *)
Definition MPIPoolExecutor (num_workers : option Z) : M pool_obj :=
  ret executor.

(** [cf.ProcessPoolExecutor(max_workers=num_workers)]: a worker count
    that is not positive is refused. *)
Definition ProcessPoolExecutor (max_workers : option Z) : M pool_obj :=
  match max_workers with
  | Some k =>
      if k <=? 0 then raise (ValueError "max_workers must be greater than 0")
      else ret executor
  | None => ret executor
  end.

Definition mpi_combo_runner_pool (f : callable) (combos : combos_t)
    (constants : kwargs) (hide_progbar : bool) (n : Z)
    (num_workers : option Z) : M value :=
  let getter := default_getter true in
  pool <- MPIPoolExecutor num_workers ;;
  futures <- nested_submit f combos constants false (Some pool)
               default_submitter ;;
  results <- nested_get getter futures (Z.of_nat (length combos)) ;;
  ret results.

(** [f._stored_result = r] *)
Definition set_stored_result (future r : value) : M unit :=
  fun w =>
    match future with
    | VRef id =>
        match heap w !! id with
        | Some (Handle f kw hr hg _) =>
            (Ok tt, World (<[id := Handle f kw hr hg (Some r)]> (heap w))
                          (trace w))
        | _ => (Raise (AttributeError "_stored_result"), w)
        end
    | _ => (Raise (AttributeError "_stored_result"), w)
    end.

(** Modelled from the spec: [try_stored_then_result] of gen/dask_stuff.py,
    which is not among the sources. The distributed path caches each
    future's result on the future as it completes and then collects via
    the cached value; a future without a cached value is asked for its
    result. *)
Definition try_stored_then_result (future : value) : M value :=
  fun w =>
    match future with
    | VRef id =>
        match heap w !! id with
        | Some (Handle _ _ _ _ (Some r)) => (Ok r, w)
        | _ => py_result future w
        end
    | _ => py_result future w
    end.

(** Modelled from the spec: [dask_scheduler_get] of gen/dask_stuff.py,
    which is not among the sources. A scheduler given by name is resolved
    to a concrete graph-evaluation strategy; an unrecognised name is a
    configuration error (the tests expect a [ValueError]). *)
Definition dask_scheduler_get (name : string) (num_workers : option Z)
  : M scheduler_t :=
  match known_scheduler name with
  | Some g => ret (SGet g)
  | None => raise (ValueError "unknown scheduler")
  end.

(** Evaluating one argument of [compute]: lists and tuples are traversed,
    deferred nodes are replaced by what their call yields. *)
Fixpoint dask_eval (h : list obj) (v : value) : res value :=
  match v with
  | VList xs => res_map VList (mapR (dask_eval h) xs)
  | VTuple xs => res_map VTuple (mapR (dask_eval h) xs)
  | VRef id =>
      match h !! id with
      | Some (Delayed f kw) => remote f kw
      | _ => Ok v
      end
  | _ => Ok v
  end.

(** [compute( *jobs, get=scheduler, num_workers=num_workers)] of dask: one
    batch, a tuple with one result per job; the strategy and the worker
    count do not change the values. *)
Definition compute (jobs : value) (get : scheduler_t)
    (num_workers : option Z) : M value :=
  args <- lift (iter jobs) ;;
  fun w => (res_map VTuple (mapR (dask_eval (heap w)) args), w).

(** [_combo_runner]. The [with] blocks that open and close the progress
    bars ([progbar], and [DaskTqdmProgbar] of gen/dask_stuff.py) and the
    executors leave no trace in the world; the bar is seen through its
    [update()] calls. *)
Definition _combo_runner (combos : combos_t) (constants : kwargs)
    (split : bool) (parallel : parallel_t) (num_workers : option Z)
    (scheduler : scheduler_t) (pool : option pool_obj)
    (hide_progbar : bool) : M value :=
  n <- lift (prod (map (fun c => Z.of_nat (length (snd c))) combos)) ;;
  let ndim := Z.of_nat (length combos) in
  results <-
    match pool with
    | Some p =>
        if has_scheduler p then
          futures <- nested_submit Fn combos constants false (Some p)
                       default_submitter ;;
          fs <- lift (flatten futures ndim) ;;
          mapM (fun f => r <- py_result f ;;
                         set_stored_result f r ;;;
                         pbar_update) (as_completed fs) ;;;
          nested_get try_stored_then_result futures ndim
        else
          futures <- nested_submit Fn combos constants false (Some p)
                       default_submitter ;;
          let getter := default_getter true in
          nested_get getter futures ndim
    | None =>
        if parallel_is parallel "mpi" then
          mpi_combo_runner_pool Fn combos constants hide_progbar n
            num_workers
        else if parallel_is parallel "dask" || scheduler_truthy scheduler
        then
          fn_name <- lift (_get_fn_name Fn) ;;
          jobs <- nested_submit Fn combos constants true None
                    default_submitter ;;
          scheduler' <-
            match scheduler with
            | SName s =>
                if scheduler_truthy scheduler
                then dask_scheduler_get s num_workers
                else ret scheduler
            | _ => ret scheduler
            end ;;
          compute jobs scheduler' num_workers
        else if parallel_truthy parallel || num_workers_truthy num_workers
        then
          pool' <- ProcessPoolExecutor num_workers ;;
          futures <- nested_submit Fn combos constants false (Some pool')
                       default_submitter ;;
          fs <- lift (flatten futures ndim) ;;
          mapM (fun f => pbar_update) (as_completed fs) ;;;
          nested_get (default_getter false) futures ndim
        else
          nested_submit (update_upon_eval Fn) combos constants false None
            default_submitter
    end ;;
  if split then
    xs <- lift (res_bind (unzip results ndim) iter) ;; ret (VList xs)
  else ret results.

End Runner.

(** ** The logical index of a leaf and the Cartesian correspondence *)

(** The keyword arguments at the logical index [path]: the constants with
    every argument name bound to the value its sequence has there. *)
Fixpoint assign (combos : combos_t) (kwds : kwargs) (path : list nat)
  : option kwargs :=
  match combos, path with
  | [], [] => Some kwds
  | (arg, inputs) :: rest, i :: p =>
      match inputs !! i with
      | Some x => assign rest (<[arg := x]> kwds) p
      | None => None
      end
  | _, _ => None
  end.

(** The lengths of the value sequences: the Cartesian-product shape. *)
Definition dims_of (combos : combos_t) : list nat :=
  map (fun c => length (snd c)) combos.

(** [cartesian L combos kwds t]: [t] is a list with one sub-tree per value
    of the first sequence, in the order of the sequence, and so on down to
    the leaves, which are related by [L] to the keyword arguments of their
    place; the innermost name is not yet a keyword there. *)
Fixpoint cartesian (L : value -> kwargs -> Prop) (combos : combos_t)
    (kwds : kwargs) (t : value) : Prop :=
  match combos with
  | [] => False
  | (arg, inputs) :: rest =>
      exists xs, t = VList xs /\
        Forall2 (fun x sub =>
                   match rest with
                   | [] => kwds !! arg = None /\ L sub (<[arg := x]> kwds)
                   | _ :: _ => cartesian L rest (<[arg := x]> kwds) sub
                   end) inputs xs
  end.

(** The data-model invariants on names: argument names are pairwise
    distinct and none of them is a key of the constants. *)
Definition names_fresh (combos : combos_t) (kwds : kwargs) : Prop :=
  NoDup (map fst combos) /\ forall a, a ∈ map fst combos -> kwds !! a = None.

(** ** The vocabulary of the statements *)

(** The leaf operation of [nested_submit], by mode: pooled when a pool is
    given, else deferred when [delay] is set, else direct. *)
Definition leaf_op (fn : kwargs -> res value) (f : callable) (delay : bool)
    (pool : option pool_obj)
    (submitter : pool_obj -> callable -> kwargs -> M value) (kw : kwargs)
  : M value :=
  match pool with
  | Some p => submitter p f kw
  | None => if delay then delayed f kw else call fn f kw
  end.

(** [list_shape dims t]: as [has_shape], and every level is a Python list. *)
Fixpoint list_shape (dims : list nat) (t : value) : bool :=
  match dims with
  | [] => true
  | n :: ds =>
      match t with
      | VList xs => (length xs =? n)%nat && forallb (list_shape ds) xs
      | _ => false
      end
  end.

(** What the leaf of a pending-work tree is, by mode, for the call with
    keyword arguments [kw]: the value of the call (direct), a deferred node
    for it, or the handle the pool returned for it. *)
Definition leaf_for (fn : kwargs -> res value) (f : callable) (delay : bool)
    (pool : option pool_obj) (w : world) (leaf : value) (kw : kwargs) : Prop :=
  match pool with
  | Some p =>
      exists id, leaf = VRef id /\
        heap w !! id = Some (Handle f kw (gives_result p) (gives_get p) None)
  | None =>
      if delay
      then exists id, leaf = VRef id /\ heap w !! id = Some (Delayed f kw)
      else remote fn f kw = Ok leaf
  end.

(** The heap only grows, by objects that satisfy [Q]; the trace grows by
    events that satisfy [E]. *)
Definition grows (Q : obj -> Prop) (E : event -> Prop) (w w' : world) : Prop :=
  (exists objs, heap w' = heap w ++ objs /\ Forall Q objs) /\
  (exists evs, trace w' = trace w ++ evs /\ Forall E evs).

Definition is_delayed (o : obj) : Prop :=
  match o with Delayed _ _ => True | Handle _ _ _ _ _ => False end.

Definition is_fresh_handle (o : obj) : Prop :=
  match o with
  | Handle _ _ _ _ None => True
  | _ => False
  end.

Definition elems (t : value) : list value :=
  match items t with
  | Some xs => xs
  | None => []
  end.

(** The leaves of a tree with [S n] levels, in nested traversal order. *)
Fixpoint leaves_of (n : nat) (t : value) : list value :=
  match n with
  | O => elems t
  | S n' => concat (map (leaves_of n') (elems t))
  end.

(** The tree with [S n] levels whose leaves are those of [t] under [g]. *)
Fixpoint tmap (g : value -> value) (n : nat) (t : value) : value :=
  match n with
  | O => VList (map g (elems t))
  | S n' => VList (map (tmap g n') (elems t))
  end.

(** The world after the events [evs]. *)
Definition after (w : world) (evs : list event) : world :=
  World (heap w) (trace w ++ evs).

Definition product (dims : list nat) : nat := fold_right Nat.mul 1%nat dims.

(** The leaves of the three kinds of tree, for a call that succeeds. *)
Definition value_leaf (fn : kwargs -> res value) (v : value) (kw : kwargs)
  : Prop := fn kw = Ok v.

Definition handle_leaf (fn : kwargs -> res value) (p : pool_obj) (w : world)
    (v : value) (kw : kwargs) : Prop :=
  exists id v0, v = VRef id /\
    heap w !! id = Some (Handle Fn kw (gives_result p) (gives_get p) None) /\
    fn kw = Ok v0.

Definition delayed_leaf (fn : kwargs -> res value) (w : world) (v : value)
    (kw : kwargs) : Prop :=
  exists id v0, v = VRef id /\ heap w !! id = Some (Delayed Fn kw) /\
    fn kw = Ok v0.

(** No keyword of a call is taken by the parameters [pool] and [fn] of
    [default_submitter]. *)
Definition submit_names_free (combos : combos_t) (constants : kwargs) : Prop :=
  (constants !! "pool" = None) /\ (constants !! "fn" = None) /\
  ("pool" ∉ map fst combos) /\ ("fn" ∉ map fst combos).

(** A pool the runner can work with: it takes calls, and its handles give
    their result back (through [result()] on the distributed path). *)
Definition pool_supported (p : pool_obj) : bool :=
  (has_submit p || has_apply_async p) &&
  (if has_scheduler p then gives_result p
   else gives_result p || gives_get p).

(** The heap [h] still holds the handles of [h1], with a cached result, if
    any, that is the result of the call. *)
Definition cached_ok (fn : kwargs -> res value) (h1 h : list obj) : Prop :=
  forall id kw hr hg,
    h1 !! id = Some (Handle Fn kw hr hg None) ->
    exists st, h !! id = Some (Handle Fn kw hr hg st) /\
               forall r, st = Some r -> fn kw = Ok r.

(** The backend that [_combo_runner] selects, first match wins. *)
Definition dispatch (fn : kwargs -> res value)
    (as_completed : list value -> list value)
    (known_scheduler : string -> option strategy)
    (combos : combos_t) (constants : kwargs)
    (parallel : parallel_t) (num_workers : option Z)
    (scheduler : scheduler_t) (pool : option pool_obj)
    (hide_progbar : bool) (n : Z) : M value :=
  let ndim := Z.of_nat (length combos) in
  match pool with
  | Some p =>
      if has_scheduler p then
        futures <- nested_submit fn Fn combos constants false (Some p)
                     default_submitter ;;
        fs <- lift (flatten futures ndim) ;;
        mapM (fun f => r <- py_result fn f ;;
                       set_stored_result f r ;;;
                       pbar_update) (as_completed fs) ;;;
        nested_get (try_stored_then_result fn) futures ndim
      else
        futures <- nested_submit fn Fn combos constants false (Some p)
                     default_submitter ;;
        nested_get (default_getter fn true) futures ndim
  | None =>
      if parallel_is parallel "mpi" then
        mpi_combo_runner_pool fn Fn combos constants hide_progbar n
          num_workers
      else if parallel_is parallel "dask" || scheduler_truthy scheduler
      then
        fn_name <- lift (_get_fn_name Fn) ;;
        jobs <- nested_submit fn Fn combos constants true None
                  default_submitter ;;
        scheduler' <-
          match scheduler with
          | SName s =>
              if scheduler_truthy scheduler
              then dask_scheduler_get known_scheduler s num_workers
              else ret scheduler
          | _ => ret scheduler
          end ;;
        compute fn jobs scheduler' num_workers
      else if parallel_truthy parallel || num_workers_truthy num_workers
      then
        pool' <- ProcessPoolExecutor num_workers ;;
        futures <- nested_submit fn Fn combos constants false (Some pool')
                     default_submitter ;;
        fs <- lift (flatten futures ndim) ;;
        mapM (fun f => pbar_update) (as_completed fs) ;;;
        nested_get (default_getter fn false) futures ndim
      else
        nested_submit fn (update_upon_eval Fn) combos constants false None
          default_submitter
  end.

(** The last line of [_combo_runner]. *)
Definition finish (split : bool) (results : value) (ndim : Z) : M value :=
  if split then
    xs <- lift (res_bind (unzip results ndim) iter) ;; ret (VList xs)
  else ret results.

(** The configurations under which a backend can run the calls: a pool
    that takes calls and gives results back, a scheduler name that is
    known, a positive worker count for the process pool, and, where calls
    go through [default_submitter], no keyword named [pool] or [fn]. *)
Definition supported (known_scheduler : string -> option strategy)
    (combos : combos_t) (constants : kwargs) (parallel : parallel_t)
    (num_workers : option Z) (scheduler : scheduler_t)
    (pool : option pool_obj) : Prop :=
  match pool with
  | Some p => pool_supported p = true /\ submit_names_free combos constants
  | None =>
      if parallel_is parallel "mpi" then submit_names_free combos constants
      else if parallel_is parallel "dask" || scheduler_truthy scheduler then
        match scheduler with
        | SName s =>
            if scheduler_truthy scheduler
            then is_Some (known_scheduler s) else True
        | _ => True
        end
      else if parallel_truthy parallel || num_workers_truthy num_workers then
        match num_workers with
        | Some k => 0 < k
        | None => True
        end /\ submit_names_free combos constants
      else True
  end.

(** The backend alone can run calls: a pool that takes calls and gives
    results back, a known scheduler name, a positive worker count. *)
Definition backend_ok (known_scheduler : string -> option strategy)
    (parallel : parallel_t) (num_workers : option Z) (scheduler : scheduler_t)
    (pool : option pool_obj) : Prop :=
  match pool with
  | Some p => pool_supported p = true
  | None =>
      if parallel_is parallel "mpi" then True
      else if parallel_is parallel "dask" || scheduler_truthy scheduler then
        match scheduler with
        | SName s =>
            if scheduler_truthy scheduler
            then is_Some (known_scheduler s) else True
        | _ => True
        end
      else if parallel_truthy parallel || num_workers_truthy num_workers then
        match num_workers with
        | Some k => 0 < k
        | None => True
        end
      else True
  end.

(** Python's [+] on the values of the universe. *)
Definition py_add (x y : value) : res value :=
  match x, y with
  | VInt a, VInt b => Ok (VInt (a + b))
  | VInt a, VBool b => Ok (VInt (a + Z.b2z b))
  | VBool a, VInt b => Ok (VInt (Z.b2z a + b))
  | VBool a, VBool b => Ok (VInt (Z.b2z a + Z.b2z b))
  | VList a, VList b => Ok (VList (a ++ b))
  | VTuple a, VTuple b => Ok (VTuple (a ++ b))
  | _, _ => Raise (TypeError "unsupported operand type(s) for +")
  end.

(** [fn(a, b, c) = a + b + c], called by keywords: a missing or an
    unexpected keyword is a [TypeError]. *)
Definition foo3_scalar (kw : kwargs) : res value :=
  match kw !! "a", kw !! "b", kw !! "c" with
  | Some a, Some b, Some c =>
      if (size kw =? 3)%nat then res_bind (py_add a b) (fun ab => py_add ab c)
      else Raise (TypeError "got an unexpected keyword argument")
  | _, _, _ => Raise (TypeError "missing required argument")
  end.

(** [fn(fn) = fn]: a function whose one parameter is named [fn]. *)
Definition echo_fn (kw : kwargs) : res value :=
  match kw !! "fn" with
  | Some v =>
      if (size kw =? 1)%nat then Ok v
      else Raise (TypeError "got an unexpected keyword argument")
  | None => Raise (TypeError "missing required argument")
  end.

Definition combos_abc : combos_t :=
  [("a", [VInt 1; VInt 2]);
   ("b", [VInt 10; VInt 20; VInt 30]);
   ("c", [VInt 100; VInt 200; VInt 300; VInt 400])].

Definition combos_a : combos_t := [("a", [VInt 1; VInt 2])].

Definition constants_bc : kwargs :=
  <["b" := VInt 20]> (<["c" := VInt 300]> ∅).

Definition world0 : world := World [] [].

(** The sequential run of the three-argument example. *)
Definition tree_abc : value :=
  VList
    [VList [VList [VInt 111; VInt 211; VInt 311; VInt 411];
            VList [VInt 121; VInt 221; VInt 321; VInt 421];
            VList [VInt 131; VInt 231; VInt 331; VInt 431]];
     VList [VList [VInt 112; VInt 212; VInt 312; VInt 412];
            VList [VInt 122; VInt 222; VInt 322; VInt 422];
            VList [VInt 132; VInt 232; VInt 332; VInt 432]]].

Definition exposes_result (w : world) (future : value) : bool :=
  match future with
  | VRef id =>
      match heap w !! id with
      | Some (Handle _ _ true _ _) => true
      | _ => false
      end
  | _ => false
  end.

Definition exposes_get (w : world) (future : value) : bool :=
  match future with
  | VRef id =>
      match heap w !! id with
      | Some (Handle _ _ _ true _) => true
      | _ => false
      end
  | _ => false
  end.

(** The rest of the getter after the value is there: the update of the bar
    when there is one. *)
Definition resolved (pbar : bool) (r : res value * world)
  : res value * world :=
  match r with
  | (Ok v, w) => (Ok v, if pbar then after w [Update] else w)
  | (Raise e, w) => (Raise e, w)
  end.

(** The smallest length among the rows; no row, no column. *)
Fixpoint min_arity (rows : list (list value)) : nat :=
  match rows with
  | [] => 0
  | r :: rest =>
      match rest with
      | [] => length r
      | _ :: _ => Nat.min (length r) (min_arity rest)
      end
  end.

(** A leaf that is a tuple of arity [k]. *)
Definition tuple_leaf (k : nat) (v : value) : bool :=
  match v with
  | VTuple cs => (length cs =? k)%nat
  | _ => false
  end.

Definition nonempty {A} (xs : list A) : bool :=
  match xs with
  | [] => false
  | _ :: _ => true
  end.

(** A tree with [S n] levels, no empty sequence at any level, whose leaves
    are tuples of arity [k]. *)
Fixpoint tuple_tree (k n : nat) (t : value) : bool :=
  match items t with
  | Some xs =>
      nonempty xs &&
      forallb (match n with
               | O => tuple_leaf k
               | S n' => tuple_tree k n'
               end) xs
  | None => false
  end.

(** The j-th component of a leaf. *)
Definition component (j : nat) (leaf : value) : value :=
  nth j (elems leaf) VNone.

(** The tree of the j-th components, as [unzip] builds it: tuples at every
    level. *)
Fixpoint proj (j n : nat) (t : value) : value :=
  match n with
  | O => VTuple (map (component j) (elems t))
  | S n' => VTuple (map (proj j n') (elems t))
  end.

(** The futures of the single-combination example in a process pool, and
    the world that holds them. *)
Definition world_a : world :=
  World [Handle Fn (<["a" := VInt 1]> constants_bc) true false None;
         Handle Fn (<["a" := VInt 2]> constants_bc) true false None] [].

Definition futures_a : value := VList [VRef 0; VRef 1].

Definition values_a (future : value) : value :=
  match future with
  | VRef O => VInt 321
  | _ => VInt 322
  end.

Definition tree_docstring : value :=
  VList [VList [VTuple [VInt 1; VBool true]; VTuple [VInt 2; VBool false];
                VTuple [VInt 3; VBool true]];
         VList [VTuple [VInt 7; VBool true]; VTuple [VInt 8; VBool false];
                VTuple [VInt 9; VBool true]]].

Definition combos_ab : combos_t :=
  [("a", [VInt 1; VInt 2]); ("b", [VInt 10; VInt 20; VInt 30])].

(** A tree with [S n] levels whose leaves are tuples of arity [k]; a
    sequence of the tree may be empty. *)
Fixpoint tuple_leaves (k n : nat) (t : value) : bool :=
  match items t with
  | Some xs =>
      forallb (match n with
               | O => tuple_leaf k
               | S n' => tuple_leaves k n'
               end) xs
  | None => false
  end.

(** Python's [x % 2 == 0] on the values of the universe. *)
Definition py_even (x : value) : res value :=
  match x with
  | VInt a => Ok (VBool (Z.even a))
  | VBool b => Ok (VBool (negb b))
  | _ => Raise (TypeError "unsupported operand type(s) for %")
  end.

(** [fn(a, b, c) = a + b + c, a % 2 == 0], called by keywords: two outputs
    per call. *)
Definition foo3_float_bool (kw : kwargs) : res value :=
  match kw !! "a", kw !! "b", kw !! "c" with
  | Some a, Some b, Some c =>
      if (size kw =? 3)%nat then
        res_bind (res_bind (py_add a b) (fun ab => py_add ab c)) (fun s =>
        res_bind (py_even a) (fun e => Ok (VTuple [s; e])))
      else Raise (TypeError "got an unexpected keyword argument")
  | _, _, _ => Raise (TypeError "missing required argument")
  end.

(** The sequential run of the two-output example over [a] and [b], with
    [c = 300], and the two trees its split gives. *)
Definition tree_float_bool : value :=
  VList [VList [VTuple [VInt 311; VBool false]; VTuple [VInt 321; VBool false];
                VTuple [VInt 331; VBool false]];
         VList [VTuple [VInt 312; VBool true]; VTuple [VInt 322; VBool true];
                VTuple [VInt 332; VBool true]]].

Definition split_float_bool : value :=
  VList [VTuple [VTuple [VInt 311; VInt 321; VInt 331];
                 VTuple [VInt 312; VInt 322; VInt 332]];
         VTuple [VTuple [VBool false; VBool false; VBool false];
                 VTuple [VBool true; VBool true; VBool true]]].

(** A tree with two levels and an empty sequence; its one leaf is a tuple
    of arity two. *)
Definition tree_empty_row : value :=
  VList [VList [VTuple [VInt 1; VInt 2]]; VList []].

(** ** More of gen/combo_runner.py and utils.py *)

(** [get_ndim_first(x, ndim)]: [x] at [ndim == 0], else the same of [x[0]]
    one level down. [x[0]] of an empty list or tuple is an [IndexError];
    [None], booleans and integers are not subscriptable. An object known by
    reference is taken to refuse item access as a future does; what is
    proved of [get_ndim_first] on all values is proved of values without
    references ([plain]). *)
Fixpoint get_ndim_first (x : value) (ndim : Z) {struct x} : res value :=
  if ndim =? 0 then Ok x
  else
    match x with
    | VList (x0 :: _) | VTuple (x0 :: _) => get_ndim_first x0 (ndim - 1)
    | VList [] | VTuple [] => Raise IndexError
    | _ => Raise (TypeError "object is not subscriptable")
    end.

Section Argwhere.
Context {A B : Type}.

(** [key(el, y)], seen through its truth value; a key may raise. *)
Variable key : A -> B -> res bool.

(** The loop of [argwhere] over [enumerate(x)], the counter at [i]. *)
Fixpoint argwhere_from (i : nat) (x : list A) (y : B) : res (option nat) :=
  match x with
  | [] => Ok None
  | el :: rest =>
      res_bind (key el y) (fun b =>
        if b then Ok (Some i) else argwhere_from (S i) rest y)
  end.

(** [argwhere(x, y, key)] of utils.py, and again of manage.py: the index of
    the first [el] with [key(el, y)]; falling off the loop returns [None]. *)
Definition argwhere (x : list A) (y : B) : res (option nat) :=
  argwhere_from 0 x y.

(** [el] at position [k] is the first one that [key] does not answer
    [False] for, and [r] is its answer. *)
Definition first_answer (x : list A) (y : B) (k : nat) (r : res bool) : Prop :=
  exists el, x !! k = Some el /\ key el y = r /\
    forall j el', (j < k)%nat -> x !! j = Some el' -> key el' y = Ok false.
End Argwhere.

(** [operator.eq], the default [key], on strings (dimension names). *)
Definition eq_str (a b : string) : res bool := Ok (String.eqb a b).

Module Inspect.

(** An attribute that [_get_fn_name] reads and calls [partition] on: a
    string has the method, another object ([AOther], a tuple key for
    instance) has not. *)
Inductive attr : Type :=
| AStr (s : string)
| AOther.

(** A callable, by the attributes [_get_fn_name] looks at: [__name__],
    [key] and [func]. *)
Inductive fn_obj : Type :=
| FnObj (name : option string) (key : option attr) (func : option fn_obj).

Definition name_of (f : fn_obj) : option string :=
  match f with FnObj n _ _ => n end.

(** [s.partition(sep)[0]] for a separator of one character: [s] up to the
    first [sep], all of [s] when there is none. *)
Fixpoint partition_head (sep : Ascii.ascii) (s : string) : string :=
  match s with
  | EmptyString => EmptyString
  | String c s' =>
      if Ascii.eqb c sep then EmptyString
      else String c (partition_head sep s')
  end.

(** [_get_fn_name(fn)] of utils.py: [fn.__name__]; without it the dask key
    up to its first dash; without a key that can be partitioned,
    [fn.func.__name__], whose [AttributeError] is not caught. *)
Definition _get_fn_name (fn : fn_obj) : res string :=
  match fn with
  | FnObj (Some n) _ _ => Ok n
  | FnObj None (Some (AStr k)) _ => Ok (partition_head "-"%char k)
  | FnObj None _ (Some g) =>
      match name_of g with
      | Some n => Ok n
      | None => Raise (AttributeError "__name__")
      end
  | FnObj None _ None => Raise (AttributeError "func")
  end.

(** The callables of the runner as such objects: plain functions, named. *)
Definition of_callable (f : callable) : fn_obj :=
  match f with
  | Fn => FnObj (Some "fn") None None
  | UpdateUponEval _ => FnObj (Some "new_fn") None None
  end.

End Inspect.

(** The keyword merges of the leaf calls of [nested_submit], in the order
    the nested comprehensions reach them: one per combination, the last
    argument varying fastest. *)
Fixpoint leaf_calls (combos : combos_t) (kwds : kwargs) : list (res kwargs) :=
  match combos with
  | [] => []
  | (arg, inputs) :: rest =>
      match rest with
      | [] => map (merge_kwargs kwds arg) inputs
      | _ :: _ =>
          concat (map (fun x => leaf_calls rest (<[arg := x]> kwds)) inputs)
      end
  end.

(** What a keyword merge can come to: the keywords, or the [TypeError] of
    a repeated keyword. *)
Definition merge_outcome (rk : res kwargs) : Prop :=
  match rk with
  | Ok _ => True
  | Raise e => e = TypeError "got multiple values for keyword argument"
  end.

(** The keyword arguments of all combinations, in the same order. *)
Fixpoint all_kwargs (combos : combos_t) (kwds : kwargs) : list kwargs :=
  match combos with
  | [] => [kwds]
  | (arg, inputs) :: rest =>
      concat (map (fun x => all_kwargs rest (<[arg := x]> kwds)) inputs)
  end.

(** One round of the flat loop: the keywords are merged, then the leaf
    operation of the mode runs. *)
Definition leaf_round (fn : kwargs -> res value) (f : callable)
    (delay : bool) (pool : option pool_obj)
    (submitter : pool_obj -> callable -> kwargs -> M value)
    (rk : res kwargs) : M value :=
  kw <- lift rk ;; leaf_op fn f delay pool submitter kw.

(** [r] is what the loop outcome [l] prescribes: the same exception in the
    same world, or, in the same world, a result that [Q] relates to the
    loop's. *)
Definition agrees {A B} (Q : A -> B -> Prop) (r : res A * world)
    (l : res B * world) : Prop :=
  match l with
  | (Ok b, w') => exists a, r = (Ok a, w') /\ Q a b
  | (Raise e, w') => r = (Raise e, w')
  end.

Definition is_update (e : event) : bool :=
  match e with
  | Update => true
  | Call _ => false
  end.

(** How often the bar was advanced. *)
Definition updates (evs : list event) : nat :=
  length (List.filter is_update evs).

(** The events of one call of the sequential run that returns. *)
Definition call_round (kw : kwargs) : list event := [Call kw; Update].

(** [_combo_runner] takes the deferred-graph branch. *)
Definition graph_backend (parallel : parallel_t) (scheduler : scheduler_t)
    (pool : option pool_obj) : bool :=
  match pool with
  | Some _ => false
  | None =>
      negb (parallel_is parallel "mpi") &&
      (parallel_is parallel "dask" || scheduler_truthy scheduler)
  end.

(** The position in row-major order of the logical index [path] in a tree
    of shape [dims]. *)
Fixpoint ravel (dims path : list nat) : nat :=
  match dims, path with
  | _ :: ds, i :: p => (i * product ds + ravel ds p)%nat
  | _, _ => 0%nat
  end.

Definition iterable (v : value) : bool :=
  match items v with
  | Some _ => true
  | None => false
  end.

(** A value made of [None], booleans, integers, lists and tuples: no opaque
    object in it. *)
Fixpoint plain (v : value) : bool :=
  match v with
  | VRef _ => false
  | VList xs | VTuple xs => forallb plain xs
  | _ => true
  end.

(** The trace grew from [w] to [w'] by events with [k] updates. *)
Definition ticks (k : nat) (w w' : world) : Prop :=
  exists evs, trace w' = trace w ++ evs /\ updates evs = k.

(** What the uniform accessor makes of the outcome of a call whose handle
    exposes [result()] ([hr]) and [get()] ([hg]): an [AttributeError] of
    the call sends the accessor to [get()]. *)
Definition collected (hr hg : bool) (r : res value) : res value :=
  match r with
  | Raise (AttributeError a) =>
      Raise (AttributeError (if hr && negb hg then "get" else a))
  | _ => r
  end.

(** The outcome [o] is the flat outcome [flat] put into the shape of the
    combinations. *)
Definition reshaped (combos : combos_t) (o : res value)
    (flat : res (list value)) : Prop :=
  match flat with
  | Ok vs =>
      exists t, o = Ok t /\ list_shape (dims_of combos) t = true /\
                flatten t (Z.of_nat (length combos)) = Ok vs
  | Raise e => o = Raise e
  end.

(** The value of the last line of [_combo_runner]. *)
Definition finish_out (split : bool) (results : value) (ndim : Z)
  : res value :=
  if split then res_map VList (res_bind (unzip results ndim) iter)
  else Ok results.

(** The futures of the backend expose [result()] and no [get()], so the
    uniform accessor answers an [AttributeError] of the call with its own. *)
Definition masks_attribute_error (parallel : parallel_t)
    (num_workers : option Z) (pool : option pool_obj) : bool :=
  match pool with
  | Some p => gives_result p && negb (gives_get p)
  | None => parallel_truthy parallel || num_workers_truthy num_workers
  end.

(** A combination list whose second call fails: [None + 20] is a
    [TypeError]. *)
Definition combos_a_none : combos_t := [("a", [VInt 1; VNone])].

(** A combination list with an empty value sequence. *)
Definition combos_ab_empty : combos_t :=
  [("a", [VInt 1; VInt 2]); ("b", [])].

(** A function that raises [AttributeError] whatever its arguments. *)
Definition raises_attribute_error (kw : kwargs) : res value :=
  Raise (AttributeError "shape").

Definition constants_c : kwargs := <["c" := VInt 300]> ∅.

(** The heap holds, from position [h0] on, the handles of the calls [kws],
    whatever is cached on them. *)
Definition holds_handles (p : pool_obj) (h0 : nat) (kws : list kwargs)
    (h : list obj) : Prop :=
  forall i kw, kws !! i = Some kw ->
    exists st, h !! (h0 + i)%nat
               = Some (Handle Fn kw (gives_result p) (gives_get p) st).

(** A pool of dask.distributed: it has the attribute [scheduler], the
    method [submit], and its futures have [result()]. *)
Definition distributed_client : pool_obj := Pool true true false true false.

(** ** manage.py *)

Module Manage.

(** [needle in s] on strings. *)
Fixpoint contains (needle s : string) : bool :=
  String.prefix needle s ||
  match s with
  | EmptyString => false
  | String _ s' => contains needle s'
  end.

(** [_auto_add_extension(file_name, engine)] *)
Definition _auto_add_extension (file_name engine : string) : string :=
  if negb (contains "." file_name) then
    let extension := if String.eqb engine "h5netcdf" then ".h5" else ".nc" in
    String.append file_name extension
  else file_name.

(** The exceptions of the I/O layer that [load_ds] tells apart, with what
    [str] gives of them. *)
Inductive io_exn : Type :=
| EAttribute (msg : string)
| ERuntime (msg : string)
| EOS (msg : string)
| EOther (msg : string).

Section IO.

(** xarray datasets and the calls made on them and on xarray, by what they
    return or raise. *)
Variable Dataset : Type.
Variable blank : Dataset.
Variable open_dataset : string -> string -> io_exn + Dataset.
Variable ds_load : Dataset -> option io_exn.
Variable ds_close : Dataset -> option io_exn.
Variable to_netcdf : Dataset -> string -> string -> option io_exn.

(** The calls, in the order they are made. *)
Inductive io_event : Type :=
| EvOpen (file engine : string)
| EvLoad (ds : Dataset)
| EvClose (ds : Dataset)
| EvWrite (ds : Dataset) (file engine : string).

(** [save_ds(ds, file_name, engine)] *)
Definition save_ds (ds : Dataset) (file_name engine : string)
  : list io_event * option io_exn :=
  let file_name := _auto_add_extension file_name engine in
  ([EvWrite ds file_name engine], to_netcdf ds file_name engine).

(** The inner [try] of [load_ds]: the file is opened with the engine, and
    once more with netcdf4 when h5netcdf fails on a missing attribute. *)
Definition open_with_fallback (file_name engine : string)
  : list io_event * (io_exn + Dataset) :=
  match open_dataset file_name engine with
  | inl (EAttribute m) =>
      if contains "object has no attribute" m && String.eqb engine "h5netcdf"
      then ([EvOpen file_name engine; EvOpen file_name "netcdf4"],
            open_dataset file_name "netcdf4")
      else ([EvOpen file_name engine], inl (EAttribute m))
  | r => ([EvOpen file_name engine], r)
  end.

(** [load_ds(file_name, engine, load_to_mem, create_new)] *)
Definition load_ds (file_name engine : string) (load_to_mem create_new : bool)
  : list io_event * (io_exn + Dataset) :=
  let file_name := _auto_add_extension file_name engine in
  let body :=
    match open_with_fallback file_name engine with
    | (log, inr ds) =>
        if load_to_mem then
          match ds_load ds with
          | Some e => (log ++ [EvLoad ds], inl e)
          | None =>
              match ds_close ds with
              | Some e => (log ++ [EvLoad ds; EvClose ds], inl e)
              | None => (log ++ [EvLoad ds; EvClose ds], inr ds)
              end
          end
        else (log, inr ds)
    | (log, inl e) => (log, inl e)
    end in
  match body with
  | (log, inl (ERuntime m)) =>
      if contains "o such" m && create_new then (log, inr blank)
      else (log, inl (ERuntime m))
  | (log, inl (EOS m)) =>
      if contains "o such" m && create_new then (log, inr blank)
      else (log, inl (EOS m))
  | r => r
  end.

End IO.
End Manage.

(** A store with the one file [data.h5], holding the dataset [7]. *)
Definition one_file_store (file engine : string) : Manage.io_exn + nat :=
  if String.eqb file "data.h5" then inr 7%nat
  else inl (Manage.EOS "No such file or directory").

(** [load()] and [close()] that do not raise. *)
Definition no_error (d : nat) : option Manage.io_exn := None.

(** * Proofs *)

(** The example of the docstring of [unzip]. *)
Example unzip_docstring :
  unzip tree_docstring 2
  = Ok (VList
      [VTuple [VTuple [VInt 1; VInt 2; VInt 3];
               VTuple [VInt 7; VInt 8; VInt 9]];
       VTuple [VTuple [VBool true; VBool false; VBool true];
               VTuple [VBool true; VBool false; VBool true]]]).
Proof. reflexivity. Qed.

Lemma cartesian_mono (L L' : value -> kwargs -> Prop) combos :
  (forall v kw, L v kw -> L' v kw) ->
  forall kwds t, cartesian L combos kwds t -> cartesian L' combos kwds t.
Proof.
  intros HL. induction combos as [|[arg inputs] rest IH]; simpl; [tauto|].
  intros kwds t (xs & -> & H). exists xs. split; [done|].
  eapply Forall2_impl; [exact H|]. intros x sub Hx. simpl in Hx.
  destruct rest; [|by apply IH]. destruct Hx. split; [done|by apply HL].
Qed.

Lemma cartesian_shape L combos kwds t :
  cartesian L combos kwds t -> has_shape (dims_of combos) t = true.
Proof.
  revert kwds t. induction combos as [|[arg inputs] rest IH]; simpl; [tauto|].
  intros kwds t (xs & -> & H). simpl.
  apply andb_true_iff. split.
  - apply Nat.eqb_eq. symmetry. by eapply Forall2_length.
  - apply forallb_forall. intros sub Hin. apply list_elem_of_In in Hin.
    destruct (proj1 (list_elem_of_lookup _ _) Hin) as [i Hi].
    destruct (Forall2_lookup_r _ _ _ _ _ H Hi) as (x & _ & Hx).
    destruct rest as [|c rest']; [done|]. eapply IH, Hx.
Qed.

Lemma cartesian_index L combos kwds t path kw :
  cartesian L combos kwds t ->
  assign combos kwds path = Some kw ->
  exists leaf, index t path = Some leaf /\ L leaf kw.
Proof.
  revert kwds t path. induction combos as [|[arg inputs] rest IH]; simpl;
    [tauto|].
  intros kwds t [|i p] (xs & -> & H) Ha; [done|].
  destruct (inputs !! i) as [x|] eqn:Hi; [|done].
  destruct (Forall2_lookup_l _ _ _ _ _ H Hi) as (sub & Hsub & Hx).
  simpl. rewrite Hsub. destruct rest as [|c rest'].
  - destruct p; [|done]. simpl in Ha. injection Ha as <-. destruct Hx.
    by exists sub.
  - eapply IH; eauto.
Qed.

(** A tree is determined by the correspondence when the leaves are. *)
Lemma cartesian_functional (L : value -> kwargs -> Prop) combos :
  (forall v v' kw, L v kw -> L v' kw -> v = v') ->
  forall kwds t t',
    cartesian L combos kwds t -> cartesian L combos kwds t' -> t = t'.
Proof.
  intros HL. induction combos as [|[arg inputs] rest IH]; simpl; [tauto|].
  intros kwds t t' (xs & -> & H) (ys & -> & H'). f_equal.
  revert ys H'. induction H as [|x sub inputs' xs' Hx _ IHl];
    intros ys H'; inversion H' as [|? sub' ? ys' Hx' Hrest]; subst; [done|].
  f_equal; [|by apply IHl].
  destruct rest; [|by eapply IH]. destruct Hx, Hx'. by eapply HL.
Qed.

(** ** Reasoning about the monad *)

Lemma bind_ok {A B} (m : M A) (k : A -> M B) w a w' :
  m w = (Ok a, w') -> bind m k w = k a w'.
Proof. intros H. unfold bind. by rewrite H. Qed.

Lemma bind_raise {A B} (m : M A) (k : A -> M B) w e w' :
  m w = (Raise e, w') -> bind m k w = (Raise e, w').
Proof. intros H. unfold bind. by rewrite H. Qed.

Lemma bind_get_fn_name {B} (k : string -> M B) w :
  bind (lift (_get_fn_name Fn)) k w = k "fn" w.
Proof. reflexivity. Qed.

Section MapMInv.
Context {A B : Type} (f : A -> M B).
(** [I] holds of the worlds the loop runs in, [R] relates a world to a
    later one, [P] relates an item to its result. *)
Variable I : world -> Prop.
Variable R : world -> world -> Prop.
Variable P : world -> A -> B -> Prop.
Hypothesis R_refl : forall w, R w w.
Hypothesis R_trans : forall w1 w2 w3, R w1 w2 -> R w2 w3 -> R w1 w3.
Hypothesis P_stable : forall w w' x y, P w x y -> R w w' -> P w' x y.

Lemma mapM_inv xs :
  Forall (fun x => forall w, I w ->
            exists y w', f x w = (Ok y, w') /\ I w' /\ R w w' /\ P w' x y) xs ->
  forall w, I w ->
    exists ys w', mapM f xs w = (Ok ys, w') /\ I w' /\ R w w' /\
                  Forall2 (P w') xs ys.
Proof.
  induction 1 as [|x xs Hx _ IH]; intros w Hw.
  - exists [], w. simpl. by repeat split.
  - destruct (Hx w Hw) as (y & w1 & Hf & Hw1 & HR1 & HP).
    destruct (IH w1 Hw1) as (ys & w2 & Hm & Hw2 & HR2 & HF).
    exists (y :: ys), w2. simpl.
    rewrite (bind_ok _ _ _ _ _ Hf), (bind_ok _ _ _ _ _ Hm).
    split; [done|]. split; [done|]. split; [by eapply R_trans|].
    constructor; [by eapply P_stable|done].
Qed.
End MapMInv.

Lemma nested_submit_innermost fn f arg inputs kwds delay pool submitter :
  nested_submit fn f [(arg, inputs)] kwds delay pool submitter
  = (xs <- mapM (fun x => kw <- lift (merge_kwargs kwds arg x) ;;
                          leaf_op fn f delay pool submitter kw) inputs ;;
     ret (VList xs)).
Proof. unfold leaf_op. simpl. destruct pool; [done|]. by destruct delay. Qed.

Lemma names_fresh_tail arg inputs rest kwds x :
  names_fresh ((arg, inputs) :: rest) kwds ->
  names_fresh rest (<[arg := x]> kwds).
Proof.
  intros [Hnd Hk]. simpl in Hnd. apply NoDup_cons in Hnd as [Hnotin Hnd].
  split; [done|]. intros a Ha.
  rewrite lookup_insert_ne; [|by intros ->].
  apply Hk. simpl. by right.
Qed.

Lemma names_fresh_head arg inputs rest kwds :
  names_fresh ((arg, inputs) :: rest) kwds -> kwds !! arg = None.
Proof. intros [_ Hk]. apply Hk. simpl. by left. Qed.

Section SubmitInv.
Variable fn : kwargs -> res value.
Variable f : callable.
Variable delay : bool.
Variable pool : option pool_obj.
Variable submitter : pool_obj -> callable -> kwargs -> M value.
Variable R : world -> world -> Prop.
Variable L : world -> value -> kwargs -> Prop.
Hypothesis R_refl : forall w, R w w.
Hypothesis R_trans : forall w1 w2 w3, R w1 w2 -> R w2 w3 -> R w1 w3.
Hypothesis L_stable : forall w w' v kw, L w v kw -> R w w' -> L w' v kw.

Lemma nested_submit_inv combos :
  forall kwds,
    combos <> [] ->
    names_fresh combos kwds ->
    (forall path kw, assign combos kwds path = Some kw ->
       forall w, exists v w',
         leaf_op fn f delay pool submitter kw w = (Ok v, w') /\
         R w w' /\ L w' v kw) ->
    forall w, exists t w',
      nested_submit fn f combos kwds delay pool submitter w = (Ok t, w') /\
      R w w' /\ cartesian (L w') combos kwds t.
Proof.
  induction combos as [|[arg inputs] rest IH]; intros kwds Hne Hfresh Hleaf w;
    [done|].
  destruct rest as [|c rest'].
  - rewrite nested_submit_innermost.
    pose proof (names_fresh_head _ _ _ _ Hfresh) as Harg.
    destruct (mapM_inv
                (fun x => kw <- lift (merge_kwargs kwds arg x) ;;
                          leaf_op fn f delay pool submitter kw)
                (fun _ => True) R
                (fun w x y => kwds !! arg = None /\
                              L w y (<[arg := x]> kwds))
                R_refl R_trans) with (xs := inputs) (w := w)
      as (ys & w' & Hm & _ & HR & HF);
      [intros ? ? ? ? [? ?] ?; eauto| |done|].
    + apply Forall_lookup. intros i x Hi w1 _.
      destruct (Hleaf [i] (<[arg := x]> kwds)) with (w := w1)
        as (v & w2 & Hop & HR & HL).
      { simpl. by rewrite Hi. }
      exists v, w2. split; [|done].
      unfold bind, lift, merge_kwargs. by rewrite Harg.
    + exists (VList ys), w'. rewrite (bind_ok _ _ _ _ _ Hm).
      split; [done|]. split; [done|]. simpl. by exists ys.
  - change (nested_submit fn f ((arg, inputs) :: c :: rest') kwds delay pool
              submitter)
      with (xs <- mapM (fun x => nested_submit fn f (c :: rest')
                                   (<[arg := x]> kwds) delay pool submitter)
                    inputs ;; ret (VList xs)).
    destruct (mapM_inv
                (fun x => nested_submit fn f (c :: rest')
                            (<[arg := x]> kwds) delay pool submitter)
                (fun _ => True) R
                (fun w x y => cartesian (L w) (c :: rest')
                                (<[arg := x]> kwds) y)
                R_refl R_trans) with (xs := inputs) (w := w)
      as (ys & w' & Hm & _ & HR & HF); [| |done|].
    + intros w1 w2 x y Hc HR. eapply cartesian_mono; [|exact Hc].
      intros v kw HL. by eapply L_stable.
    + apply Forall_lookup. intros i x Hi w1 _.
      destruct (IH (<[arg := x]> kwds)) with (w := w1)
        as (t & w2 & Hs & HR & Hc); [done| | |].
      { by eapply names_fresh_tail. }
      { intros path kw Ha. apply (Hleaf (i :: path) kw).
        simpl. by rewrite Hi. }
      by exists t, w2.
    + exists (VList ys), w'. rewrite (bind_ok _ _ _ _ _ Hm).
      split; [done|]. split; [done|]. by exists ys.
Qed.
End SubmitInv.

Lemma grows_refl Q E w : grows Q E w w.
Proof.
  split; [exists [] | exists []]; by rewrite app_nil_r.
Qed.

Lemma grows_trans Q E w1 w2 w3 :
  grows Q E w1 w2 -> grows Q E w2 w3 -> grows Q E w1 w3.
Proof.
  intros [(o1 & H1 & F1) (e1 & T1 & G1)] [(o2 & H2 & F2) (e2 & T2 & G2)].
  split.
  - exists (o1 ++ o2). rewrite H2, H1, app_assoc. split; [done|].
    by apply Forall_app.
  - exists (e1 ++ e2). rewrite T2, T1, app_assoc. split; [done|].
    by apply Forall_app.
Qed.

Lemma grows_lookup Q E w w' id o :
  grows Q E w w' -> heap w !! id = Some o -> heap w' !! id = Some o.
Proof.
  intros [(objs & -> & _) _] H. by apply lookup_app_l_Some.
Qed.

Lemma leaf_for_stable fn f delay pool Q E w w' v kw :
  leaf_for fn f delay pool w v kw -> grows Q E w w' ->
  leaf_for fn f delay pool w' v kw.
Proof.
  unfold leaf_for. intros H G. destruct pool as [p|]; [|destruct delay].
  - destruct H as (id & -> & H). exists id. split; [done|].
    by eapply grows_lookup.
  - destruct H as (id & -> & H). exists id. split; [done|].
    by eapply grows_lookup.
  - done.
Qed.

Lemma lookup_snoc {A} (l : list A) (x : A) : (l ++ [x]) !! length l = Some x.
Proof. by rewrite lookup_app_r, Nat.sub_diag. Qed.

Section LeafOps.
Variable fn : kwargs -> res value.

(** A direct call yields what the callable yields anywhere, and leaves
    the heap alone. *)
Lemma call_spec f kw w :
  exists w', call fn f kw w = (remote fn f kw, w') /\
             grows (fun _ => False) (fun _ => True) w w'.
Proof.
  revert w. induction f as [|g IH]; intros w; simpl.
  - eexists. split; [reflexivity|]. split.
    + exists []. by rewrite app_nil_r.
    + exists [Call kw]. split; [done|]. by repeat constructor.
  - destruct (IH w) as (w1 & Hc & G). unfold bind at 1. rewrite Hc.
    destruct (remote fn g kw) as [v|e].
    + eexists. split; [reflexivity|].
      eapply grows_trans; [exact G|]. split.
      * exists []. by rewrite app_nil_r.
      * exists [Update]. split; [done|]. by repeat constructor.
    + by exists w1.
Qed.

Lemma delayed_spec f kw w :
  delayed f kw w
  = (Ok (VRef (length (heap w))),
     World (heap w ++ [Delayed f kw]) (trace w)).
Proof. reflexivity. Qed.

Lemma default_submitter_ok p f kw w v w' :
  default_submitter p f kw w = (Ok v, w') ->
  v = VRef (length (heap w)) /\
  w' = World (heap w ++ [Handle f kw (gives_result p) (gives_get p) None])
             (trace w) /\
  kw !! "pool" = None /\ kw !! "fn" = None /\
  has_submit p || has_apply_async p = true.
Proof.
  unfold default_submitter.
  destruct (kw !! "pool"); [by destruct (kw !! "fn")|].
  destruct (kw !! "fn"); [done|].
  destruct (has_submit p), (has_apply_async p); simpl;
    unfold pool_register, alloc, raise; intros [= <- <-]; done.
Qed.

Lemma default_submitter_spec p f kw w :
  kw !! "pool" = None -> kw !! "fn" = None ->
  has_submit p || has_apply_async p = true ->
  default_submitter p f kw w
  = (Ok (VRef (length (heap w))),
     World (heap w ++ [Handle f kw (gives_result p) (gives_get p) None])
           (trace w)).
Proof.
  intros H1 H2 H3. unfold default_submitter. rewrite H1, H2.
  by destruct (has_submit p), (has_apply_async p).
Qed.

(** Whatever the mode, a leaf operation that returns normally leaves the
    leaf that belongs to its keyword arguments, and only adds to the
    world. *)
Lemma leaf_op_sound f delay pool kw w v w' :
  leaf_op fn f delay pool default_submitter kw w = (Ok v, w') ->
  grows (fun _ => True) (fun _ => True) w w' /\
  leaf_for fn f delay pool w' v kw.
Proof.
  unfold leaf_op, leaf_for. destruct pool as [p|]; [|destruct delay].
  - intros H. apply default_submitter_ok in H as (-> & -> & _). split.
    + split; [eexists; split; [reflexivity|]; by repeat constructor|].
      exists []. by rewrite app_nil_r.
    + eexists. split; [reflexivity|]. simpl. apply lookup_snoc.
  - rewrite delayed_spec. intros [= <- <-]. split.
    + split; [eexists; split; [reflexivity|]; by repeat constructor|].
      exists []. by rewrite app_nil_r.
    + eexists. split; [reflexivity|]. simpl. apply lookup_snoc.
  - intros H. destruct (call_spec f kw w) as (w1 & Hc & G).
    rewrite Hc in H. injection H as H <-. split; [|done].
    destruct G as [(o & Ho & _) (e & He & _)].
    split; [exists o | exists e]; split; try done; by apply Forall_true.
Qed.
End LeafOps.

Lemma cartesian_list_shape L combos kwds t :
  cartesian L combos kwds t -> list_shape (dims_of combos) t = true.
Proof.
  revert kwds t. induction combos as [|[arg inputs] rest IH]; simpl; [tauto|].
  intros kwds t (xs & -> & H).
  apply andb_true_iff. split.
  - apply Nat.eqb_eq. symmetry. by eapply Forall2_length.
  - apply forallb_forall. intros sub Hin. apply list_elem_of_In in Hin.
    destruct (proj1 (list_elem_of_lookup _ _) Hin) as [i Hi].
    destruct (Forall2_lookup_r _ _ _ _ _ H Hi) as (x & _ & Hx).
    destruct rest as [|c rest']; [done|]. eapply IH, Hx.
Qed.

(** C1. For a non-empty combination list and each of the three modes
    (direct, deferred, pooled), whenever every leaf operation returns
    normally, [nested_submit] returns a nested list: as deep as there are
    combination entries, dimension [i] as long as the i-th value sequence,
    and at every logical index the leaf of the call whose arguments are the
    values the sequences have at that index (row-major order). *)
Theorem nested_submit_cartesian_tree
    (fn : kwargs -> res value) (f : callable) (combos : combos_t)
    (kwds : kwargs) (delay : bool) (pool : option pool_obj) (w : world) :
  combos <> [] ->
  names_fresh combos kwds ->
  (forall path kw, assign combos kwds path = Some kw ->
     forall w0, exists v w1,
       leaf_op fn f delay pool default_submitter kw w0 = (Ok v, w1)) ->
  exists t w',
    nested_submit fn f combos kwds delay pool default_submitter w
      = (Ok t, w') /\
    list_shape (dims_of combos) t = true /\
    length (dims_of combos) = length combos /\
    forall path kw, assign combos kwds path = Some kw ->
      exists leaf, index t path = Some leaf /\
                   leaf_for fn f delay pool w' leaf kw.
Proof.
  intros Hne Hfresh Hret.
  destruct (nested_submit_inv fn f delay pool default_submitter
              (grows (fun _ => True) (fun _ => True))
              (leaf_for fn f delay pool)
              (grows_refl _ _) (grows_trans _ _))
    with (combos := combos) (kwds := kwds) (w := w)
    as (t & w' & Hs & _ & Hc); [| done | done | |].
  - intros w1 w2 v kw. apply leaf_for_stable.
  - intros path kw Ha w0. destruct (Hret path kw Ha w0) as (v & w1 & Hop).
    exists v, w1. split; [done|]. by apply leaf_op_sound.
  - exists t, w'. split; [done|]. split; [by eapply cartesian_list_shape|].
    split; [apply length_map|].
    intros path kw Ha. by eapply cartesian_index.
Qed.

(** ** Collection: [nested_get] *)

Lemma after_nil w : after w [] = w.
Proof. destruct w. unfold after. simpl. by rewrite app_nil_r. Qed.

Lemma after_after w e1 e2 : after (after w e1) e2 = after w (e1 ++ e2).
Proof. unfold after. simpl. by rewrite app_assoc. Qed.

Lemma mapR_ok {A B} (f : A -> res B) (g : A -> B) xs :
  Forall (fun x => f x = Ok (g x)) xs -> mapR f xs = Ok (map g xs).
Proof.
  induction 1 as [|x xs Hx _ IH]; simpl; [done|]. by rewrite Hx, IH.
Qed.

Lemma mapM_after {A B} (f : A -> M B) (g : A -> B) (ev : A -> list event)
    (h : list obj) xs :
  Forall (fun x => forall w, heap w = h ->
            f x w = (Ok (g x), after w (ev x))) xs ->
  forall w, heap w = h ->
    mapM f xs w = (Ok (map g xs), after w (concat (map ev xs))).
Proof.
  induction 1 as [|x xs Hx _ IH]; intros w Hw; simpl.
  - unfold ret. by rewrite after_nil.
  - rewrite (bind_ok _ _ _ _ _ (Hx w Hw)),
      (bind_ok _ _ _ _ _ (IH (after w (ev x)) Hw)).
    unfold ret. by rewrite after_after.
Qed.

Lemma has_shape_cons n ds t :
  has_shape (n :: ds) t = true ->
  exists xs, items t = Some xs /\ length xs = n /\
             Forall (fun x => has_shape ds x = true) xs.
Proof.
  simpl. destruct (items t) as [xs|]; [|done].
  intros [Hl Hf]%andb_true_iff. exists xs. split; [done|].
  split; [by apply Nat.eqb_eq|].
  apply Forall_forall. intros x Hx. rewrite forallb_forall in Hf.
  apply Hf. by apply list_elem_of_In.
Qed.

Lemma items_iter t xs : items t = Some xs -> iter t = Ok xs.
Proof. destruct t; simpl; congruence. Qed.

Lemma items_elems t xs : items t = Some xs -> elems t = xs.
Proof. unfold elems. by intros ->. Qed.

Lemma flatten_levels_shape n ds t :
  has_shape (n :: ds) t = true ->
  flatten_levels (length ds) t = Ok (leaves_of (length ds) t).
Proof.
  revert n t. induction ds as [|m ds' IH]; intros n t Hs;
    apply has_shape_cons in Hs as (xs & Hi & _ & Hf).
  - simpl. rewrite (items_iter _ _ Hi). by rewrite (items_elems _ _ Hi).
  - simpl. rewrite (items_iter _ _ Hi), (items_elems _ _ Hi). simpl.
    rewrite (mapR_ok _ (leaves_of (length ds'))); [done|].
    eapply Forall_impl; [exact Hf|]. intros x Hx. by apply (IH m).
Qed.

Lemma length_concat_const {A} (xss : list (list A)) k :
  Forall (fun xs => length xs = k) xss ->
  length (concat xss) = (length xss * k)%nat.
Proof.
  induction 1 as [|xs xss Hx _ IH]; simpl; [done|].
  rewrite length_app, Hx, IH. lia.
Qed.

Lemma fold_left_mul_Z (xs : list nat) (a : nat) :
  fold_left Z.mul (map Z.of_nat xs) (Z.of_nat a) = Z.of_nat (a * product xs).
Proof.
  revert a. induction xs as [|x xs IH]; intros a; simpl.
  - f_equal. lia.
  - rewrite <- Nat2Z.inj_mul, IH. f_equal. lia.
Qed.

Lemma prod_dims n ds :
  prod (map Z.of_nat (n :: ds)) = Ok (Z.of_nat (product (n :: ds))).
Proof. simpl. by rewrite fold_left_mul_Z. Qed.

Lemma leaves_of_length n ds t :
  has_shape (n :: ds) t = true ->
  length (leaves_of (length ds) t) = product (n :: ds).
Proof.
  revert n t. induction ds as [|m ds' IH]; intros n t Hs;
    apply has_shape_cons in Hs as (xs & Hi & Hl & Hf).
  - simpl. rewrite (items_elems _ _ Hi). lia.
  - simpl leaves_of. rewrite (items_elems _ _ Hi).
    rewrite (length_concat_const _ (product (m :: ds'))).
    + rewrite length_map, Hl. done.
    + apply Forall_map. eapply Forall_impl; [exact Hf|].
      intros x Hx. by apply (IH m).
Qed.

Lemma tmap_list_shape g n ds t :
  has_shape (n :: ds) t = true ->
  list_shape (n :: ds) (tmap g (length ds) t) = true.
Proof.
  revert n t. induction ds as [|m ds' IH]; intros n t Hs;
    apply has_shape_cons in Hs as (xs & Hi & Hl & Hf).
  - simpl. rewrite (items_elems _ _ Hi), length_map, Hl, Nat.eqb_refl.
    simpl. apply forallb_forall. done.
  - simpl tmap. rewrite (items_elems _ _ Hi).
    change (list_shape (n :: m :: ds') (VList ?l))
      with ((length l =? n)%nat && forallb (list_shape (m :: ds')) l).
    rewrite length_map, Hl, Nat.eqb_refl. simpl.
    apply forallb_forall. intros y Hy. apply list_elem_of_In in Hy.
    apply list_elem_of_fmap in Hy as (x & -> & Hx).
    apply IH. by eapply (proj1 (Forall_forall _ _) Hf).
Qed.

Lemma list_shape_has_shape dims t :
  list_shape dims t = true -> has_shape dims t = true.
Proof.
  revert t. induction dims as [|n ds IH]; intros t; [done|].
  simpl. destruct t; try done. simpl.
  intros [Hl Hf]%andb_true_iff. apply andb_true_iff. split; [done|].
  rewrite forallb_forall in *. intros x Hx. by apply IH, Hf.
Qed.

Lemma tmap_index g n ds t path :
  has_shape (n :: ds) t = true ->
  length path = length (n :: ds) ->
  index (tmap g (length ds) t) path = g <$> index t path.
Proof.
  revert n t path. induction ds as [|m ds' IH]; intros n t path Hs Hp;
    apply has_shape_cons in Hs as (xs & Hi & Hl & Hf);
    (destruct path as [|i p]; [done|]); simpl in Hp.
  - destruct p; [|done]. simpl. rewrite (items_elems _ _ Hi), Hi.
    rewrite list_lookup_fmap. by destruct (xs !! i).
  - simpl tmap. rewrite (items_elems _ _ Hi). simpl index. rewrite Hi.
    rewrite list_lookup_fmap. destruct (xs !! i) as [x|] eqn:Hx; [|done].
    simpl. apply (IH m); [|simpl; lia].
    eapply (proj1 (Forall_forall _ _) Hf). by eapply list_elem_of_lookup_2.
Qed.

Lemma nested_get_unfold getter t k xs :
  items t = Some xs ->
  nested_get getter t k
  = if k =? 1 then ys <- mapM getter xs ;; ret (VList ys)
    else ys <- mapM (fun fut => nested_get getter fut (k - 1)) xs ;;
         ret (VList ys).
Proof. destruct t; simpl; intros [= ->]; done. Qed.

Lemma nested_get_after getter (g : value -> value) (obs : value -> event)
    (h : list obj) n ds :
  forall t,
    has_shape (n :: ds) t = true ->
    (forall v w0, v ∈ leaves_of (length ds) t -> heap w0 = h ->
       getter v w0 = (Ok (g v), after w0 [obs v])) ->
    forall w, heap w = h ->
      nested_get getter t (Z.of_nat (length (n :: ds))) w
      = (Ok (tmap g (length ds) t),
         after w (map obs (leaves_of (length ds) t))).
Proof.
  revert n.
  induction ds as [|m ds' IH]; intros n t Hs Hg w Hw;
    apply has_shape_cons in Hs as (xs & Hi & Hl & Hf);
    rewrite (nested_get_unfold _ _ _ _ Hi).
  - change (Z.of_nat (length [n]) =? 1) with true. cbv iota.
    simpl tmap. simpl leaves_of. simpl leaves_of in Hg.
    rewrite (items_elems _ _ Hi) in *.
    rewrite (bind_ok _ _ _ _ _
               (mapM_after getter g (fun v => [obs v]) h xs
                  (proj2 (Forall_forall _ _) (fun v Hv w0 => Hg v w0 Hv))
                  w Hw)).
    unfold ret. do 2 f_equal. clear. induction xs; simpl; [done|]. by f_equal.
  - assert ((Z.of_nat (length (n :: m :: ds')) =? 1) = false) as ->
        by (apply Z.eqb_neq; simpl length; lia).
    assert (Z.of_nat (length (n :: m :: ds')) - 1
            = Z.of_nat (length (m :: ds'))) as ->
        by (simpl length; lia).
    simpl tmap. simpl leaves_of. simpl leaves_of in Hg.
    rewrite (items_elems _ _ Hi) in *.
    assert (Forall (fun x => forall w0, heap w0 = h ->
                      nested_get getter x (Z.of_nat (length (m :: ds'))) w0
                      = (Ok (tmap g (length ds') x),
                         after w0 (map obs (leaves_of (length ds') x)))) xs)
      as Hsub.
    { apply Forall_forall. intros x Hx w0 Hw0.
      apply (IH m); [by eapply (proj1 (Forall_forall _ _) Hf)| |done].
      intros v w1 Hv. apply Hg. apply list_elem_of_In, in_concat.
      exists (leaves_of (length ds') x). split.
      - apply in_map. by apply list_elem_of_In.
      - by apply list_elem_of_In. }
    rewrite (bind_ok _ _ _ _ _ (mapM_after _ _ _ h xs Hsub w Hw)).
    unfold ret. do 2 f_equal.
    clear. induction xs as [|x xs IHx]; simpl; [done|].
    by rewrite map_app, IHx.
Qed.

(** C2. For a pending-work tree of the Cartesian-product shape [dims] and
    the depth argument [length dims], with a getter that on each leaf of
    the tree returns [g leaf] and leaves one event: [nested_get] returns a
    tree of the same shape whose leaf at every index is the getter's value
    on the leaf there; the invocations are the leaves in nested traversal
    order, each once, and their number is the product of the sequence
    lengths. *)
Theorem nested_get_same_shape_each_leaf_once
    (getter : value -> M value) (g : value -> value) (obs : value -> event)
    (dims : list nat) (t : value) (w : world) :
  dims <> [] ->
  has_shape dims t = true ->
  (forall leaves v w0,
     flatten t (Z.of_nat (length dims)) = Ok leaves -> v ∈ leaves ->
     heap w0 = heap w ->
     getter v w0 = (Ok (g v), after w0 [obs v])) ->
  exists r leaves,
    nested_get getter t (Z.of_nat (length dims)) w
      = (Ok r, after w (map obs leaves)) /\
    flatten t (Z.of_nat (length dims)) = Ok leaves /\
    list_shape dims r = true /\ has_shape dims r = true /\
    (forall path, length path = length dims ->
       index r path = g <$> index t path) /\
    prod (map Z.of_nat dims) = Ok (Z.of_nat (length leaves)).
Proof.
  intros Hne Hs Hg. destruct dims as [|n ds]; [done|].
  assert (flatten t (Z.of_nat (length (n :: ds)))
          = Ok (leaves_of (length ds) t)) as Hfl.
  { unfold flatten.
    replace (Z.to_nat (Z.of_nat (length (n :: ds)) - 1)) with (length ds)
      by (simpl length; lia).
    by eapply flatten_levels_shape. }
  exists (tmap g (length ds) t), (leaves_of (length ds) t).
  split.
  { apply (nested_get_after _ _ _ (heap w) n); [done| |done].
    intros v w0 Hv Hw0. by eapply Hg. }
  split; [done|].
  split; [by apply tmap_list_shape|].
  split; [by apply list_shape_has_shape, tmap_list_shape|].
  split; [intros path Hp; by apply (tmap_index g n)|].
  rewrite (leaves_of_length n) by done. apply prod_dims.
Qed.

(** ** From one mode to another *)

Lemma mapM_ok_inv {A B} (f : A -> M B) xs :
  forall w ys w', mapM f xs w = (Ok ys, w') ->
    Forall2 (fun x y => exists w1 w2, f x w1 = (Ok y, w2)) xs ys.
Proof.
  induction xs as [|x xs IH]; intros w ys w'; simpl.
  - unfold ret. intros [= <- <-]. constructor.
  - unfold bind at 1. destruct (f x w) as [[y|e] w1] eqn:Hf; [|done].
    unfold bind at 1. destruct (mapM f xs w1) as [[ys'|e] w2] eqn:Hm; [|done].
    unfold ret. intros [= <- <-]. constructor; [by eauto|]. by eapply IH.
Qed.

(** In direct mode every leaf of a returned tree is the value of the call
    of its place. *)
Lemma nested_submit_direct_sound fn f submitter combos :
  forall kwds w t w',
    nested_submit fn f combos kwds false None submitter w = (Ok t, w') ->
    cartesian (fun v kw => remote fn f kw = Ok v) combos kwds t.
Proof.
  induction combos as [|[arg inputs] rest IH]; intros kwds w t w'; [done|].
  destruct rest as [|c rest'].
  - rewrite nested_submit_innermost. unfold bind at 1.
    destruct (mapM _ inputs w) as [[ys|e] w1] eqn:Hm; [|done].
    unfold ret. intros [= <- <-]. exists ys. split; [done|].
    eapply Forall2_impl; [by eapply mapM_ok_inv|].
    intros x y (w2 & w3 & Hf). simpl in Hf.
    unfold bind, lift, merge_kwargs in Hf.
    destruct (kwds !! arg); [done|]. split; [done|].
    destruct (call_spec fn f (<[arg := x]> kwds) w2) as (w4 & Hc & _).
    unfold leaf_op in Hf. rewrite Hc in Hf. by injection Hf as -> _.
  - change (nested_submit fn f ((arg, inputs) :: c :: rest') kwds false None
              submitter)
      with (xs <- mapM (fun x => nested_submit fn f (c :: rest')
                                   (<[arg := x]> kwds) false None submitter)
                    inputs ;; ret (VList xs)).
    unfold bind at 1.
    destruct (mapM _ inputs w) as [[ys|e] w1] eqn:Hm; [|done].
    unfold ret. intros [= <- <-]. exists ys. split; [done|].
    eapply Forall2_impl; [by eapply mapM_ok_inv|].
    intros x y (w2 & w3 & Hf). by eapply IH.
Qed.

(** A key that is neither a constant nor an argument name is a key of no
    call. *)
Lemma cartesian_key_free (L : value -> kwargs -> Prop) k combos :
  forall kwds t,
    cartesian L combos kwds t ->
    kwds !! k = None -> k ∉ map fst combos ->
    cartesian (fun v kw => L v kw /\ kw !! k = None) combos kwds t.
Proof.
  induction combos as [|[arg inputs] rest IH]; simpl; [tauto|].
  intros kwds t (xs & -> & H) Hk Hnin. exists xs. split; [done|].
  apply not_elem_of_cons in Hnin as [Hne Hnin].
  eapply Forall2_impl; [exact H|]. intros x sub Hx. simpl in Hx.
  assert (<[arg := x]> kwds !! k = None) by by rewrite lookup_insert_ne.
  destruct rest; [|by apply IH]. destruct Hx. done.
Qed.

Lemma cartesian_and (L1 L2 : value -> kwargs -> Prop) combos :
  forall kwds t,
    cartesian L1 combos kwds t -> cartesian L2 combos kwds t ->
    cartesian (fun v kw => L1 v kw /\ L2 v kw) combos kwds t.
Proof.
  induction combos as [|[arg inputs] rest IH]; simpl; [tauto|].
  intros kwds t (xs & -> & H1) (ys & [= <-] & H2). exists xs. split; [done|].
  revert H2. induction H1 as [|x sub inputs' xs' Hx _ IHl]; intros H2;
    inversion H2 as [|? ? ? ? Hx2 Hrest]; subst; constructor; [|by apply IHl].
  destruct rest; [|by apply IH]. destruct Hx, Hx2. done.
Qed.

Lemma Forall2_exists_l {A B} (Q : A -> B -> Prop) xs ys :
  Forall2 Q xs ys -> Forall (fun x => exists y, Q x y) xs.
Proof. induction 1; constructor; eauto. Qed.

Section SubmitFrom.
Variable fn : kwargs -> res value.
Variable f : callable.
Variable delay : bool.
Variable pool : option pool_obj.
Variable submitter : pool_obj -> callable -> kwargs -> M value.
Variable R : world -> world -> Prop.
Variable L0 : value -> kwargs -> Prop.
Variable L : world -> value -> kwargs -> Prop.
Hypothesis R_refl : forall w, R w w.
Hypothesis R_trans : forall w1 w2 w3, R w1 w2 -> R w2 w3 -> R w1 w3.
Hypothesis L_stable : forall w w' v kw, L w v kw -> R w w' -> L w' v kw.
Hypothesis leaf_ok :
  forall v0 kw, L0 v0 kw -> forall w, exists v w',
    leaf_op fn f delay pool submitter kw w = (Ok v, w') /\
    R w w' /\ L w' v kw.

(** Where one run has produced a tree, a run whose leaf operations
    succeed at the same places produces one too. *)
Lemma nested_submit_from combos :
  forall kwds t0,
    cartesian L0 combos kwds t0 ->
    forall w, exists t w',
      nested_submit fn f combos kwds delay pool submitter w = (Ok t, w') /\
      R w w' /\ cartesian (L w') combos kwds t.
Proof.
  induction combos as [|[arg inputs] rest IH]; intros kwds t0 H0 w; [done|].
  destruct H0 as (xs0 & -> & H0).
  destruct rest as [|c rest'].
  - rewrite nested_submit_innermost.
    destruct (mapM_inv
                (fun x => kw <- lift (merge_kwargs kwds arg x) ;;
                          leaf_op fn f delay pool submitter kw)
                (fun _ => True) R
                (fun w x y => kwds !! arg = None /\
                              L w y (<[arg := x]> kwds))
                R_refl R_trans) with (xs := inputs) (w := w)
      as (ys & w' & Hm & _ & HR & HF);
      [intros ? ? ? ? [? ?] ?; eauto| |done|].
    + eapply Forall_impl; [by eapply Forall2_exists_l|].
      intros x (sub & Harg & Hsub) w1 _.
      destruct (leaf_ok _ _ Hsub w1) as (v & w2 & Hop & HR & HL).
      exists v, w2. split; [|done].
      unfold bind, lift, merge_kwargs. by rewrite Harg.
    + exists (VList ys), w'. rewrite (bind_ok _ _ _ _ _ Hm).
      split; [done|]. split; [done|]. simpl. by exists ys.
  - change (nested_submit fn f ((arg, inputs) :: c :: rest') kwds delay pool
              submitter)
      with (xs <- mapM (fun x => nested_submit fn f (c :: rest')
                                   (<[arg := x]> kwds) delay pool submitter)
                    inputs ;; ret (VList xs)).
    destruct (mapM_inv
                (fun x => nested_submit fn f (c :: rest')
                            (<[arg := x]> kwds) delay pool submitter)
                (fun _ => True) R
                (fun w x y => cartesian (L w) (c :: rest')
                                (<[arg := x]> kwds) y)
                R_refl R_trans) with (xs := inputs) (w := w)
      as (ys & w' & Hm & _ & HR & HF); [| |done|].
    + intros w1 w2 x y Hc HR. eapply cartesian_mono; [|exact Hc].
      intros v kw HL. by eapply L_stable.
    + eapply Forall_impl; [by eapply Forall2_exists_l|].
      intros x (sub & Hsub) w1 _.
      destruct (IH _ _ Hsub w1) as (t & w2 & Hs & HR & Hc).
      by exists t, w2.
    + exists (VList ys), w'. rewrite (bind_ok _ _ _ _ _ Hm).
      split; [done|]. split; [done|]. by exists ys.
Qed.
End SubmitFrom.

Section GetCartesian.
Variable getter : value -> M value.
Variable I : world -> Prop.
Variable L L' : value -> kwargs -> Prop.
Hypothesis getter_ok :
  forall leaf kw, L leaf kw -> forall w, I w ->
    exists v w', getter leaf w = (Ok v, w') /\ I w' /\ L' v kw.

Lemma mapM_Forall2 {A B C} (f : B -> M C) (P : A -> C -> Prop) xs ys :
  Forall2 (fun a x => forall w, I w ->
             exists y w', f x w = (Ok y, w') /\ I w' /\ P a y) xs ys ->
  forall w, I w ->
    exists zs w', mapM f ys w = (Ok zs, w') /\ I w' /\ Forall2 P xs zs.
Proof.
  induction 1 as [|a x xs ys Hx _ IH]; intros w Hw.
  - exists [], w. by repeat split.
  - destruct (Hx w Hw) as (y & w1 & Hf & Hw1 & HP).
    destruct (IH w1 Hw1) as (zs & w2 & Hm & Hw2 & HF).
    exists (y :: zs), w2. simpl.
    rewrite (bind_ok _ _ _ _ _ Hf), (bind_ok _ _ _ _ _ Hm).
    split; [done|]. split; [done|]. by constructor.
Qed.

(** Collection keeps the Cartesian correspondence: each leaf is replaced
    by what the getter returns for it. *)
Lemma nested_get_cartesian combos :
  forall kwds t,
    cartesian L combos kwds t ->
    forall w, I w -> exists r w',
      nested_get getter t (Z.of_nat (length combos)) w = (Ok r, w') /\
      I w' /\ cartesian L' combos kwds r.
Proof.
  induction combos as [|[arg inputs] rest IH]; intros kwds t Hc w Hw;
    [done|].
  destruct Hc as (xs & -> & H).
  rewrite (nested_get_unfold getter (VList xs) _ xs (eq_refl _)).
  destruct rest as [|c rest'].
  - change (Z.of_nat (length [(arg, inputs)]) =? 1) with true. cbv iota.
    destruct (mapM_Forall2 getter
                (fun x y => kwds !! arg = None /\ L' y (<[arg := x]> kwds))
                inputs xs) with (w := w) as (zs & w' & Hm & Hw' & HF);
      [|done|].
    + eapply Forall2_impl; [exact H|]. intros x sub [Harg Hsub] w1 Hw1.
      destruct (getter_ok _ _ Hsub w1 Hw1) as (v & w2 & Hg & Hw2 & HL).
      by exists v, w2.
    + exists (VList zs), w'. rewrite (bind_ok _ _ _ _ _ Hm).
      split; [done|]. split; [done|]. by exists zs.
  - assert ((Z.of_nat (length ((arg, inputs) :: c :: rest')) =? 1) = false)
      as -> by (apply Z.eqb_neq; simpl length; lia).
    assert (Z.of_nat (length ((arg, inputs) :: c :: rest')) - 1
            = Z.of_nat (length (c :: rest'))) as ->
      by (simpl length; lia).
    destruct (mapM_Forall2
                (fun fut => nested_get getter fut
                              (Z.of_nat (length (c :: rest'))))
                (fun x y => cartesian L' (c :: rest') (<[arg := x]> kwds) y)
                inputs xs) with (w := w) as (zs & w' & Hm & Hw' & HF);
      [|done|].
    + eapply Forall2_impl; [exact H|]. intros x sub Hsub w1 Hw1.
      by apply IH.
    + exists (VList zs), w'. rewrite (bind_ok _ _ _ _ _ Hm).
      split; [done|]. split; [done|]. by exists zs.
Qed.
End GetCartesian.

Lemma dims_of_cons arg inputs rest :
  dims_of ((arg, inputs) :: rest) = length inputs :: dims_of rest.
Proof. reflexivity. Qed.

Lemma length_dims_of combos : length (dims_of combos) = length combos.
Proof. apply length_map. Qed.

(** The leaves [flatten] yields are leaves of the correspondence. *)
Lemma cartesian_leaves (L : value -> kwargs -> Prop) combos :
  forall kwds t,
    cartesian L combos kwds t ->
    Forall (fun leaf => exists kw, L leaf kw)
           (leaves_of (length combos - 1) t).
Proof.
  induction combos as [|[arg inputs] rest IH]; intros kwds t Hc; [done|].
  destruct Hc as (xs & -> & H). destruct rest as [|c rest'].
  - simpl. apply Forall_forall. intros leaf Hin.
    destruct (proj1 (list_elem_of_lookup _ _) Hin) as [i Hi].
    destruct (Forall2_lookup_r _ _ _ _ _ H Hi) as (x & _ & _ & HL).
    by eexists.
  - replace (length ((arg, inputs) :: c :: rest') - 1)%nat
      with (S (length (c :: rest') - 1)) by (simpl; lia).
    simpl leaves_of. apply Forall_concat, Forall_map.
    apply Forall_forall. intros sub Hin.
    destruct (proj1 (list_elem_of_lookup _ _) Hin) as [i Hi].
    destruct (Forall2_lookup_r _ _ _ _ _ H Hi) as (x & _ & Hx).
    by eapply IH.
Qed.

Lemma cartesian_flatten (L : value -> kwargs -> Prop) combos kwds t :
  cartesian L combos kwds t ->
  flatten t (Z.of_nat (length combos)) = Ok (leaves_of (length combos - 1) t).
Proof.
  intros Hc. pose proof (cartesian_shape _ _ _ _ Hc) as Hs.
  destruct combos as [|[arg inputs] rest]; [done|].
  rewrite dims_of_cons in Hs. unfold flatten.
  replace (Z.to_nat (Z.of_nat (length ((arg, inputs) :: rest)) - 1))
    with (length (dims_of rest)) by (rewrite length_dims_of; simpl; lia).
  replace (length ((arg, inputs) :: rest) - 1)%nat
    with (length (dims_of rest)) by (rewrite length_dims_of; simpl; lia).
  by eapply flatten_levels_shape.
Qed.

(** Graph evaluation keeps the correspondence. *)
Lemma dask_eval_cartesian fn h (L L' : value -> kwargs -> Prop) combos :
  (forall leaf kw, L leaf kw ->
     exists v, dask_eval fn h leaf = Ok v /\ L' v kw) ->
  forall kwds t,
    cartesian L combos kwds t ->
    exists r, dask_eval fn h t = Ok r /\ cartesian L' combos kwds r.
Proof.
  intros Hleaf. induction combos as [|[arg inputs] rest IH];
    intros kwds t Hc; [done|].
  destruct Hc as (xs & -> & H).
  assert (exists ys, mapR (dask_eval fn h) xs = Ok ys /\
            Forall2 (fun x sub =>
                       match rest with
                       | [] => kwds !! arg = None /\ L' sub (<[arg := x]> kwds)
                       | _ :: _ => cartesian L' rest (<[arg := x]> kwds) sub
                       end) inputs ys) as (ys & Hm & HF).
  { induction H as [|x sub inputs' xs' Hx _ IHl].
    - exists []. split; [done|]. constructor.
    - destruct IHl as (ys & Hm & HF).
      assert (exists y, dask_eval fn h sub = Ok y /\
                match rest with
                | [] => kwds !! arg = None /\ L' y (<[arg := x]> kwds)
                | _ :: _ => cartesian L' rest (<[arg := x]> kwds) y
                end) as (y & Hy & HP).
      { destruct rest as [|c rest'].
        - destruct Hx as [Harg Hsub].
          destruct (Hleaf _ _ Hsub) as (v & Hv & HL). by exists v.
        - by apply IH. }
      exists (y :: ys). split; [|by constructor].
      simpl. by rewrite Hy, Hm. }
  exists (VList ys). split; [|by exists ys].
  simpl. unfold res_map. by rewrite Hm.
Qed.

Lemma unzip_iter t t' z :
  iter t = iter t' ->
  res_bind (unzip t z) iter = res_bind (unzip t' z) iter.
Proof.
  intros H. unfold unzip. destruct (z =? 0); [done|].
  destruct (Z.to_nat (z - 1)) as [|n]; simpl.
  - unfold zip_values. by rewrite H.
  - by rewrite H.
Qed.

(** ** The backends *)

Lemma value_leaf_functional fn v v' kw :
  value_leaf fn v kw -> value_leaf fn v' kw -> v = v'.
Proof. unfold value_leaf. congruence. Qed.

Lemma cached_ok_refl fn h : cached_ok fn h h.
Proof. intros id kw hr hg H. exists None. by split. Qed.

Section Getters.
Variable fn : kwargs -> res value.

Lemma default_getter_handle pbar id f kw hr hg st v w :
  heap w !! id = Some (Handle f kw hr hg st) ->
  hr || hg = true ->
  remote fn f kw = Ok v ->
  default_getter fn pbar (VRef id) w
  = (Ok v, if pbar then after w [Update] else w).
Proof.
  intros Hh Hacc Hv.
  assert (try_except_AttributeError (py_result fn (VRef id))
            (py_get fn (VRef id)) w = (Ok v, w)) as Htry.
  { unfold try_except_AttributeError, py_result, py_get. rewrite Hh.
    destruct hr; [by rewrite Hv|]. rewrite Hh.
    simpl in Hacc. subst hg. by rewrite Hv. }
  unfold default_getter. destruct pbar.
  - rewrite (bind_ok _ _ _ _ _ Htry). reflexivity.
  - by rewrite (bind_ok _ _ _ _ _ Htry).
Qed.

Lemma try_stored_then_result_cached h1 p v kw w :
  handle_leaf fn p (World h1 []) v kw ->
  gives_result p = true ->
  cached_ok fn h1 (heap w) ->
  exists r, try_stored_then_result fn v w = (Ok r, w) /\ fn kw = Ok r.
Proof.
  intros (id & v0 & -> & Hh & Hv) Hr Hc. simpl in Hh.
  destruct (Hc _ _ _ _ Hh) as (st & Hw & Hst).
  unfold try_stored_then_result. rewrite Hw.
  destruct st as [r|].
  - exists r. split; [done|]. by apply Hst.
  - exists v0. split; [|done]. unfold py_result. rewrite Hw, Hr.
    simpl. by rewrite Hv.
Qed.

(** One round of the distributed loop: the result is fetched, cached on
    the future, and the bar is updated. *)
Lemma store_round h1 p v kw w :
  handle_leaf fn p (World h1 []) v kw ->
  gives_result p = true ->
  cached_ok fn h1 (heap w) ->
  exists w',
    (r <- py_result fn v ;; set_stored_result v r ;;; pbar_update) w
    = (Ok tt, w') /\
    cached_ok fn h1 (heap w').
Proof.
  intros (id & v0 & -> & Hh & Hv) Hr Hc. simpl in Hh.
  destruct (Hc _ _ _ _ Hh) as (st & Hw & Hst).
  assert (py_result fn (VRef id) w = (Ok v0, w)) as Hres.
  { unfold py_result. rewrite Hw, Hr. simpl. by rewrite Hv. }
  rewrite (bind_ok _ _ _ _ _ Hres).
  assert (set_stored_result (VRef id) v0 w
          = (Ok tt,
             World (<[id := Handle Fn kw (gives_result p) (gives_get p)
                              (Some v0)]> (heap w)) (trace w))) as Hset.
  { unfold set_stored_result. by rewrite Hw. }
  rewrite (bind_ok _ _ _ _ _ Hset).
  eexists. split; [reflexivity|]. simpl.
  intros id' kw' hr' hg' H1.
  destruct (decide (id' = id)) as [->|Hne].
  - rewrite Hh in H1. injection H1 as <- <- <-.
    exists (Some v0). split.
    + apply list_lookup_insert_eq. by eapply lookup_lt_Some.
    + by intros r [= <-].
  - destruct (Hc _ _ _ _ H1) as (st' & Hw' & Hst').
    exists st'. split; [|done]. by rewrite list_lookup_insert_ne.
Qed.

Lemma pbar_rounds {A} (l : list A) w :
  exists us w', mapM (fun _ => pbar_update) l w = (Ok us, w') /\
                heap w' = heap w.
Proof.
  revert w. induction l as [|x l IH]; intros w.
  - by exists [], w.
  - destruct (IH (after w [Update])) as (us & w' & Hm & Hh).
    exists (tt :: us), w'. simpl.
    assert (pbar_update w = (Ok tt, after w [Update])) as Hu by done.
    rewrite (bind_ok _ _ _ _ _ Hu), (bind_ok _ _ _ _ _ Hm).
    by split.
Qed.
End Getters.

Section Backends.
Variable fn : kwargs -> res value.
Variable as_completed : list value -> list value.
Variable known_scheduler : string -> option strategy.
Hypothesis as_completed_perm : forall l, as_completed l ≡ₚ l.

Lemma handle_leaf_heap p w w' v kw :
  heap w = heap w' -> handle_leaf fn p w v kw -> handle_leaf fn p w' v kw.
Proof. intros Hh (id & v0 & ? & ? & ?). exists id, v0. by rewrite <- Hh. Qed.

Lemma names_free_leaves combos constants rs :
  cartesian (value_leaf fn) combos constants rs ->
  submit_names_free combos constants ->
  cartesian (fun v kw => value_leaf fn v kw /\
                         kw !! "pool" = None /\ kw !! "fn" = None)
            combos constants rs.
Proof.
  intros Hc (H1 & H2 & H3 & H4).
  pose proof (cartesian_key_free _ "pool" _ _ _ Hc H1 H3) as Hp.
  pose proof (cartesian_key_free _ "fn" _ _ _ Hc H2 H4) as Hf.
  eapply cartesian_mono; [|exact (cartesian_and _ _ _ _ _ Hp Hf)].
  simpl. tauto.
Qed.

(** Pooled submission succeeds wherever the direct run did. *)
Lemma pooled_submit p combos constants rs w :
  cartesian (value_leaf fn) combos constants rs ->
  submit_names_free combos constants ->
  has_submit p || has_apply_async p = true ->
  exists tf w1,
    nested_submit fn Fn combos constants false (Some p) default_submitter w
      = (Ok tf, w1) /\
    grows is_fresh_handle (fun _ => False) w w1 /\
    cartesian (handle_leaf fn p w1) combos constants tf.
Proof.
  intros Hc Hfree Hp.
  eapply (nested_submit_from fn Fn false (Some p) default_submitter
            (grows is_fresh_handle (fun _ => False))
            (fun v kw => value_leaf fn v kw /\
                         kw !! "pool" = None /\ kw !! "fn" = None)
            (handle_leaf fn p)
            (grows_refl _ _) (grows_trans _ _)).
  - intros w1 w2 v kw (id & v0 & -> & Hh & Hv) G. exists id, v0.
    split; [done|]. split; [by eapply grows_lookup|done].
  - intros v0 kw (Hv & Hk1 & Hk2) w1. unfold leaf_op.
    rewrite default_submitter_spec by done.
    eexists _, _. split; [reflexivity|]. split.
    + split; [eexists; split; [reflexivity|]; by repeat constructor|].
      exists []. simpl. by rewrite app_nil_r.
    + exists (length (heap w1)), v0. split; [done|].
      split; [apply lookup_snoc|done].
  - by apply names_free_leaves.
Qed.

(** Collection through the uniform accessor gives the direct tree. *)
Lemma pooled_collect pbar p combos constants tf w1 w :
  cartesian (handle_leaf fn p w1) combos constants tf ->
  gives_result p || gives_get p = true ->
  heap w = heap w1 ->
  exists r w',
    nested_get (default_getter fn pbar) tf (Z.of_nat (length combos)) w
      = (Ok r, w') /\
    cartesian (value_leaf fn) combos constants r.
Proof.
  intros Hc Hacc Hh.
  destruct (nested_get_cartesian (default_getter fn pbar)
              (fun w => heap w = heap w1)
              (handle_leaf fn p w1) (value_leaf fn))
    with (combos := combos) (kwds := constants) (t := tf) (w := w)
    as (r & w' & Hg & _ & Hr); [|done|done|by exists r, w'].
  intros leaf kw (id & v0 & -> & Hl & Hv) w2 Hw2.
  rewrite <- Hw2 in Hl.
  rewrite (default_getter_handle fn pbar _ _ _ _ _ _ v0 _ Hl Hacc Hv).
  eexists _, _. split; [reflexivity|]. split; [|done].
  by destruct pbar.
Qed.

(** Submission, then collection: the generic pool and the MPI pool. *)
Lemma pool_path pbar p combos constants rs w :
  cartesian (value_leaf fn) combos constants rs ->
  submit_names_free combos constants ->
  has_submit p || has_apply_async p = true ->
  gives_result p || gives_get p = true ->
  exists w',
    (futures <- nested_submit fn Fn combos constants false (Some p)
                  default_submitter ;;
     nested_get (default_getter fn pbar) futures
       (Z.of_nat (length combos))) w = (Ok rs, w').
Proof.
  intros Hc Hfree Hp Hacc.
  destruct (pooled_submit p _ _ _ w Hc Hfree Hp) as (tf & w1 & Hs & _ & Hf).
  destruct (pooled_collect pbar p _ _ _ w1 w1 Hf Hacc eq_refl)
    as (r & w' & Hg & Hr).
  exists w'. rewrite (bind_ok _ _ _ _ _ Hs), Hg. do 2 f_equal.
  eapply cartesian_functional; [apply value_leaf_functional|done..].
Qed.

(** The process pool: completions are drained for the bar, in any order,
    then the futures are collected in nested order. *)
Lemma process_pool_path p combos constants rs w :
  cartesian (value_leaf fn) combos constants rs ->
  submit_names_free combos constants ->
  has_submit p || has_apply_async p = true ->
  gives_result p || gives_get p = true ->
  exists w',
    (futures <- nested_submit fn Fn combos constants false (Some p)
                  default_submitter ;;
     fs <- lift (flatten futures (Z.of_nat (length combos))) ;;
     mapM (fun f => pbar_update) (as_completed fs) ;;;
     nested_get (default_getter fn false) futures
       (Z.of_nat (length combos))) w = (Ok rs, w').
Proof.
  intros Hc Hfree Hp Hacc.
  destruct (pooled_submit p _ _ _ w Hc Hfree Hp) as (tf & w1 & Hs & _ & Hf).
  rewrite (bind_ok _ _ _ _ _ Hs).
  assert (lift (flatten tf (Z.of_nat (length combos))) w1
          = (Ok (leaves_of (length combos - 1) tf), w1)) as Hfl.
  { unfold lift. by rewrite (cartesian_flatten _ _ _ _ Hf). }
  rewrite (bind_ok _ _ _ _ _ Hfl).
  destruct (pbar_rounds (as_completed (leaves_of (length combos - 1) tf)) w1)
    as (us & w2 & Hm & Hh).
  rewrite (bind_ok _ _ _ _ _ Hm).
  destruct (pooled_collect false p _ _ _ w1 w2 Hf Hacc Hh)
    as (r & w' & Hg & Hr).
  exists w'. rewrite Hg. do 2 f_equal.
  eapply cartesian_functional; [apply value_leaf_functional|done..].
Qed.

(** The distributed pool: results are cached as the futures complete, in
    any order, then collected from the cache in nested order. *)
Lemma distributed_path p combos constants rs w :
  cartesian (value_leaf fn) combos constants rs ->
  submit_names_free combos constants ->
  has_submit p || has_apply_async p = true ->
  gives_result p = true ->
  exists w',
    (futures <- nested_submit fn Fn combos constants false (Some p)
                  default_submitter ;;
     fs <- lift (flatten futures (Z.of_nat (length combos))) ;;
     mapM (fun f => r <- py_result fn f ;;
                    set_stored_result f r ;;;
                    pbar_update) (as_completed fs) ;;;
     nested_get (try_stored_then_result fn) futures
       (Z.of_nat (length combos))) w = (Ok rs, w').
Proof.
  intros Hc Hfree Hp Hres.
  destruct (pooled_submit p _ _ _ w Hc Hfree Hp) as (tf & w1 & Hs & _ & Hf).
  rewrite (bind_ok _ _ _ _ _ Hs).
  assert (lift (flatten tf (Z.of_nat (length combos))) w1
          = (Ok (leaves_of (length combos - 1) tf), w1)) as Hfl.
  { unfold lift. by rewrite (cartesian_flatten _ _ _ _ Hf). }
  rewrite (bind_ok _ _ _ _ _ Hfl).
  assert (cartesian (handle_leaf fn p (World (heap w1) [])) combos
            constants tf) as Hf'.
  { eapply cartesian_mono; [|exact Hf]. intros v kw.
    by apply handle_leaf_heap. }
  destruct (mapM_inv
              (fun f => r <- py_result fn f ;;
                        set_stored_result f r ;;; pbar_update)
              (fun w => cached_ok fn (heap w1) (heap w))
              (fun _ _ => True) (fun _ _ _ => True))
    with (xs := as_completed (leaves_of (length combos - 1) tf)) (w := w1)
    as (us & w2 & Hm & Hok & _); [done..| | |].
  { apply Forall_forall. intros f Hin. rewrite as_completed_perm in Hin.
    pose proof (cartesian_leaves _ _ _ _ Hf') as Hl.
    rewrite Forall_forall in Hl. destruct (Hl f Hin) as (kw & Hleaf).
    intros w0 Hw0.
    destruct (store_round fn _ _ _ _ _ Hleaf Hres Hw0) as (w0' & Hr & Hw0').
    by exists tt, w0'. }
  { apply cached_ok_refl. }
  rewrite (bind_ok _ _ _ _ _ Hm).
  destruct (nested_get_cartesian (try_stored_then_result fn)
              (fun w => cached_ok fn (heap w1) (heap w))
              (handle_leaf fn p (World (heap w1) [])) (value_leaf fn))
    with (combos := combos) (kwds := constants) (t := tf) (w := w2)
    as (r & w' & Hg & _ & Hr); [|done|done|].
  { intros leaf kw Hleaf w0 Hw0.
    destruct (try_stored_then_result_cached fn _ _ _ _ _ Hleaf Hres Hw0)
      as (r & Ht & Hv).
    by exists r, w0. }
  exists w'. rewrite Hg. do 2 f_equal.
  eapply cartesian_functional; [apply value_leaf_functional|done..].
Qed.

(** Deferred submission succeeds wherever the direct run did, and runs
    nothing. *)
Lemma deferred_submit combos constants rs w :
  cartesian (value_leaf fn) combos constants rs ->
  exists tj w1,
    nested_submit fn Fn combos constants true None default_submitter w
      = (Ok tj, w1) /\
    grows is_delayed (fun _ => False) w w1 /\
    cartesian (delayed_leaf fn w1) combos constants tj.
Proof.
  intros Hc.
  eapply (nested_submit_from fn Fn true None default_submitter
            (grows is_delayed (fun _ => False))
            (value_leaf fn) (delayed_leaf fn)
            (grows_refl _ _) (grows_trans _ _)); [| |exact Hc].
  - intros w1 w2 v kw (id & v0 & -> & Hh & Hv) G. exists id, v0.
    split; [done|]. split; [by eapply grows_lookup|done].
  - intros v0 kw Hv w1. unfold leaf_op. rewrite delayed_spec.
    eexists _, _. split; [reflexivity|]. split.
    + split; [eexists; split; [reflexivity|]; by repeat constructor|].
      exists []. simpl. by rewrite app_nil_r.
    + exists (length (heap w1)), v0. split; [done|].
      split; [apply lookup_snoc|done].
Qed.

(** The deferred graph: one batch, a tuple of the sub-trees of the
    direct tree. *)
Lemma dask_path combos constants rs get num_workers tj w1 :
  cartesian (value_leaf fn) combos constants rs ->
  cartesian (delayed_leaf fn w1) combos constants tj ->
  exists xs, rs = VList xs /\
    compute fn tj get num_workers w1 = (Ok (VTuple xs), w1).
Proof.
  intros Hc Hj.
  destruct (dask_eval_cartesian fn (heap w1) (delayed_leaf fn w1)
              (value_leaf fn) combos) with (kwds := constants) (t := tj)
    as (r & He & Hr); [|done|].
  { intros leaf kw (id & v0 & -> & Hh & Hv). exists v0. simpl.
    rewrite Hh. simpl. by split. }
  assert (r = rs) as ->
    by (eapply cartesian_functional; [apply value_leaf_functional|done..]).
  destruct combos as [|[arg inputs] rest]; [done|].
  destruct Hj as (js & -> & _). destruct Hc as (xs & -> & _).
  exists xs. split; [done|].
  simpl in He. unfold res_map, res_bind in He.
  destruct (mapR (dask_eval fn (heap w1)) js) as [ys|] eqn:Hm; [|done].
  injection He as ->.
  unfold compute, bind, lift. simpl. by rewrite Hm.
Qed.

(** The direct run gives the same tree from any world. *)
Lemma direct_path f combos constants rs w :
  cartesian (value_leaf fn) combos constants rs ->
  (forall kw, remote fn f kw = fn kw) ->
  exists w',
    nested_submit fn f combos constants false None default_submitter w
      = (Ok rs, w').
Proof.
  intros Hc Hf.
  destruct (nested_submit_from fn f false None default_submitter
              (fun _ _ => True) (value_leaf fn)
              (fun _ => value_leaf fn))
    with (combos := combos) (kwds := constants) (t0 := rs) (w := w)
    as (t & w' & Hs & _ & Ht); [done..| |done|].
  { intros v0 kw Hv w1. unfold leaf_op.
    destruct (call_spec fn f kw w1) as (w2 & Hcall & _).
    exists v0, w2. rewrite Hcall, Hf. by rewrite Hv. }
  exists w'. rewrite Hs. do 2 f_equal.
  eapply cartesian_functional; [apply value_leaf_functional|done..].
Qed.
End Backends.

Lemma _combo_runner_eq fn as_completed known combos constants split parallel
    num_workers scheduler pool hide :
  _combo_runner fn as_completed known combos constants split parallel
    num_workers scheduler pool hide
  = (n <- lift (prod (map (fun c => Z.of_nat (length (snd c))) combos)) ;;
     results <- dispatch fn as_completed known combos constants parallel
                  num_workers scheduler pool hide n ;;
     finish split results (Z.of_nat (length combos))).
Proof. reflexivity. Qed.

(** The results of the sequential run, seen through its last line. *)
Lemma sequential_inv fn as_completed known combos constants split hide w0 ts
    w0' :
  _combo_runner fn as_completed known combos constants split (PBool false)
    None SNone None hide w0 = (Ok ts, w0') ->
  exists n rs w1,
    prod (map (fun c => Z.of_nat (length (snd c))) combos) = Ok n /\
    cartesian (value_leaf fn) combos constants rs /\
    finish split rs (Z.of_nat (length combos)) w1 = (Ok ts, w0').
Proof.
  rewrite _combo_runner_eq. unfold bind at 1. unfold lift at 1.
  destruct (prod _) as [n|e]; [|done].
  unfold bind at 1. unfold dispatch. simpl.
  destruct (nested_submit _ _ _ _ _ _ _ w0) as [[rs|e] w1] eqn:Hs; [|done].
  intros Hfin. exists n, rs, w1. split; [done|]. split; [|done].
  apply nested_submit_direct_sound in Hs. done.
Qed.

Lemma finish_same split rs r ndim w1 ts w1' w2 xs :
  finish split rs ndim w1 = (Ok ts, w1') ->
  rs = VList xs -> r = VList xs \/ r = VTuple xs ->
  exists t, finish split r ndim w2 = (Ok t, w2) /\
    exists ys, ts = VList ys /\ (t = VList ys \/ t = VTuple ys).
Proof.
  intros Hfin -> Hr. unfold finish in *. destruct split.
  - assert (iter r = iter (VList xs)) as Hi by (by destruct Hr as [-> | ->]).
    rewrite (unzip_iter _ _ ndim Hi).
    unfold bind, lift, ret in *.
    destruct (res_bind (unzip (VList xs) ndim) iter) as [zs|e]; [|done].
    injection Hfin as <- _. exists (VList zs). split; [done|].
    exists zs. by split; [|left].
  - unfold ret in *. injection Hfin as <- _. exists r. split; [done|].
    by exists xs.
Qed.

Section RunnerBackends.
Variable fn : kwargs -> res value.
Variable as_completed : list value -> list value.
Variable known_scheduler : string -> option strategy.
Hypothesis as_completed_perm : forall l, as_completed l ≡ₚ l.

(** Every backend that can run the calls returns what the sequential
    run returns, up to the outermost container of the deferred graph
    (a tuple). *)
Lemma dispatch_backends combos constants parallel num_workers scheduler
    pool hide n rs w :
  cartesian (value_leaf fn) combos constants rs ->
  supported known_scheduler combos constants parallel num_workers
    scheduler pool ->
  exists r w' xs,
    dispatch fn as_completed known_scheduler combos constants parallel
      num_workers scheduler pool hide n w = (Ok r, w') /\
    rs = VList xs /\ (r = VList xs \/ r = VTuple xs).
Proof.
  intros Hc Hsup.
  assert (exists xs, rs = VList xs) as (xs & Hxs).
  { destruct combos as [|[arg inputs] rest]; [done|].
    destruct Hc as (xs & -> & _). by exists xs. }
  unfold dispatch, supported in *. destruct pool as [p|].
  - destruct Hsup as [[Hp Hacc]%andb_true_iff Hfree].
    destruct (has_scheduler p).
    + destruct (distributed_path fn as_completed as_completed_perm p
                  _ _ _ w Hc Hfree Hp Hacc) as (w' & Hd).
      exists rs, w', xs. rewrite Hd. by split; [|split; [|left]].
    + destruct (pool_path fn true p _ _ _ w Hc Hfree Hp Hacc)
        as (w' & Hd).
      exists rs, w', xs. rewrite Hd. by split; [|split; [|left]].
  - destruct (parallel_is parallel "mpi").
    { destruct (pool_path fn true executor _ _ _ w Hc Hsup eq_refl eq_refl)
        as (w' & Hd).
      exists rs, w', xs. split; [|by split; [|left]].
      unfold mpi_combo_runner_pool, MPIPoolExecutor.
      unfold bind at 1. unfold ret at 1. cbv beta iota.
      unfold bind at 1. unfold bind at 1 in Hd.
      destruct (nested_submit _ _ _ _ _ _ _ w) as [[tf|e] w1]; [|done].
      by rewrite (bind_ok _ _ _ _ _ Hd). }
    destruct (parallel_is parallel "dask" || scheduler_truthy scheduler).
    { destruct (deferred_submit fn _ _ _ w Hc) as (tj & w1 & Hs & _ & Hj).
      rewrite bind_get_fn_name, (bind_ok _ _ _ _ _ Hs).
      assert (exists s',
                match scheduler with
                | SName s =>
                    if scheduler_truthy scheduler
                    then dask_scheduler_get known_scheduler s num_workers
                    else ret scheduler
                | _ => ret scheduler
                end w1 = (Ok s', w1)) as (s' & Hsch).
      { destruct scheduler as [|s|g]; [by eexists| |by eexists].
        destruct (scheduler_truthy (SName s)); [|by eexists].
        destruct Hsup as [g Hg]. unfold dask_scheduler_get. rewrite Hg.
        by eexists. }
      rewrite (bind_ok _ _ _ _ _ Hsch).
      destruct (dask_path fn _ _ _ s' num_workers _ _ Hc Hj)
        as (ys & Hys & Hcomp).
      exists (VTuple ys), w1, ys. by split; [|split; [|right]]. }
    destruct (parallel_truthy parallel || num_workers_truthy num_workers).
    { destruct Hsup as [Hk Hfree].
      assert (ProcessPoolExecutor num_workers w = (Ok executor, w)) as Hpp.
      { unfold ProcessPoolExecutor. destruct num_workers as [k|]; [|done].
        destruct (Z.leb_spec k 0); [lia|done]. }
      rewrite (bind_ok _ _ _ _ _ Hpp).
      destruct (process_pool_path fn as_completed executor _ _ _ w Hc Hfree
                  eq_refl eq_refl) as (w' & Hd).
      exists rs, w', xs. rewrite Hd. by split; [|split; [|left]]. }
    destruct (direct_path fn (update_upon_eval Fn) _ _ _ w Hc) as (w' & Hd);
      [done|].
    exists rs, w', xs. rewrite Hd. by split; [|split; [|left]].
Qed.

Lemma combo_runner_backends combos constants split parallel num_workers
    scheduler pool hide hide0 w w0 ts w0' :
  _combo_runner fn as_completed known_scheduler combos constants split
    (PBool false) None SNone None hide0 w0 = (Ok ts, w0') ->
  supported known_scheduler combos constants parallel num_workers
    scheduler pool ->
  exists t w' xs,
    _combo_runner fn as_completed known_scheduler combos constants split
      parallel num_workers scheduler pool hide w = (Ok t, w') /\
    ts = VList xs /\ (t = VList xs \/ t = VTuple xs).
Proof.
  intros Hseq Hsup.
  apply sequential_inv in Hseq as (n & rs & w1 & Hn & Hc & Hfin).
  destruct (dispatch_backends _ _ _ _ _ _ hide n _ w Hc Hsup)
    as (r & w2 & xs & Hd & Hrs & Hr).
  destruct (finish_same _ _ _ _ _ _ _ w2 _ Hfin Hrs Hr)
    as (t & Hf & ys & Hts & Ht).
  exists t, w2, ys. split; [|done].
  rewrite _combo_runner_eq. unfold bind at 1. unfold lift at 1.
  rewrite Hn. by rewrite (bind_ok _ _ _ _ _ Hd).
Qed.
End RunnerBackends.

(** ** What a backend returns, whenever it returns *)

Lemma bind_ok_inv {A B} (m : M A) (k : A -> M B) w b w' :
  bind m k w = (Ok b, w') ->
  exists a w1, m w = (Ok a, w1) /\ k a w1 = (Ok b, w').
Proof.
  unfold bind. destruct (m w) as [[a|e] w1]; [|done]. by exists a, w1.
Qed.

Section MapMSound.
Context {A B : Type} (f : A -> M B).
Variable I : world -> Prop.
Variable R : world -> world -> Prop.
Variable P : world -> A -> B -> Prop.
Hypothesis R_refl : forall w, R w w.
Hypothesis R_trans : forall w1 w2 w3, R w1 w2 -> R w2 w3 -> R w1 w3.
Hypothesis P_stable : forall w w' x y, P w x y -> R w w' -> P w' x y.

Lemma mapM_sound xs :
  Forall (fun x => forall w y w', I w -> f x w = (Ok y, w') ->
            I w' /\ R w w' /\ P w' x y) xs ->
  forall w ys w', I w -> mapM f xs w = (Ok ys, w') ->
    I w' /\ R w w' /\ Forall2 (P w') xs ys.
Proof.
  induction 1 as [|x xs Hx _ IH]; intros w ys w' Hw; simpl.
  - unfold ret. intros [= <- <-]. by repeat split.
  - intros (y & w1 & Hf & H)%bind_ok_inv.
    apply bind_ok_inv in H as (ys' & w2 & Hm & H).
    unfold ret in H. injection H as <- <-.
    destruct (Hx _ _ _ Hw Hf) as (Hw1 & HR1 & HP).
    destruct (IH _ _ _ Hw1 Hm) as (Hw2 & HR2 & HF).
    split; [done|]. split; [by eapply R_trans|].
    constructor; [by eapply P_stable|done].
Qed.
End MapMSound.

Section SubmitSound.
Variable fn : kwargs -> res value.
Variable f : callable.
Variable delay : bool.
Variable pool : option pool_obj.
Variable submitter : pool_obj -> callable -> kwargs -> M value.
Variable R : world -> world -> Prop.
Variable L : world -> value -> kwargs -> Prop.
Hypothesis R_refl : forall w, R w w.
Hypothesis R_trans : forall w1 w2 w3, R w1 w2 -> R w2 w3 -> R w1 w3.
Hypothesis L_stable : forall w w' v kw, L w v kw -> R w w' -> L w' v kw.
Hypothesis leaf_sound :
  forall kw w v w',
    leaf_op fn f delay pool submitter kw w = (Ok v, w') ->
    R w w' /\ L w' v kw.

(** A returned tree is in Cartesian correspondence with the calls. *)
Lemma nested_submit_sound combos :
  forall kwds w t w',
    nested_submit fn f combos kwds delay pool submitter w = (Ok t, w') ->
    R w w' /\ cartesian (L w') combos kwds t.
Proof.
  induction combos as [|[arg inputs] rest IH]; intros kwds w t w'; [done|].
  destruct rest as [|c rest'].
  - rewrite nested_submit_innermost.
    intros (ys & w1 & Hm & H)%bind_ok_inv.
    unfold ret in H. injection H as <- <-.
    destruct (mapM_sound
                (fun x => kw <- lift (merge_kwargs kwds arg x) ;;
                          leaf_op fn f delay pool submitter kw)
                (fun _ => True) R
                (fun w x y => kwds !! arg = None /\
                              L w y (<[arg := x]> kwds))
                R_refl R_trans) with (xs := inputs) (w := w) (ys := ys)
                                     (w' := w1)
      as (_ & HR & HF); [intros ? ? ? ? [? ?] ?; eauto| |done|done|].
    + apply Forall_forall. intros x _ w2 y w3 _ Hf.
      apply bind_ok_inv in Hf as (kw & w4 & Hk & Hop).
      unfold lift, merge_kwargs in Hk.
      destruct (kwds !! arg); [done|]. injection Hk as <- <-.
      by apply leaf_sound in Hop as [? ?].
    + split; [done|]. by exists ys.
  - change (nested_submit fn f ((arg, inputs) :: c :: rest') kwds delay pool
              submitter)
      with (xs <- mapM (fun x => nested_submit fn f (c :: rest')
                                   (<[arg := x]> kwds) delay pool submitter)
                    inputs ;; ret (VList xs)).
    intros (ys & w1 & Hm & H)%bind_ok_inv.
    unfold ret in H. injection H as <- <-.
    destruct (mapM_sound
                (fun x => nested_submit fn f (c :: rest')
                            (<[arg := x]> kwds) delay pool submitter)
                (fun _ => True) R
                (fun w x y => cartesian (L w) (c :: rest')
                                (<[arg := x]> kwds) y)
                R_refl R_trans) with (xs := inputs) (w := w) (ys := ys)
                                     (w' := w1)
      as (_ & HR & HF); [| |done|done|].
    + intros w2 w3 x y Hc HR. eapply cartesian_mono; [|exact Hc].
      intros v kw HL. by eapply L_stable.
    + apply Forall_forall. intros x _ w2 y w3 _ Hs.
      by apply IH in Hs as [? ?].
    + split; [done|]. by exists ys.
Qed.
End SubmitSound.

Section GetSound.
Variable getter : value -> M value.
Variable I : world -> Prop.
Variable L L' : value -> kwargs -> Prop.
Hypothesis getter_sound :
  forall leaf kw, L leaf kw -> forall w v w', I w ->
    getter leaf w = (Ok v, w') -> I w' /\ L' v kw.

Lemma mapM_sound2 {A B C} (f : B -> M C) (P : A -> C -> Prop) xs ys :
  Forall2 (fun a x => forall w y w', I w -> f x w = (Ok y, w') ->
             I w' /\ P a y) xs ys ->
  forall w zs w', I w -> mapM f ys w = (Ok zs, w') ->
    I w' /\ Forall2 P xs zs.
Proof.
  induction 1 as [|a x xs ys Hx _ IH]; intros w zs w' Hw; simpl.
  - unfold ret. intros [= <- <-]. by split.
  - intros (y & w1 & Hf & H)%bind_ok_inv.
    apply bind_ok_inv in H as (zs' & w2 & Hm & H).
    unfold ret in H. injection H as <- <-.
    destruct (Hx _ _ _ Hw Hf) as (Hw1 & HP).
    destruct (IH _ _ _ Hw1 Hm) as (Hw2 & HF).
    split; [done|]. by constructor.
Qed.

Lemma nested_get_sound combos :
  forall kwds t,
    cartesian L combos kwds t ->
    forall w r w', I w ->
      nested_get getter t (Z.of_nat (length combos)) w = (Ok r, w') ->
      I w' /\ cartesian L' combos kwds r.
Proof.
  induction combos as [|[arg inputs] rest IH]; intros kwds t Hc w r w' Hw;
    [done|].
  destruct Hc as (xs & -> & H).
  rewrite (nested_get_unfold getter (VList xs) _ xs (eq_refl _)).
  destruct rest as [|c rest'].
  - change (Z.of_nat (length [(arg, inputs)]) =? 1) with true. cbv iota.
    intros (zs & w1 & Hm & Hr)%bind_ok_inv.
    unfold ret in Hr. injection Hr as <- <-.
    destruct (mapM_sound2 getter
                (fun x y => kwds !! arg = None /\ L' y (<[arg := x]> kwds))
                inputs xs) with (w := w) (zs := zs) (w' := w1)
      as (Hw1 & HF); [|done|done|].
    + eapply Forall2_impl; [exact H|]. intros x sub [Harg Hsub] w2 y w3 Hw2 Hg.
      destruct (getter_sound _ _ Hsub _ _ _ Hw2 Hg). done.
    + split; [done|]. by exists zs.
  - assert ((Z.of_nat (length ((arg, inputs) :: c :: rest')) =? 1) = false)
      as -> by (apply Z.eqb_neq; simpl length; lia).
    assert (Z.of_nat (length ((arg, inputs) :: c :: rest')) - 1
            = Z.of_nat (length (c :: rest'))) as ->
      by (simpl length; lia).
    intros (zs & w1 & Hm & Hr)%bind_ok_inv.
    unfold ret in Hr. injection Hr as <- <-.
    destruct (mapM_sound2
                (fun fut => nested_get getter fut
                              (Z.of_nat (length (c :: rest'))))
                (fun x y => cartesian L' (c :: rest') (<[arg := x]> kwds) y)
                inputs xs) with (w := w) (zs := zs) (w' := w1)
      as (Hw1 & HF); [|done|done|].
    + eapply Forall2_impl; [exact H|]. intros x sub Hsub w2 y w3 Hw2 Hg.
      eapply IH; [exact Hsub|exact Hw2|exact Hg].
    + split; [done|]. by exists zs.
Qed.
End GetSound.

Lemma dask_eval_sound fn h (L L' : value -> kwargs -> Prop) combos :
  (forall leaf kw v, L leaf kw -> dask_eval fn h leaf = Ok v -> L' v kw) ->
  forall kwds t r,
    cartesian L combos kwds t ->
    dask_eval fn h t = Ok r -> cartesian L' combos kwds r.
Proof.
  intros Hleaf. induction combos as [|[arg inputs] rest IH];
    intros kwds t r Hc; [done|].
  destruct Hc as (xs & -> & H). simpl. unfold res_map, res_bind.
  destruct (mapR (dask_eval fn h) xs) as [ys|] eqn:Hm; [|done].
  intros [= <-]. exists ys. split; [done|].
  revert ys Hm. induction H as [|x sub inputs' xs' Hx _ IHl]; intros ys; simpl.
  - intros [= <-]. constructor.
  - unfold res_bind. destruct (dask_eval fn h sub) as [y|] eqn:Hy; [|done].
    destruct (mapR (dask_eval fn h) xs') as [ys'|]; [|done].
    intros [= <-]. constructor; [|by apply IHl].
    destruct rest as [|c rest'].
    + destruct Hx as [Harg Hsub]. split; [done|]. by eapply Hleaf.
    + by eapply IH.
Qed.

Lemma cartesian_with (L L0 : value -> kwargs -> Prop) combos :
  forall kwds t t0,
    cartesian L combos kwds t -> cartesian L0 combos kwds t0 ->
    cartesian (fun v kw => L v kw /\ exists v0, L0 v0 kw) combos kwds t.
Proof.
  induction combos as [|[arg inputs] rest IH]; simpl; [tauto|].
  intros kwds t t0 (xs & -> & H) (xs0 & -> & H0). exists xs. split; [done|].
  revert xs0 H0. induction H as [|x sub inputs' xs' Hx _ IHl]; intros xs0 H0;
    inversion H0 as [|? sub0 ? xs0' Hx0 Hrest]; subst; constructor;
    [|by eapply IHl].
  destruct rest; [|by eapply IH]. destruct Hx, Hx0. eauto.
Qed.

Section BackendsSound.
Variable fn : kwargs -> res value.
Variable as_completed : list value -> list value.
Variable known_scheduler : string -> option strategy.

Lemma pooled_submit_sound p combos constants rs w tf w1 :
  cartesian (value_leaf fn) combos constants rs ->
  nested_submit fn Fn combos constants false (Some p) default_submitter w
    = (Ok tf, w1) ->
  cartesian (handle_leaf fn p w1) combos constants tf.
Proof.
  intros Hc Hs.
  apply (nested_submit_sound fn Fn false (Some p) default_submitter
           (grows (fun _ => True) (fun _ => True))
           (leaf_for fn Fn false (Some p))
           (grows_refl _ _) (grows_trans _ _)) in Hs as [_ Hs].
  - eapply cartesian_mono; [|exact (cartesian_with _ _ _ _ _ _ Hs Hc)].
    intros v kw [(id & -> & Hh) (v0 & Hv)]. by exists id, v0.
  - intros w2 w3 v kw. apply leaf_for_stable.
  - intros kw w2 v w3. apply leaf_op_sound.
Qed.

Lemma deferred_submit_sound combos constants rs w tj w1 :
  cartesian (value_leaf fn) combos constants rs ->
  nested_submit fn Fn combos constants true None default_submitter w
    = (Ok tj, w1) ->
  cartesian (delayed_leaf fn w1) combos constants tj.
Proof.
  intros Hc Hs.
  apply (nested_submit_sound fn Fn true None default_submitter
           (grows (fun _ => True) (fun _ => True))
           (leaf_for fn Fn true None)
           (grows_refl _ _) (grows_trans _ _)) in Hs as [_ Hs].
  - eapply cartesian_mono; [|exact (cartesian_with _ _ _ _ _ _ Hs Hc)].
    intros v kw [(id & -> & Hh) (v0 & Hv)]. by exists id, v0.
  - intros w2 w3 v kw. apply leaf_for_stable.
  - intros kw w2 v w3. apply leaf_op_sound.
Qed.

Lemma default_getter_sound pbar p w1 leaf kw w v w' :
  handle_leaf fn p w1 leaf kw ->
  heap w = heap w1 ->
  default_getter fn pbar leaf w = (Ok v, w') ->
  heap w' = heap w1 /\ value_leaf fn v kw.
Proof.
  intros (id & v0 & -> & Hh & Hv) Hw Hg. rewrite <- Hw in Hh.
  destruct (gives_result p || gives_get p) eqn:Hacc.
  - rewrite (default_getter_handle fn pbar _ _ _ _ _ _ v0 _ Hh Hacc Hv)
      in Hg.
    injection Hg as <- <-. split; [by destruct pbar|done].
  - apply orb_false_iff in Hacc as [Hr Hgt]. rewrite Hr, Hgt in Hh.
    exfalso. unfold default_getter in Hg.
    assert (try_except_AttributeError (py_result fn (VRef id))
              (py_get fn (VRef id)) w = (Raise (AttributeError "get"), w))
      as Htry.
    { unfold try_except_AttributeError, py_result, py_get.
      rewrite Hh. cbv beta iota. by rewrite Hh. }
    destruct pbar; by rewrite (bind_raise _ _ _ _ _ Htry) in Hg.
Qed.

Lemma pooled_collect_sound pbar p combos constants rs tf w1 w r w' :
  cartesian (value_leaf fn) combos constants rs ->
  cartesian (handle_leaf fn p w1) combos constants tf ->
  heap w = heap w1 ->
  nested_get (default_getter fn pbar) tf (Z.of_nat (length combos)) w
    = (Ok r, w') ->
  r = rs.
Proof.
  intros Hc Hf Hw Hg.
  destruct (nested_get_sound (default_getter fn pbar)
              (fun w => heap w = heap w1)
              (handle_leaf fn p w1) (value_leaf fn))
    with (combos := combos) (kwds := constants) (t := tf) (w := w)
         (r := r) (w' := w') as [_ Hr]; [|done..|].
  - intros leaf kw Hl w2 v w3 Hw2 Hg2.
    by eapply default_getter_sound.
  - eapply cartesian_functional; [apply value_leaf_functional|done..].
Qed.

Lemma store_round_sound h1 f w u w' :
  cached_ok fn h1 (heap w) ->
  (r <- py_result fn f ;; set_stored_result f r ;;; pbar_update) w
    = (Ok u, w') ->
  cached_ok fn h1 (heap w').
Proof.
  intros Hc (r & w2 & Hres & H)%bind_ok_inv.
  apply bind_ok_inv in H as ([] & w3 & Hset & Hup).
  unfold pbar_update, emit in Hup. injection Hup as _ <-. simpl.
  unfold py_result in Hres. destruct f as [| | | | |id]; try done.
  destruct (heap w !! id) as [[|f' kw' hr hg st]|] eqn:Hh; try done.
  destruct hr; [|done]. injection Hres as Hr <-.
  unfold set_stored_result in Hset. rewrite Hh in Hset.
  injection Hset as <-. simpl.
  intros id0 kw0 hr0 hg0 H1.
  destruct (Hc _ _ _ _ H1) as (st0 & Hw0 & Hst0).
  destruct (decide (id0 = id)) as [->|Hne].
  - rewrite Hh in Hw0. injection Hw0 as -> -> -> -> ->.
    exists (Some r). split.
    + apply list_lookup_insert_eq. by eapply lookup_lt_Some.
    + by intros r' [= <-].
  - exists st0. split; [|done]. by rewrite list_lookup_insert_ne.
Qed.

Lemma try_stored_then_result_sound h1 p leaf kw w v w' :
  handle_leaf fn p (World h1 []) leaf kw ->
  cached_ok fn h1 (heap w) ->
  try_stored_then_result fn leaf w = (Ok v, w') ->
  cached_ok fn h1 (heap w') /\ value_leaf fn v kw.
Proof.
  intros (id & v0 & -> & Hh & Hv) Hc. simpl in Hh.
  destruct (Hc _ _ _ _ Hh) as (st & Hw & Hst).
  unfold try_stored_then_result. rewrite Hw. destruct st as [r|].
  - intros [= <- <-]. split; [done|]. by apply Hst.
  - unfold py_result. rewrite Hw. destruct (gives_result p); [|done].
    simpl. rewrite Hv. by intros [= <- <-].
Qed.

(** Whatever the backend and the order of completion: a returned
    result is the sequential result, up to the outermost container. *)
Lemma dispatch_sound combos constants parallel num_workers scheduler pool
    hide n rs w r w' :
  cartesian (value_leaf fn) combos constants rs ->
  dispatch fn as_completed known_scheduler combos constants parallel
    num_workers scheduler pool hide n w = (Ok r, w') ->
  exists xs, rs = VList xs /\ (r = VList xs \/ r = VTuple xs).
Proof.
  intros Hc Hd.
  assert (exists xs, rs = VList xs) as (xs & Hxs).
  { destruct combos as [|[arg inputs] rest]; [done|].
    destruct Hc as (xs & -> & _). by exists xs. }
  exists xs. split; [done|].
  assert (forall pbar p w0,
            (futures <- nested_submit fn Fn combos constants false (Some p)
                          default_submitter ;;
             nested_get (default_getter fn pbar) futures
               (Z.of_nat (length combos))) w0 = (Ok r, w') -> r = rs)
    as Hpool.
  { intros pbar p w0 (tf & w1 & Hs & Hg)%bind_ok_inv.
    eapply pooled_collect_sound; [exact Hc| |reflexivity|exact Hg].
    by eapply pooled_submit_sound. }
  unfold dispatch in Hd. destruct pool as [p|].
  - destruct (has_scheduler p).
    + apply bind_ok_inv in Hd as (tf & w1 & Hs & Hd).
      apply bind_ok_inv in Hd as (fs & w2 & Hfl & Hd).
      unfold lift in Hfl. injection Hfl as Hfl <-.
      apply bind_ok_inv in Hd as (us & w3 & Hm & Hg).
      pose proof (pooled_submit_sound _ _ _ _ _ _ _ Hc Hs) as Hf.
      assert (cartesian (handle_leaf fn p (World (heap w1) [])) combos
                constants tf) as Hf'.
      { eapply cartesian_mono; [|exact Hf]. intros v kw.
        intros (id & v0 & ? & ? & ?). by exists id, v0. }
      destruct (mapM_sound
                  (fun f => r <- py_result fn f ;;
                            set_stored_result f r ;;; pbar_update)
                  (fun w => cached_ok fn (heap w1) (heap w))
                  (fun _ _ => True) (fun _ _ _ => True))
        with (xs := as_completed fs) (w := w1) (ys := us) (w' := w3)
        as (Hok & _); [done..| |apply cached_ok_refl|done|].
      { apply Forall_forall. intros f _ w0 y w0' Hw0 Hr.
        split; [|done]. by eapply store_round_sound. }
      left. rewrite <- Hxs.
      destruct (nested_get_sound (try_stored_then_result fn)
                  (fun w => cached_ok fn (heap w1) (heap w))
                  (handle_leaf fn p (World (heap w1) [])) (value_leaf fn))
        with (combos := combos) (kwds := constants) (t := tf) (w := w3)
             (r := r) (w' := w') as [_ Hr]; [|done..|].
      { intros leaf kw Hl w0 v w0' Hw0 Ht.
        by eapply try_stored_then_result_sound. }
      eapply cartesian_functional; [apply value_leaf_functional|done..].
    + left. rewrite <- Hxs. by eapply Hpool.
  - destruct (parallel_is parallel "mpi").
    { left. rewrite <- Hxs. unfold mpi_combo_runner_pool in Hd.
      apply bind_ok_inv in Hd as (p & w0 & Hp & Hd).
      apply bind_ok_inv in Hd as (tf & w1 & Hs & Hd).
      apply bind_ok_inv in Hd as (r' & w2 & Hg & Hd).
      unfold ret in Hd. injection Hd as -> ->.
      eapply (Hpool true p w0). by rewrite (bind_ok _ _ _ _ _ Hs). }
    destruct (parallel_is parallel "dask" || scheduler_truthy scheduler).
    { right. rewrite bind_get_fn_name in Hd.
      apply bind_ok_inv in Hd as (tj & w1 & Hs & Hd).
      apply bind_ok_inv in Hd as (s' & w2 & Hsch & Hd).
      pose proof (deferred_submit_sound _ _ _ _ _ _ Hc Hs) as Hj.
      unfold compute in Hd.
      apply bind_ok_inv in Hd as (js & w3 & Hit & Hd).
      unfold lift in Hit. injection Hit as Hit <-.
      unfold res_map, res_bind in Hd.
      destruct (mapR (dask_eval fn (heap w2)) js) as [ys|] eqn:Hm; [|done].
      injection Hd as <- <-. f_equal.
      assert (heap w2 = heap w1) as Hh.
      { destruct scheduler as [|s|g]; try (by injection Hsch as _ <-).
        destruct (scheduler_truthy (SName s));
          [|by injection Hsch as _ <-].
        unfold dask_scheduler_get in Hsch.
        destruct (known_scheduler s); [|done]. by injection Hsch as _ <-. }
      rewrite Hh in Hm.
      assert (tj = VList js) as ->.
      { destruct combos as [|[arg inputs] rest]; [done|].
        destruct Hj as (js' & -> & _). simpl in Hit. by injection Hit as ->. }
      assert (dask_eval fn (heap w1) (VList js) = Ok (VList ys)) as He.
      { simpl. unfold res_map. by rewrite Hm. }
      eapply (dask_eval_sound fn (heap w1) (delayed_leaf fn w1)
                (value_leaf fn)) in He; [| |exact Hj].
      - assert (VList ys = rs) as Heq
          by (eapply cartesian_functional;
              [apply value_leaf_functional|done..]).
        rewrite Hxs in Heq. by injection Heq.
      - intros leaf kw v (id & v0 & -> & Hl & Hv). simpl. rewrite Hl.
        simpl. unfold value_leaf. congruence. }
    destruct (parallel_truthy parallel || num_workers_truthy num_workers).
    { left. rewrite <- Hxs.
      apply bind_ok_inv in Hd as (p & w0 & Hp & Hd).
      apply bind_ok_inv in Hd as (tf & w1 & Hs & Hd).
      apply bind_ok_inv in Hd as (fs & w2 & Hfl & Hd).
      unfold lift in Hfl. injection Hfl as Hfl <-.
      apply bind_ok_inv in Hd as (us & w3 & Hm & Hg).
      destruct (pbar_rounds (as_completed fs) w1) as (us' & w3' & Hm' & Hh).
      rewrite Hm' in Hm. injection Hm as _ ->.
      eapply pooled_collect_sound; [exact Hc| |exact Hh|exact Hg].
      by eapply pooled_submit_sound. }
    left. rewrite <- Hxs.
    apply nested_submit_direct_sound in Hd.
    eapply cartesian_functional; [apply value_leaf_functional|done..].
Qed.

Lemma combo_runner_sound combos constants split parallel num_workers
    scheduler pool hide hide0 w w0 ts w0' t w' :
  _combo_runner fn as_completed known_scheduler combos constants split
    (PBool false) None SNone None hide0 w0 = (Ok ts, w0') ->
  _combo_runner fn as_completed known_scheduler combos constants split
    parallel num_workers scheduler pool hide w = (Ok t, w') ->
  exists xs, ts = VList xs /\ (t = VList xs \/ t = VTuple xs).
Proof.
  intros Hseq Hrun.
  apply sequential_inv in Hseq as (n & rs & w1 & Hn & Hc & Hfin).
  rewrite _combo_runner_eq in Hrun.
  apply bind_ok_inv in Hrun as (n' & w2 & _ & Hrun).
  apply bind_ok_inv in Hrun as (r & w3 & Hd & Hf).
  apply dispatch_sound with (rs := rs) in Hd as (xs & Hrs & Hr); [|done].
  destruct (finish_same _ _ _ _ _ _ _ w3 _ Hfin Hrs Hr)
    as (t' & Hf' & ys & Hts & Ht).
  rewrite Hf' in Hf. injection Hf as <- _. by exists ys.
Qed.
End BackendsSound.

(** ** The runner as a whole *)

Lemma supported_intro known combos constants parallel num_workers scheduler
    pool :
  backend_ok known parallel num_workers scheduler pool ->
  submit_names_free combos constants ->
  supported known combos constants parallel num_workers scheduler pool.
Proof.
  unfold backend_ok, supported. intros Hb Hf. destruct pool; [done|].
  destruct (parallel_is parallel "mpi"); [done|].
  destruct (parallel_is parallel "dask" || scheduler_truthy scheduler);
    [done|].
  by destruct (parallel_truthy parallel || num_workers_truthy num_workers).
Qed.

Lemma flatten_iter t t' z : iter t = iter t' -> flatten t z = flatten t' z.
Proof.
  intros H. unfold flatten. destruct (Z.to_nat (z - 1)); simpl; by rewrite H.
Qed.

Lemma submit_names_free_abc : submit_names_free combos_abc ∅.
Proof.
  unfold submit_names_free, combos_abc. simpl.
  repeat split; try done; rewrite !not_elem_of_cons; 
    repeat split; try done; apply not_elem_of_nil.
Qed.

Lemma submit_names_free_a : submit_names_free combos_a constants_bc.
Proof.
  unfold submit_names_free, combos_a. simpl.
  repeat split; try (by vm_compute); rewrite !not_elem_of_cons; 
    repeat split; try done; apply not_elem_of_nil.
Qed.

(** C4. When the sequential run of a function over a combination list with
    constants returns a tree, every other backend (the process pool and the
    deferred graph among them) that returns a tree returns one that
    flattens to the same values in the same order, whatever the order in
    which the backend completes the calls; and every backend that can run
    the calls does return one. *)
Theorem combo_runner_mode_independent
    (fn : kwargs -> res value) (as_completed : list value -> list value)
    (known_scheduler : string -> option strategy)
    (combos : combos_t) (constants : kwargs) (hide0 : bool)
    (w0 : world) (ts : value) (w0' : world) :
  _combo_runner fn as_completed known_scheduler combos constants false
    (PBool false) None SNone None hide0 w0 = (Ok ts, w0') ->
  exists leaves,
    flatten ts (Z.of_nat (length combos)) = Ok leaves /\
    forall parallel num_workers scheduler pool hide w,
      (forall t w',
         _combo_runner fn as_completed known_scheduler combos constants false
           parallel num_workers scheduler pool hide w = (Ok t, w') ->
         flatten t (Z.of_nat (length combos)) = Ok leaves) /\
      ((forall l, as_completed l ≡ₚ l) ->
       supported known_scheduler combos constants parallel num_workers
         scheduler pool ->
       exists t w',
         _combo_runner fn as_completed known_scheduler combos constants false
           parallel num_workers scheduler pool hide w = (Ok t, w')).
Proof.
  intros Hseq.
  destruct (sequential_inv _ _ _ _ _ _ _ _ _ _ Hseq)
    as (n & rs & w1 & Hn & Hc & Hfin).
  unfold finish, ret in Hfin. injection Hfin as -> _.
  exists (leaves_of (length combos - 1) ts).
  split; [by eapply cartesian_flatten|].
  intros parallel num_workers scheduler pool hide w. split.
  - intros t w' Hrun.
    destruct (combo_runner_sound _ _ _ _ _ _ _ _ _ _ _ _ _ _ _ _ _ _
                Hseq Hrun) as (xs & -> & Ht).
    rewrite <- (cartesian_flatten _ _ _ _ Hc).
    apply flatten_iter. by destruct Ht as [-> | ->].
  - intros Hperm Hsup.
    destruct (combo_runner_backends fn as_completed known_scheduler Hperm
                _ _ _ _ _ _ _ hide _ w _ _ _ Hseq Hsup)
      as (t & w' & xs & Hrun & _). by exists t, w'.
Qed.

Lemma sequential_abc as_completed known :
  exists w',
    _combo_runner foo3_scalar as_completed known combos_abc ∅ false
      (PBool false) None SNone None false world0 = (Ok tree_abc, w').
Proof.
  destruct (_combo_runner foo3_scalar as_completed known combos_abc ∅ false
              (PBool false) None SNone None false world0) as [r w'] eqn:H.
  exists w'. f_equal. apply (f_equal fst) in H.
  change (fst (r, w')) with r in H. rewrite <- H.
  vm_compute. reflexivity.
Qed.

Lemma sequential_a as_completed known :
  exists w',
    _combo_runner foo3_scalar as_completed known combos_a constants_bc false
      (PBool false) None SNone None false world0
    = (Ok (VList [VInt 321; VInt 322]), w').
Proof.
  destruct (_combo_runner foo3_scalar as_completed known combos_a constants_bc
              false (PBool false) None SNone None false world0)
    as [r w'] eqn:H.
  exists w'. f_equal. apply (f_equal fst) in H.
  change (fst (r, w')) with r in H. rewrite <- H.
  vm_compute. reflexivity.
Qed.

(** C3. For the combinations a in [1,2], b in [10,20,30], c in
    [100,200,300,400] and fn(a,b,c) = a+b+c, whichever backend is selected
    (and can run calls), and whatever the order of completion, the runner
    returns a tree with 111 at index (0,0,0) and 432 at index (1,2,3). *)
Theorem combo_runner_abc_corners
    (as_completed : list value -> list value)
    (known_scheduler : string -> option strategy)
    (parallel : parallel_t) (num_workers : option Z) (scheduler : scheduler_t)
    (pool : option pool_obj) (hide : bool) (w : world) :
  (forall l, as_completed l ≡ₚ l) ->
  backend_ok known_scheduler parallel num_workers scheduler pool ->
  exists t w',
    _combo_runner foo3_scalar as_completed known_scheduler combos_abc ∅ false
      parallel num_workers scheduler pool hide w = (Ok t, w') /\
    index t [0; 0; 0]%nat = Some (VInt 111) /\
    index t [1; 2; 3]%nat = Some (VInt 432).
Proof.
  intros Hperm Hb.
  destruct (sequential_abc as_completed known_scheduler) as (w0' & Hseq).
  destruct (combo_runner_backends foo3_scalar as_completed known_scheduler
              Hperm _ _ _ _ _ _ _ hide _ w _ _ _ Hseq
              (supported_intro _ _ _ _ _ _ _ Hb submit_names_free_abc))
    as (t & w' & xs & Hrun & Hts & Ht).
  exists t, w'. split; [exact Hrun|].
  unfold tree_abc in Hts. injection Hts as <-.
  destruct Ht as [-> | ->]; split; reflexivity.
Qed.

(** C8. For the single combination a in [1,2] with the constants b = 20,
    c = 300 and fn(a,b,c) = a+b+c, every supported backend returns the
    sequence 321, 322: the constants go into every call next to the
    iterated argument. *)
Theorem combo_runner_single_combo_constants
    (as_completed : list value -> list value)
    (known_scheduler : string -> option strategy)
    (parallel : parallel_t) (num_workers : option Z) (scheduler : scheduler_t)
    (pool : option pool_obj) (hide : bool) (w : world) :
  (forall l, as_completed l ≡ₚ l) ->
  backend_ok known_scheduler parallel num_workers scheduler pool ->
  exists t w',
    _combo_runner foo3_scalar as_completed known_scheduler combos_a
      constants_bc false parallel num_workers scheduler pool hide w
      = (Ok t, w') /\
    iter t = Ok [VInt 321; VInt 322].
Proof.
  intros Hperm Hb.
  destruct (sequential_a as_completed known_scheduler) as (w0' & Hseq).
  destruct (combo_runner_backends foo3_scalar as_completed known_scheduler
              Hperm _ _ _ _ _ _ _ hide _ w _ _ _ Hseq
              (supported_intro _ _ _ _ _ _ _ Hb submit_names_free_a))
    as (t & w' & xs & Hrun & Hts & Ht).
  exists t, w'. split; [exact Hrun|].
  injection Hts as <-. destruct Ht as [-> | ->]; reflexivity.
Qed.

(** ** The uniform result accessor *)

Lemma default_getter_unfold fn pbar future w :
  default_getter fn pbar future w
  = resolved pbar
      (try_except_AttributeError (py_result fn future) (py_get fn future) w).
Proof.
  unfold default_getter, resolved.
  destruct pbar; unfold bind;
    by destruct (try_except_AttributeError _ _ w) as [[v|e] w1].
Qed.

Lemma py_result_missing fn w future :
  exposes_result w future = false ->
  py_result fn future w = (Raise (AttributeError "result"), w).
Proof.
  unfold exposes_result, py_result. destruct future; try done.
  destruct (heap w !! id) as [[|f kw [] hg st]|]; done.
Qed.

Lemma py_get_missing fn w future :
  exposes_get w future = false ->
  py_get fn future w = (Raise (AttributeError "get"), w).
Proof.
  unfold exposes_get, py_get. destruct future; try done.
  destruct (heap w !! id) as [[|f kw hr [] st]|]; done.
Qed.

(** C7. The getter first tries [result()]: a value, or an error other than
    a missing capability, is the outcome and [get()] is not consulted. A
    leaf without [result()] is asked through [get()], and the outcome of
    that call is the outcome. A leaf with neither accessor raises the
    [AttributeError] of the second attempt, the one for [get]. *)
Theorem default_getter_two_try_fallback
    (fn : kwargs -> res value) (pbar : bool) (future : value) (w : world) :
  (forall r w1,
     py_result fn future w = (r, w1) ->
     (forall a, r <> Raise (AttributeError a)) ->
     default_getter fn pbar future w = resolved pbar (r, w1)) /\
  (exposes_result w future = false ->
   default_getter fn pbar future w = resolved pbar (py_get fn future w)) /\
  (exposes_result w future = false -> exposes_get w future = false ->
   default_getter fn pbar future w = (Raise (AttributeError "get"), w)).
Proof.
  split; [|split].
  - intros r w1 Hr Hne. rewrite default_getter_unfold.
    unfold try_except_AttributeError. rewrite Hr.
    destruct r as [v|e]; [done|]. destruct e; try done. by destruct (Hne attr).
  - intros Hr. rewrite default_getter_unfold.
    unfold try_except_AttributeError. by rewrite (py_result_missing _ _ _ Hr).
  - intros Hr Hg. rewrite default_getter_unfold.
    unfold try_except_AttributeError.
    by rewrite (py_result_missing _ _ _ Hr), (py_get_missing _ _ _ Hg).
Qed.

(** ** A constant named like a combination argument *)

Lemma mapM_ext {A B} (f g : A -> M B) xs :
  (forall x w, f x w = g x w) -> forall w, mapM f xs w = mapM g xs w.
Proof.
  intros H. induction xs as [|x xs IH]; intros w; simpl; [done|].
  unfold bind. rewrite H. destruct (g x w) as [[y|e] w1]; [|done].
  by rewrite IH.
Qed.

Lemma mapM_first_raises {A B} (f : A -> M B) x xs w e w' :
  f x w = (Raise e, w') -> mapM f (x :: xs) w = (Raise e, w').
Proof. intros H. simpl. by rewrite (bind_raise _ _ _ _ _ H). Qed.

Lemma innermost_collision_raises fn f delay pool submitter combos :
  forall kwds arg inputs const w,
    last combos = Some (arg, inputs) ->
    Forall (fun c => snd c <> []) combos ->
    kwds !! arg = Some const ->
    exists w',
      nested_submit fn f combos kwds delay pool submitter w
      = (Raise (TypeError "got multiple values for keyword argument"), w').
Proof.
  induction combos as [|[arg' inputs'] rest IH];
    intros kwds arg inputs const w Hlast Hall Hk; [done|].
  apply Forall_cons in Hall as [Hne Hall]. simpl in Hne.
  destruct inputs' as [|x xs]; [done|].
  destruct rest as [|c rest'].
  - simpl in Hlast. injection Hlast as -> <-.
    rewrite nested_submit_innermost. exists w.
    apply bind_raise, mapM_first_raises.
    unfold bind, lift, merge_kwargs. by rewrite Hk.
  - change (last ((arg', x :: xs) :: c :: rest'))
      with (last (c :: rest')) in Hlast.
    destruct (IH (<[arg' := x]> kwds) arg inputs
                (match decide (arg' = arg) with
                 | left _ => x | right _ => const end) w Hlast Hall)
      as (w' & Hr).
    { destruct (decide (arg' = arg)) as [->|Hn].
      - apply lookup_insert_eq.
      - by rewrite lookup_insert_ne. }
    exists w'.
    change (nested_submit fn f ((arg', x :: xs) :: c :: rest') kwds delay pool
              submitter)
      with (ys <- mapM (fun x => nested_submit fn f (c :: rest')
                                   (<[arg' := x]> kwds) delay pool submitter)
                    (x :: xs) ;; ret (VList ys)).
    by apply bind_raise, mapM_first_raises.
Qed.

(** C9. A constant whose key is the name of a combination argument: at an
    entry that is not the innermost, the iterated value replaces the
    constant in the mapping passed down, so the run is the run without the
    constant; at the innermost entry every call has the keyword twice and
    raises, so with non-empty sequences [nested_submit] raises that
    [TypeError] and returns no tree, in every mode. *)
Theorem constant_collides_with_argument
    (fn : kwargs -> res value) (f : callable) (delay : bool)
    (pool : option pool_obj)
    (submitter : pool_obj -> callable -> kwargs -> M value)
    (kwds : kwargs) (arg : string) (const : value) :
  kwds !! arg = Some const ->
  (forall inputs c rest w,
     nested_submit fn f ((arg, inputs) :: c :: rest) kwds delay pool
       submitter w
     = nested_submit fn f ((arg, inputs) :: c :: rest) (delete arg kwds)
         delay pool submitter w) /\
  (forall x, <[arg := x]> kwds !! arg = Some x) /\
  (forall x,
     merge_kwargs kwds arg x
     = Raise (TypeError "got multiple values for keyword argument")) /\
  (forall combos inputs w,
     last combos = Some (arg, inputs) ->
     Forall (fun c => snd c <> []) combos ->
     exists w',
       nested_submit fn f combos kwds delay pool submitter w
       = (Raise (TypeError "got multiple values for keyword argument"), w')).
Proof.
  intros Hk. split; [|split; [|split]].
  - intros inputs c rest w.
    change (nested_submit fn f ((arg, inputs) :: c :: rest) ?k delay pool
              submitter)
      with (ys <- mapM (fun x => nested_submit fn f (c :: rest)
                                   (<[arg := x]> k) delay pool submitter)
                    inputs ;; ret (VList ys)).
    unfold bind. rewrite (mapM_ext _
      (fun x => nested_submit fn f (c :: rest) (<[arg := x]> (delete arg kwds))
                  delay pool submitter)); [done|].
    intros x w0. by rewrite insert_delete_eq.
  - intros x. apply lookup_insert_eq.
  - intros x. unfold merge_kwargs. by rewrite Hk.
  - intros combos inputs w Hlast Hall.
    by eapply innermost_collision_raises.
Qed.

(** ** Reshaping: [unzip] *)

Lemma zip_star_length rows : length (zip_star rows) = min_arity rows.
Proof.
  induction rows as [|r rest IH]; [done|].
  destruct rest as [|r' rest'].
  - simpl. apply length_map.
  - change (zip_star (r :: r' :: rest'))
      with (zip_with cons r (zip_star (r' :: rest'))).
    change (min_arity (r :: r' :: rest'))
      with (Nat.min (length r) (min_arity (r' :: rest'))).
    by rewrite length_zip_with, IH.
Qed.

Lemma zip_star_lookup rows j col :
  zip_star rows !! j = Some col ->
  Forall2 (fun r c => r !! j = Some c) rows col.
Proof.
  revert col. induction rows as [|r rest IH]; intros col; [done|].
  destruct rest as [|r' rest'].
  - simpl. rewrite list_lookup_fmap.
    destruct (r !! j) as [x|] eqn:Hx; [|done]. intros [= <-].
    by repeat constructor.
  - change (zip_star (r :: r' :: rest'))
      with (zip_with cons r (zip_star (r' :: rest'))).
    intros (x & col' & -> & Hx & Hc)%lookup_zip_with_Some.
    constructor; [done|]. by apply IH.
Qed.

Lemma mapR_iter_tuples rows : mapR iter (map VTuple rows) = Ok rows.
Proof. induction rows as [|r rows IH]; simpl; [done|]. by rewrite IH. Qed.

(** C10. On a depth-1 tree of tuples of any arities, [unzip] does not
    raise: it returns as many trees as the smallest arity, tree [j] made of
    the j-th components, and the further components of longer tuples are
    in no tree. *)
Theorem unzip_ragged_truncates (rows : list (list value)) :
  exists outs,
    unzip (VList (map VTuple rows)) 1 = Ok (VList (map VTuple outs)) /\
    length outs = min_arity rows /\
    forall j col, outs !! j = Some col ->
      Forall2 (fun r c => r !! j = Some c) rows col.
Proof.
  exists (zip_star rows). split; [|split].
  - unfold unzip. simpl. unfold zip_values. simpl.
    by rewrite mapR_iter_tuples.
  - apply zip_star_length.
  - apply zip_star_lookup.
Qed.

Example unzip_ragged_example :
  unzip (VList [VTuple [VInt 1; VInt 2; VInt 3]; VTuple [VInt 4; VInt 5]]) 1
  = Ok (VList [VTuple [VInt 1; VInt 4]; VTuple [VInt 2; VInt 5]]).
Proof. reflexivity. Qed.

Lemma map_nth_seq {A} (r : list A) (d : A) :
  map (fun j => nth j r d) (seq 0 (length r)) = r.
Proof.
  apply list_eq. intros i. rewrite list_lookup_fmap.
  destruct (decide (i < length r)%nat) as [Hlt|Hge].
  - rewrite lookup_seq_lt by done. simpl.
    destruct (lookup_lt_is_Some_2 r i Hlt) as [x Hx].
    rewrite Hx. f_equal. by apply nth_lookup_Some.
  - rewrite lookup_seq_ge by lia. simpl. symmetry.
    apply lookup_ge_None. lia.
Qed.

Lemma zip_with_map_map {A B C D} (f : B -> C -> D) (a : A -> B) (b : A -> C)
    (l : list A) :
  zip_with f (map a l) (map b l) = map (fun x => f (a x) (b x)) l.
Proof. induction l as [|x l IH]; simpl; [done|]. by rewrite IH. Qed.

(** The columns of a non-empty table whose rows all have [k] items. *)
Lemma zip_star_transpose k rows :
  rows <> [] -> Forall (fun r => length r = k) rows ->
  zip_star rows
  = map (fun j => map (fun r => nth j r VNone) rows) (seq 0 k).
Proof.
  induction rows as [|r rest IH]; intros Hne Hall; [done|].
  apply Forall_cons in Hall as [Hr Hall].
  destruct rest as [|r' rest'].
  - simpl. rewrite <- Hr. rewrite <- (map_nth_seq r VNone) at 1.
    by rewrite map_map.
  - change (zip_star (r :: r' :: rest'))
      with (zip_with cons r (zip_star (r' :: rest'))).
    rewrite IH by done.
    rewrite <- (map_nth_seq r VNone) at 1. rewrite Hr.
    by rewrite zip_with_map_map.
Qed.

Lemma tuple_tree_items k n t :
  tuple_tree k n t = true ->
  exists xs, items t = Some xs /\ xs <> [] /\
    Forall (fun x => match n with
                     | O => tuple_leaf k x
                     | S n' => tuple_tree k n' x
                     end = true) xs.
Proof.
  destruct n; simpl; (destruct (items t) as [xs|]; [|done]);
    intros [Hne Hall]%andb_true_iff; exists xs; (split; [done|]);
    (split; [by destruct xs|]); apply Forall_forall; intros x Hx;
    rewrite forallb_forall in Hall; apply Hall; by apply list_elem_of_In.
Qed.

Lemma tuple_leaf_inv k v :
  tuple_leaf k v = true -> exists cs, v = VTuple cs /\ length cs = k.
Proof.
  destruct v; try done. simpl. intros H%Nat.eqb_eq. by eexists.
Qed.

(** What [unzip] computes on a tree of uniform tuples: the trees of the
    components, one per position. *)
Lemma unzipper_components k n :
  forall t, tuple_tree k n t = true ->
    res_bind (_unzipper n t) zip_values
    = Ok (map (fun j => proj j n t) (seq 0 k)).
Proof.
  induction n as [|n IH]; intros t Ht;
    apply tuple_tree_items in Ht as (xs & Hi & Hne & Hall).
  - simpl. unfold zip_values. rewrite (items_iter _ _ Hi). simpl.
    rewrite (mapR_ok iter elems).
    + simpl. rewrite (zip_star_transpose k).
      * rewrite map_map. f_equal. rewrite (items_elems _ _ Hi).
        apply map_ext. intros j. f_equal. by rewrite map_map.
      * by destruct xs.
      * apply Forall_map. eapply Forall_impl; [exact Hall|].
        intros x (cs & -> & Hl)%tuple_leaf_inv. done.
    + eapply Forall_impl; [exact Hall|].
      intros x (cs & -> & Hl)%tuple_leaf_inv. done.
  - simpl. rewrite (items_iter _ _ Hi). simpl. unfold res_map at 1.
    rewrite (mapR_ok _ (fun it => VList (map (fun j => proj j n it)
                                           (seq 0 k)))).
    + simpl. unfold zip_values. simpl.
      rewrite (mapR_ok iter elems).
      * simpl. rewrite (zip_star_transpose k).
        -- rewrite map_map. rewrite (items_elems _ _ Hi).
           apply f_equal. apply map_ext_in. intros j Hj. f_equal.
           rewrite !map_map. apply map_ext. intros it. simpl.
           apply in_seq in Hj.
           change (elems (VList ?l)) with l.
           rewrite (nth_indep _ _ (proj 0 n it))
             by (rewrite length_map, length_seq; lia).
           rewrite (map_nth (fun j => proj j n it)).
           by rewrite seq_nth by lia.
        -- by destruct xs.
        -- apply Forall_map, Forall_map. apply Forall_forall.
           intros it _. change (elems (VList ?l)) with l.
           by rewrite length_map, length_seq.
      * apply Forall_map. by apply Forall_forall.
    + eapply Forall_impl; [exact Hall|]. intros it Hit.
      unfold res_map. by rewrite (IH _ Hit).
Qed.

Lemma elems_tuple l : elems (VTuple l) = l.
Proof. reflexivity. Qed.

Lemma proj_shape j n :
  forall t, tmap (fun _ => VNone) n (proj j n t) = tmap (fun _ => VNone) n t.
Proof.
  induction n as [|n IH]; intros t; simpl; rewrite elems_tuple, map_map.
  - done.
  - f_equal. apply map_ext. intros x. apply IH.
Qed.

Lemma proj_index j n :
  forall t path, length path = S n ->
    index (proj j n t) path = component j <$> index t path.
Proof.
  induction n as [|n IH]; intros t [|i p] Hp; try done; simpl in Hp.
  - destruct p; [|done]. simpl. unfold elems.
    destruct (items t) as [xs|]; [|done].
    rewrite list_lookup_fmap. by destruct (xs !! i).
  - simpl. unfold elems. destruct (items t) as [xs|]; [|done].
    rewrite list_lookup_fmap. destruct (xs !! i) as [x|]; [|done].
    simpl. apply IH. lia.
Qed.

Lemma proj_leaves j n :
  forall t, leaves_of n (proj j n t) = map (component j) (leaves_of n t).
Proof.
  induction n as [|n IH]; intros t; simpl; rewrite elems_tuple; [done|].
  rewrite map_map. induction (elems t) as [|x xs IHx]; simpl; [done|].
  by rewrite map_app, IH, IHx.
Qed.

Lemma tuple_tree_leaf k n :
  forall t path leaf,
    tuple_tree k n t = true -> length path = S n ->
    index t path = Some leaf ->
    exists cs, leaf = VTuple cs /\ length cs = k.
Proof.
  induction n as [|n IH]; intros t [|i p] leaf Ht Hp; try done;
    simpl in Hp; apply tuple_tree_items in Ht as (xs & Hi & _ & Hall);
    simpl; rewrite Hi; (destruct (xs !! i) as [x|] eqn:Hx; [|done]);
    pose proof (proj1 (Forall_forall _ _) Hall x
                  (list_elem_of_lookup_2 _ _ _ Hx)) as Hxt.
  - destruct p; [|done]. simpl. intros [= <-]. by apply tuple_leaf_inv.
  - intros Hl. apply (IH x p leaf Hxt); [lia|exact Hl].
Qed.

Lemma tuple_tree_leaves k n :
  forall t, tuple_tree k n t = true ->
    Forall (fun leaf => length (elems leaf) = k) (leaves_of n t).
Proof.
  induction n as [|n IH]; intros t Ht;
    apply tuple_tree_items in Ht as (xs & Hi & _ & Hall);
    simpl; rewrite (items_elems _ _ Hi).
  - eapply Forall_impl; [exact Hall|].
    intros x (cs & -> & Hl)%tuple_leaf_inv. done.
  - apply Forall_concat, Forall_map.
    eapply Forall_impl; [exact Hall|]. intros x Hx. by apply IH.
Qed.

Lemma sum_list_const {A} (f : A -> nat) (c : nat) (l : list A) :
  Forall (fun x => f x = c) l -> sum_list (map f l) = (length l * c)%nat.
Proof.
  induction 1 as [|x l Hx _ IH]; simpl; [done|]. rewrite Hx, IH. lia.
Qed.

(** The run with [split] set is the run without it followed by
    [list(unzip(results, ndim))]: same exception, or the unzipped
    results in the same world. *)
Lemma split_applies_unzip fn ac ks combos constants parallel num_workers
    scheduler pool hide w :
  _combo_runner fn ac ks combos constants true parallel num_workers scheduler
    pool hide w
  = match _combo_runner fn ac ks combos constants false parallel num_workers
            scheduler pool hide w with
    | (Ok results, w') =>
        (res_map VList
           (res_bind (unzip results (Z.of_nat (length combos))) iter), w')
    | (Raise e, w') => (Raise e, w')
    end.
Proof.
  rewrite !_combo_runner_eq. unfold bind, lift, finish, ret.
  destruct (prod _) as [n|e]; [|done].
  destruct (dispatch _ _ _ _ _ _ _ _ _ _ _ w) as [[r|e] w1]; [|done].
  by destruct (res_bind (unzip r _) iter).
Qed.

(** A tree of uniform tuples without an empty sequence is, in particular,
    a tree of uniform tuples. *)
Lemma tuple_tree_leaves_only k n :
  forall t, tuple_tree k n t = true -> tuple_leaves k n t = true.
Proof.
  induction n as [|n IH]; intros t; simpl; destruct (items t) as [xs|];
    try done; intros [_ H]%andb_true_iff; [done|].
  rewrite forallb_forall in H. apply forallb_forall. intros x Hx.
  apply IH. by apply H.
Qed.

(** C5. For a depth [d >= 1] and a tree with [d] levels, no empty sequence,
    whose leaves are tuples of one arity [k]: [unzip] at level [d] returns
    [k] trees of the shape of the input; tree [j] has at every index, and
    so in nested order, the j-th component of the leaf there; the
    components found at an index across the [k] trees are the tuple that
    was there; and as many scalar values come out as went in. This is what
    [_combo_runner] does when [split] is set: under every backend, when
    the run without [split] returns the tree, the run with [split]
    returns the list of these [k] trees, in the same world. *)
Theorem unzip_uniform_tuples (k n : nat) (t : value) :
  tuple_tree k n t = true ->
  exists outs,
    unzip t (Z.of_nat (S n)) = Ok (VList outs) /\
    length outs = k /\
    (forall j out, outs !! j = Some out ->
       tmap (fun _ => VNone) n out = tmap (fun _ => VNone) n t /\
       (forall path, length path = S n ->
          index out path = component j <$> index t path) /\
       leaves_of n out = map (component j) (leaves_of n t)) /\
    (forall path leaf, length path = S n -> index t path = Some leaf ->
       exists cs, leaf = VTuple cs /\
         Forall2 (fun out c => index out path = Some c) outs cs) /\
    sum_list (map (fun out => length (leaves_of n out)) outs)
    = sum_list (map (fun leaf => length (elems leaf)) (leaves_of n t)) /\
    forall fn as_completed known_scheduler combos constants parallel
           num_workers scheduler pool hide w w',
      length combos = S n ->
      _combo_runner fn as_completed known_scheduler combos constants false
        parallel num_workers scheduler pool hide w = (Ok t, w') ->
      _combo_runner fn as_completed known_scheduler combos constants true
        parallel num_workers scheduler pool hide w = (Ok (VList outs), w').
Proof.
  intros Ht. exists (map (fun j => proj j n t) (seq 0 k)).
  assert (unzip t (Z.of_nat (S n))
          = Ok (VList (map (fun j => proj j n t) (seq 0 k)))) as Hun.
  { unfold unzip.
    assert ((Z.of_nat (S n) =? 0) = false) as -> by (apply Z.eqb_neq; lia).
    replace (Z.to_nat (Z.of_nat (S n) - 1)) with n by lia.
    unfold res_map. by rewrite (unzipper_components k n t Ht). }
  split; [|split; [|split; [|split; [|split]]]]; [exact Hun| | | | |].
  - by rewrite length_map, length_seq.
  - intros j out Hout. rewrite list_lookup_fmap in Hout.
    destruct (seq 0 k !! j) as [j'|] eqn:Hj; [|done].
    apply lookup_seq in Hj as [-> _]. simpl in Hout. injection Hout as <-.
    split; [apply proj_shape|]. split; [apply proj_index|apply proj_leaves].
  - intros path leaf Hp Hl.
    destruct (tuple_tree_leaf k n t path leaf Ht Hp Hl) as (cs & -> & Hcs).
    exists cs. split; [done|].
    apply Forall2_same_length_lookup. split.
    + by rewrite length_map, length_seq.
    + intros j out c Hout Hc. rewrite list_lookup_fmap in Hout.
      destruct (seq 0 k !! j) as [j'|] eqn:Hj; [|done].
      apply lookup_seq in Hj as [-> _]. simpl in Hout. injection Hout as <-.
      rewrite proj_index by done. rewrite Hl. simpl. f_equal.
      unfold component. rewrite elems_tuple. by apply nth_lookup_Some.
  - rewrite map_map.
    rewrite (sum_list_const _ (length (leaves_of n t))).
    + rewrite (sum_list_const _ k) by by apply tuple_tree_leaves.
      rewrite length_seq. lia.
    + apply Forall_forall. intros j _. by rewrite proj_leaves, length_map.
  - intros fn ac ks combos constants parallel num_workers scheduler pool hide
      w w' Hlen Hrun.
    rewrite split_applies_unzip, Hrun, Hlen, Hun. reflexivity.
Qed.

(** ** The theorems at concrete inputs *)

Lemma names_fresh_abc : names_fresh combos_abc ∅.
Proof.
  split.
  - simpl. repeat (apply NoDup_cons; split);
      rewrite ?not_elem_of_cons; repeat split; try done;
      try apply not_elem_of_nil; apply NoDup_nil_2.
  - intros a _. apply lookup_empty.
Defined.

Lemma nested_submit_cartesian_tree_witness :
  combos_abc <> [] /\
  names_fresh combos_abc ∅ /\
  exists t w',
    nested_submit foo3_scalar Fn combos_abc ∅ true None default_submitter
      world0 = (Ok t, w') /\
    list_shape (dims_of combos_abc) t = true /\
    length (dims_of combos_abc) = length combos_abc /\
    forall path kw, assign combos_abc ∅ path = Some kw ->
      exists leaf, index t path = Some leaf /\
                   leaf_for foo3_scalar Fn true None w' leaf kw.
Proof.
  split; [discriminate|]. split; [exact names_fresh_abc|].
  apply (nested_submit_cartesian_tree foo3_scalar Fn combos_abc ∅ true None
           world0).
  - discriminate.
  - exact names_fresh_abc.
  - intros path kw _ w0. eexists _, _. reflexivity.
Defined.

Example pooled_submit_a :
  nested_submit foo3_scalar Fn combos_a constants_bc false (Some executor)
    default_submitter world0 = (Ok futures_a, world_a).
Proof. vm_compute. reflexivity. Qed.

Lemma nested_get_same_shape_each_leaf_once_witness :
  exists r leaves,
    nested_get (default_getter foo3_scalar true) futures_a
      (Z.of_nat (length [2%nat])) world_a
      = (Ok r, after world_a (map (fun _ => Update) leaves)) /\
    flatten futures_a (Z.of_nat (length [2%nat])) = Ok leaves /\
    list_shape [2%nat] r = true /\ has_shape [2%nat] r = true /\
    (forall path, length path = length [2%nat] ->
       index r path = values_a <$> index futures_a path) /\
    prod (map Z.of_nat [2%nat]) = Ok (Z.of_nat (length leaves)).
Proof.
  apply (nested_get_same_shape_each_leaf_once
           (default_getter foo3_scalar true) values_a (fun _ => Update)
           [2%nat] futures_a world_a).
  - discriminate.
  - reflexivity.
  - intros leaves v w0 Hfl Hv Hw0. injection Hfl as <-.
    apply elem_of_cons in Hv as [-> | Hv];
      [|apply elem_of_cons in Hv as [-> | Hv];
        [|by apply elem_of_nil in Hv]].
    + apply (default_getter_handle foo3_scalar true 0 Fn
               (<["a" := VInt 1]> constants_bc) true false None (VInt 321) w0).
      * rewrite Hw0. reflexivity.
      * reflexivity.
      * vm_compute. reflexivity.
    + apply (default_getter_handle foo3_scalar true 1 Fn
               (<["a" := VInt 2]> constants_bc) true false None (VInt 322) w0).
      * rewrite Hw0. reflexivity.
      * reflexivity.
      * vm_compute. reflexivity.
Defined.

Lemma rev_completion (l : list value) : rev l ≡ₚ l.
Proof. symmetry. apply Permutation_rev. Defined.

Lemma combo_runner_abc_corners_witness :
  exists t w',
    _combo_runner foo3_scalar (@rev value) (fun _ => None) combos_abc ∅ false
      (PBool true) (Some 2) SNone None false world0 = (Ok t, w') /\
    index t [0; 0; 0]%nat = Some (VInt 111) /\
    index t [1; 2; 3]%nat = Some (VInt 432).
Proof.
  apply (combo_runner_abc_corners (@rev value) (fun _ => None) (PBool true)
           (Some 2) SNone None false world0 rev_completion).
  simpl. lia.
Defined.

Lemma combo_runner_mode_independent_witness :
  exists w0',
    _combo_runner foo3_scalar (@rev value) (fun _ => None) combos_abc ∅ false
      (PBool false) None SNone None false world0 = (Ok tree_abc, w0') /\
    exists leaves,
      flatten tree_abc (Z.of_nat (length combos_abc)) = Ok leaves /\
      forall parallel num_workers scheduler pool hide w,
        (forall t w',
           _combo_runner foo3_scalar (@rev value) (fun _ => None) combos_abc ∅
             false parallel num_workers scheduler pool hide w = (Ok t, w') ->
           flatten t (Z.of_nat (length combos_abc)) = Ok leaves) /\
        ((forall l : list value, rev l ≡ₚ l) ->
         supported (fun _ => None) combos_abc ∅ parallel num_workers
           scheduler pool ->
         exists t w',
           _combo_runner foo3_scalar (@rev value) (fun _ => None) combos_abc ∅
             false parallel num_workers scheduler pool hide w = (Ok t, w')).
Proof.
  destruct (sequential_abc (@rev value) (fun _ => None)) as (w0' & Hseq).
  exists w0'. split; [exact Hseq|].
  exact (combo_runner_mode_independent foo3_scalar (@rev value)
           (fun _ => None) combos_abc ∅ false world0 tree_abc w0' Hseq).
Defined.

Lemma unzip_uniform_tuples_witness :
  tuple_tree 2 1 tree_float_bool = true /\
  exists outs,
    unzip tree_float_bool (Z.of_nat 2) = Ok (VList outs) /\
    length outs = 2%nat /\
    (forall j out, outs !! j = Some out ->
       tmap (fun _ => VNone) 1 out = tmap (fun _ => VNone) 1 tree_float_bool /\
       (forall path, length path = 2%nat ->
          index out path = component j <$> index tree_float_bool path) /\
       leaves_of 1 out = map (component j) (leaves_of 1 tree_float_bool)) /\
    (forall path leaf, length path = 2%nat ->
       index tree_float_bool path = Some leaf ->
       exists cs, leaf = VTuple cs /\
         Forall2 (fun out c => index out path = Some c) outs cs) /\
    sum_list (map (fun out => length (leaves_of 1 out)) outs)
    = sum_list (map (fun leaf => length (elems leaf))
                  (leaves_of 1 tree_float_bool)) /\
    forall fn as_completed known_scheduler combos constants parallel
           num_workers scheduler pool hide w w',
      length combos = 2%nat ->
      _combo_runner fn as_completed known_scheduler combos constants false
        parallel num_workers scheduler pool hide w
      = (Ok tree_float_bool, w') ->
      _combo_runner fn as_completed known_scheduler combos constants true
        parallel num_workers scheduler pool hide w = (Ok (VList outs), w').
Proof.
  split; [reflexivity|].
  apply (unzip_uniform_tuples 2 1 tree_float_bool). reflexivity.
Defined.

Lemma names_fresh_ab : names_fresh combos_ab ∅.
Proof.
  split.
  - simpl. repeat (apply NoDup_cons; split);
      rewrite ?not_elem_of_cons; repeat split; try done;
      try apply not_elem_of_nil; apply NoDup_nil_2.
  - intros a _. apply lookup_empty.
Defined.

Lemma default_getter_two_try_fallback_witness :
  default_getter foo3_scalar false (VInt 3) world0
  = (Raise (AttributeError "get"), world0).
Proof.
  apply (default_getter_two_try_fallback foo3_scalar false (VInt 3) world0);
    reflexivity.
Defined.

Lemma combo_runner_single_combo_constants_witness :
  exists t w',
    _combo_runner foo3_scalar (@rev value) (fun _ => None) combos_a
      constants_bc false (PStr "dask") None SNone None false world0
      = (Ok t, w') /\
    iter t = Ok [VInt 321; VInt 322].
Proof.
  apply (combo_runner_single_combo_constants (@rev value) (fun _ => None)
           (PStr "dask") None SNone None false world0 rev_completion).
  exact I.
Defined.

Lemma constant_collides_with_argument_witness :
  exists w',
    nested_submit foo3_scalar Fn combos_ab (<["b" := VInt 5]> ∅) false None
      default_submitter world0
    = (Raise (TypeError "got multiple values for keyword argument"), w').
Proof.
  apply (constant_collides_with_argument foo3_scalar Fn false None
           default_submitter (<["b" := VInt 5]> ∅) "b" (VInt 5)
           (lookup_insert_eq _ _ _))
    with (inputs := [VInt 10; VInt 20; VInt 30]).
  - reflexivity.
  - repeat constructor; discriminate.
Defined.

Lemma unzip_ragged_truncates_witness :
  exists outs,
    unzip (VList (map VTuple [[VInt 1; VInt 2; VInt 3]; [VInt 4; VInt 5]])) 1
    = Ok (VList (map VTuple outs)) /\
    length outs = min_arity [[VInt 1; VInt 2; VInt 3]; [VInt 4; VInt 5]] /\
    forall j col, outs !! j = Some col ->
      Forall2 (fun r c => r !! j = Some c)
              [[VInt 1; VInt 2; VInt 3]; [VInt 4; VInt 5]] col.
Proof.
  exact (unzip_ragged_truncates [[VInt 1; VInt 2; VInt 3]; [VInt 4; VInt 5]]).
Defined.

(** ** At the edges of the statements *)

(** An argument named [fn] is fine for a direct call, but in pooled mode
    [default_submitter] takes the keyword for its own parameter. *)
Example argument_named_fn :
  fst (nested_submit echo_fn Fn [("fn", [VInt 1])] ∅ false None
         default_submitter world0) = Ok (VList [VInt 1]) /\
  fst (nested_submit echo_fn Fn [("fn", [VInt 1])] ∅ false (Some executor)
         default_submitter world0)
  = Raise (TypeError "got multiple values for argument").
Proof. split; vm_compute; reflexivity. Qed.

(** With an empty sequence in the tree, [zip] leaves no tree at all. *)
Example unzip_empty_sequence :
  unzip (VList [VList []; VList []]) 2 = Ok (VList []).
Proof. reflexivity. Qed.

(** A tree with two levels whose one leaf is a tuple of arity two, and an
    empty sequence beside it: [unzip] at level two returns no tree, not
    two. *)
Lemma unzip_empty_sequence_gives_no_tree :
  tuple_leaves 2 1 tree_empty_row = true /\
  leaves_of 1 tree_empty_row = [VTuple [VInt 1; VInt 2]] /\
  unzip tree_empty_row 2 = Ok (VList []) /\
  ~ (exists outs, unzip tree_empty_row 2 = Ok (VList outs) /\
                  length outs = 2%nat).
Proof.
  split; [reflexivity|]. split; [reflexivity|]. split; [reflexivity|].
  intros (outs & H & Hl). vm_compute in H. injection H as <-. discriminate.
Qed.

(** The two-output example of the tests, run without and with [split]:
    sequentially, in a process pool and as a deferred graph. *)
Example split_run_float_bool :
  fst (_combo_runner foo3_float_bool (@rev value) (fun _ => None) combos_ab
         constants_c false (PBool false) None SNone None false world0)
  = Ok tree_float_bool /\
  fst (_combo_runner foo3_float_bool (@rev value) (fun _ => None) combos_ab
         constants_c true (PBool false) None SNone None false world0)
  = Ok split_float_bool /\
  fst (_combo_runner foo3_float_bool (@rev value) (fun _ => None) combos_ab
         constants_c true (PBool true) (Some 2) SNone None false world0)
  = Ok split_float_bool /\
  fst (_combo_runner foo3_float_bool (@rev value) (fun _ => None) combos_ab
         constants_c true (PBool false) None (SGet (Strategy "threads")) None
         false world0)
  = Ok split_float_bool.
Proof. repeat split; vm_compute; reflexivity. Qed.

(** With a pool given, the scheduler argument is not read. *)
Example scheduler_unread_with_pool :
  fst (_combo_runner foo3_scalar (@rev value) (fun _ => None) combos_abc ∅
         false (PBool false) None (SName "z") (Some executor) false world0)
  = Ok tree_abc.
Proof. vm_compute. reflexivity. Qed.

(** A constant named like the innermost argument, and an unknown scheduler:
    the keyword error of the deferred submission comes first. *)
Example collision_before_scheduler :
  fst (_combo_runner foo3_scalar (@rev value) (fun _ => None) combos_a
         (<["a" := VInt 5]> constants_bc) false (PBool false) None
         (SName "z") None false world0)
  = Raise (TypeError "got multiple values for keyword argument").
Proof. vm_compute. reflexivity. Qed.

(** * Further properties *)

Lemma value_nested_ind (P : value -> Prop) :
  P VNone -> (forall b, P (VBool b)) -> (forall z, P (VInt z)) ->
  (forall xs, Forall P xs -> P (VTuple xs)) ->
  (forall xs, Forall P xs -> P (VList xs)) ->
  (forall id, P (VRef id)) -> forall v, P v.
Proof.
  intros HN HB HI HT HL HR. fix IH 1.
  intros [ | b | z | xs | xs | id]; [done..| | |done].
  - apply HT. induction xs as [|x xs IHxs]; constructor; [apply IH|exact IHxs].
  - apply HL. induction xs as [|x xs IHxs]; constructor; [apply IH|exact IHxs].
Qed.

(** ** The engines as flat loops *)

Lemma mapM_app {A B} (f : A -> M B) xs ys w :
  mapM f (xs ++ ys) w
  = match mapM f xs w with
    | (Ok a, w1) =>
        match mapM f ys w1 with
        | (Ok b, w2) => (Ok (a ++ b), w2)
        | (Raise e, w2) => (Raise e, w2)
        end
    | (Raise e, w1) => (Raise e, w1)
    end.
Proof.
  revert w. induction xs as [|x xs IH]; intros w; simpl.
  - unfold ret. by destruct (mapM f ys w) as [[b|e] w2].
  - unfold bind, ret. destruct (f x w) as [[y|e] w1]; [|done].
    rewrite IH.
    destruct (mapM f xs w1) as [[a|e] w2]; [|done].
    by destruct (mapM f ys w2) as [[b|e] w3].
Qed.

Lemma mapM_map {A B C} (f : B -> M C) (g : A -> B) xs w :
  mapM f (map g xs) w = mapM (fun x => f (g x)) xs w.
Proof.
  revert w. induction xs as [|x xs IH]; intros w; simpl; [done|].
  unfold bind at 1 3. destruct (f (g x) w) as [[y|e] w1]; [|done].
  unfold bind. by rewrite IH.
Qed.

Lemma mapM_length {A B} (f : A -> M B) xs w ys w' :
  mapM f xs w = (Ok ys, w') -> length ys = length xs.
Proof.
  intros H. apply mapM_ok_inv in H. symmetry. by eapply Forall2_length.
Qed.

Lemma mapR_Forall2 {A B} (f : A -> res B) xs ys :
  Forall2 (fun x y => f x = Ok y) xs ys -> mapR f xs = Ok ys.
Proof.
  induction 1 as [|x y xs ys Hx _ IH]; simpl; [done|]. by rewrite Hx, IH.
Qed.

Lemma mapM_concat_agrees {A K} (g : A -> M value) (h : A -> list K)
    (leaf : K -> M value) (Q : value -> list value -> Prop) xs :
  Forall (fun x => forall w, agrees Q (g x w) (mapM leaf (h x) w)) xs ->
  forall w,
    agrees (fun ts ls => exists chunks,
              Forall2 Q ts chunks /\ ls = concat chunks /\
              length ts = length xs)
      (mapM g xs w) (mapM leaf (concat (map h xs)) w).
Proof.
  induction 1 as [|x xs Hx _ IH]; intros w.
  - simpl. exists []. split; [done|]. exists []. by repeat split.
  - simpl concat. rewrite mapM_app. specialize (Hx w). unfold agrees in Hx.
    destruct (mapM leaf (h x) w) as [[b|e] w1].
    + destruct Hx as (t & Hg & Hq). specialize (IH w1). unfold agrees in IH.
      destruct (mapM leaf (concat (map h xs)) w1) as [[bs|e] w2].
      * destruct IH as (ts & Hm & chunks & HF & -> & Hl).
        exists (t :: ts). split.
        { simpl. by rewrite (bind_ok _ _ _ _ _ Hg), (bind_ok _ _ _ _ _ Hm). }
        exists (b :: chunks). split; [by constructor|]. split; [done|].
        simpl. by rewrite Hl.
      * simpl. rewrite (bind_ok _ _ _ _ _ Hg). by rewrite (bind_raise _ _ _ _ _ IH).
    + simpl. by rewrite (bind_raise _ _ _ _ _ Hx).
Qed.

Lemma list_shape_cons n ds ts :
  length ts = n -> Forall (fun t => list_shape ds t = true) ts ->
  list_shape (n :: ds) (VList ts) = true.
Proof.
  intros Hl Hf. simpl. apply andb_true_iff. split; [by apply Nat.eqb_eq|].
  apply forallb_forall. intros t Ht. apply list_elem_of_In in Ht.
  by apply (proj1 (Forall_forall _ _) Hf).
Qed.

Lemma nested_submit_flat fn f delay pool submitter rest :
  forall arg inputs kwds w,
    agrees (fun t leaves =>
              list_shape (dims_of ((arg, inputs) :: rest)) t = true /\
              flatten_levels (length rest) t = Ok leaves)
      (nested_submit fn f ((arg, inputs) :: rest) kwds delay pool submitter w)
      (mapM (leaf_round fn f delay pool submitter)
            (leaf_calls ((arg, inputs) :: rest) kwds) w).
Proof.
  induction rest as [|[arg' inputs'] rest' IH]; intros arg inputs kwds w.
  - rewrite nested_submit_innermost. simpl leaf_calls. rewrite mapM_map.
    change (mapM (fun x => leaf_round fn f delay pool submitter
                              (merge_kwargs kwds arg x)) inputs w)
      with (mapM (fun x => kw <- lift (merge_kwargs kwds arg x) ;;
                           leaf_op fn f delay pool submitter kw) inputs w).
    unfold agrees.
    destruct (mapM _ inputs w) as [[ys|e] w'] eqn:Hm;
      [|by rewrite (bind_raise _ _ _ _ _ Hm)].
    exists (VList ys). rewrite (bind_ok _ _ _ _ _ Hm).
    split; [done|]. split; [|done].
    apply list_shape_cons; [by eapply mapM_length|]. by apply Forall_forall.
  - change (nested_submit fn f ((arg, inputs) :: (arg', inputs') :: rest') kwds
              delay pool submitter)
      with (xs <- mapM (fun x => nested_submit fn f ((arg', inputs') :: rest')
                                   (<[arg := x]> kwds) delay pool submitter)
                    inputs ;; ret (VList xs)).
    change (leaf_calls ((arg, inputs) :: (arg', inputs') :: rest') kwds)
      with (concat (map (fun x => leaf_calls ((arg', inputs') :: rest')
                                    (<[arg := x]> kwds)) inputs)).
    pose proof (mapM_concat_agrees
                  (fun x => nested_submit fn f ((arg', inputs') :: rest')
                              (<[arg := x]> kwds) delay pool submitter)
                  (fun x => leaf_calls ((arg', inputs') :: rest')
                              (<[arg := x]> kwds))
                  (leaf_round fn f delay pool submitter)
                  (fun t leaves =>
                     list_shape (dims_of ((arg', inputs') :: rest')) t = true /\
                     flatten_levels (length rest') t = Ok leaves)
                  inputs) as Hc.
    specialize (Hc (proj2 (Forall_forall _ _)
                      (fun x _ w0 => IH arg' inputs' (<[arg := x]> kwds) w0)) w).
    unfold agrees in *.
    destruct (mapM _ (concat _) w) as [[ls|e] w'].
    + destruct Hc as (ts & Hm & chunks & HF & -> & Hl).
      exists (VList ts). rewrite (bind_ok _ _ _ _ _ Hm). split; [done|]. split.
      * rewrite dims_of_cons. apply list_shape_cons; [done|].
        apply Forall_forall. intros t Ht.
        destruct (proj1 (list_elem_of_lookup _ _) Ht) as [i Hi].
        by destruct (Forall2_lookup_l _ _ _ _ _ HF Hi) as (c & _ & Hq & _).
      * simpl. rewrite (mapR_Forall2 _ ts chunks); [done|].
        eapply Forall2_impl; [exact HF|]. by intros t c [_ Hq].
    + by rewrite (bind_raise _ _ _ _ _ Hc).
Qed.

Lemma nested_get_flat getter ds :
  forall n t, has_shape (n :: ds) t = true -> forall w,
    agrees (fun r ys => list_shape (n :: ds) r = true /\
                        flatten_levels (length ds) r = Ok ys)
      (nested_get getter t (Z.of_nat (S (length ds))) w)
      (mapM getter (leaves_of (length ds) t) w).
Proof.
  induction ds as [|m ds' IH]; intros n t Hs w;
    apply has_shape_cons in Hs as (xs & Hi & Hl & Hf);
    rewrite (nested_get_unfold _ _ _ _ Hi).
  - change (Z.of_nat (S (length [])) =? 1) with true. cbv iota.
    simpl leaves_of. rewrite (items_elems _ _ Hi). unfold agrees.
    destruct (mapM getter xs w) as [[ys|e] w'] eqn:Hm;
      [|by rewrite (bind_raise _ _ _ _ _ Hm)].
    exists (VList ys). rewrite (bind_ok _ _ _ _ _ Hm).
    split; [done|]. split; [|done].
    apply list_shape_cons; [|by apply Forall_forall].
    rewrite <- Hl. by eapply mapM_length.
  - assert ((Z.of_nat (S (length (m :: ds'))) =? 1) = false) as ->
        by (apply Z.eqb_neq; simpl length; lia).
    simpl leaves_of. rewrite (items_elems _ _ Hi).
    pose proof (mapM_concat_agrees
                  (fun fut => nested_get getter fut
                                (Z.of_nat (S (length (m :: ds'))) - 1))
                  (leaves_of (length ds')) getter
                  (fun r ys => list_shape (m :: ds') r = true /\
                               flatten_levels (length ds') r = Ok ys)
                  xs) as Hc.
    assert (Forall (fun x => forall w0,
              agrees (fun r ys => list_shape (m :: ds') r = true /\
                                  flatten_levels (length ds') r = Ok ys)
                (nested_get getter x (Z.of_nat (S (length (m :: ds'))) - 1) w0)
                (mapM getter (leaves_of (length ds') x) w0)) xs) as Hsub.
    { eapply Forall_impl; [exact Hf|]. intros x Hx w0.
      replace (Z.of_nat (S (length (m :: ds'))) - 1)
        with (Z.of_nat (S (length ds'))) by (simpl length; lia).
      by apply IH. }
    specialize (Hc Hsub w). unfold agrees in *.
    destruct (mapM getter (concat _) w) as [[ls|e] w'].
    + destruct Hc as (ts & Hm & chunks & HF & -> & Hlen).
      exists (VList ts). rewrite (bind_ok _ _ _ _ _ Hm). split; [done|]. split.
      * apply list_shape_cons; [lia|]. apply Forall_forall. intros r Hr.
        destruct (proj1 (list_elem_of_lookup _ _) Hr) as [i Hi'].
        by destruct (Forall2_lookup_l _ _ _ _ _ HF Hi') as (c & _ & Hq & _).
      * simpl. rewrite (mapR_Forall2 _ ts chunks); [done|].
        eapply Forall2_impl; [exact HF|]. by intros r c [_ Hq].
    + by rewrite (bind_raise _ _ _ _ _ Hc).
Qed.

Lemma flatten_of_nat_S t n :
  flatten t (Z.of_nat (S n)) = flatten_levels n t.
Proof. unfold flatten. f_equal. lia. Qed.

(** ** The combinations, one by one *)

Lemma leaf_calls_fresh rest :
  forall arg inputs kwds,
    names_fresh ((arg, inputs) :: rest) kwds ->
    leaf_calls ((arg, inputs) :: rest) kwds
    = map Ok (all_kwargs ((arg, inputs) :: rest) kwds).
Proof.
  induction rest as [|[arg' inputs'] rest' IH]; intros arg inputs kwds Hfresh.
  - pose proof (names_fresh_head _ _ _ _ Hfresh) as Harg. clear Hfresh. simpl.
    induction inputs as [|x inputs IHx]; simpl; [done|].
    rewrite IHx. unfold merge_kwargs at 1. by rewrite Harg.
  - change (leaf_calls ((arg, inputs) :: (arg', inputs') :: rest') kwds)
      with (concat (map (fun x => leaf_calls ((arg', inputs') :: rest')
                                    (<[arg := x]> kwds)) inputs)).
    change (all_kwargs ((arg, inputs) :: (arg', inputs') :: rest') kwds)
      with (concat (map (fun x => all_kwargs ((arg', inputs') :: rest')
                                    (<[arg := x]> kwds)) inputs)).
    assert (forall x, names_fresh ((arg', inputs') :: rest')
                        (<[arg := x]> kwds)) as Htail
      by (intros x; by eapply names_fresh_tail).
    clear Hfresh.
    induction inputs as [|x inputs IHx]; [done|].
    rewrite !map_cons, !concat_cons, map_app, IHx. f_equal. by apply IH.
Qed.

Lemma all_kwargs_length combos kwds :
  length (all_kwargs combos kwds) = product (dims_of combos).
Proof.
  revert kwds. induction combos as [|[arg inputs] rest IH]; intros kwds;
    [done|].
  simpl all_kwargs. rewrite dims_of_cons.
  rewrite (length_concat_const _ (product (dims_of rest))).
  - by rewrite length_map.
  - apply Forall_map, Forall_forall. intros x _. apply IH.
Qed.

Lemma leaf_calls_length rest :
  forall arg inputs kwds,
    length (leaf_calls ((arg, inputs) :: rest) kwds)
    = product (dims_of ((arg, inputs) :: rest)).
Proof.
  induction rest as [|[arg' inputs'] rest' IH]; intros arg inputs kwds.
  - simpl. rewrite length_map. lia.
  - change (leaf_calls ((arg, inputs) :: (arg', inputs') :: rest') kwds)
      with (concat (map (fun x => leaf_calls ((arg', inputs') :: rest')
                                    (<[arg := x]> kwds)) inputs)).
    rewrite dims_of_cons.
    rewrite (length_concat_const _ (product (dims_of ((arg', inputs') :: rest')))).
    + by rewrite length_map.
    + apply Forall_map, Forall_forall. intros x _. apply IH.
Qed.

Lemma prod_combos arg inputs rest :
  prod (map (fun c : string * list value => Z.of_nat (length (snd c)))
          ((arg, inputs) :: rest))
  = Ok (Z.of_nat (product (dims_of ((arg, inputs) :: rest)))).
Proof.
  rewrite dims_of_cons, <- prod_dims. f_equal. simpl. f_equal.
  unfold dims_of. by rewrite map_map.
Qed.

Lemma leaf_calls_empty rest :
  forall arg inputs kwds,
    (exists c, c ∈ (arg, inputs) :: rest /\ snd c = []) ->
    leaf_calls ((arg, inputs) :: rest) kwds = [].
Proof.
  induction rest as [|[arg' inputs'] rest' IH]; intros arg inputs kwds
    (c & Hc & Hnil).
  - apply list_elem_of_singleton in Hc as ->. simpl in Hnil. by subst.
  - change (leaf_calls ((arg, inputs) :: (arg', inputs') :: rest') kwds)
      with (concat (map (fun x => leaf_calls ((arg', inputs') :: rest')
                                    (<[arg := x]> kwds)) inputs)).
    apply elem_of_cons in Hc as [-> | Hc].
    + simpl in Hnil. by subst.
    + induction inputs as [|x inputs IHx]; [done|].
      rewrite map_cons, concat_cons, IHx. rewrite IH; [done|]. by exists c.
Qed.

Lemma nested_submit_agrees fn f combos kwds delay pool submitter w :
  combos <> [] ->
  agrees (fun t leaves =>
            list_shape (dims_of combos) t = true /\
            flatten t (Z.of_nat (length combos)) = Ok leaves)
    (nested_submit fn f combos kwds delay pool submitter w)
    (mapM (leaf_round fn f delay pool submitter) (leaf_calls combos kwds) w).
Proof.
  intros Hne. destruct combos as [|[arg inputs] rest]; [done|].
  pose proof (nested_submit_flat fn f delay pool submitter rest arg inputs
                kwds w) as H.
  unfold agrees in *. destruct (mapM _ _ w) as [[ls|e] w']; [|done].
  destruct H as (t & Hs & Hsh & Hfl). exists t. split; [done|].
  split; [done|]. simpl length. by rewrite flatten_of_nat_S.
Qed.

Lemma prod_ne combos :
  combos <> [] ->
  prod (map (fun c : string * list value => Z.of_nat (length (snd c))) combos)
  = Ok (Z.of_nat (product (dims_of combos))).
Proof. destruct combos as [|[arg inputs] rest]; [done|]. intros _. apply prod_combos. Qed.

Lemma leaf_calls_fresh_ne combos kwds :
  combos <> [] -> names_fresh combos kwds ->
  leaf_calls combos kwds = map Ok (all_kwargs combos kwds).
Proof.
  destruct combos as [|[arg inputs] rest]; [done|]. intros _.
  apply leaf_calls_fresh.
Qed.

(** ** Configuration errors *)

Lemma leaf_calls_outcomes combos :
  forall kwds, Forall merge_outcome (leaf_calls combos kwds).
Proof.
  induction combos as [|[arg inputs] rest IH]; intros kwds; [constructor|].
  destruct rest as [|c rest'].
  - simpl. apply Forall_map, Forall_forall. intros x _.
    unfold merge_kwargs. by destruct (kwds !! arg).
  - change (leaf_calls ((arg, inputs) :: c :: rest') kwds)
      with (concat (map (fun x => leaf_calls (c :: rest')
                                    (<[arg := x]> kwds)) inputs)).
    apply Forall_concat, Forall_map, Forall_forall. intros x _. apply IH.
Qed.

(** The flat loop of the deferred submission: nothing but deferred nodes
    is added to the heap, the trace stays, and the loop stops only at a
    repeated keyword. *)
Lemma deferred_flat fn f rks :
  Forall merge_outcome rks ->
  forall w, exists r objs,
    mapM (leaf_round fn f true None default_submitter) rks w
    = (r, World (heap w ++ objs) (trace w)) /\
    Forall is_delayed objs /\
    match r with
    | Ok _ => True
    | Raise e => e = TypeError "got multiple values for keyword argument"
    end.
Proof.
  induction 1 as [|rk rks Hrk _ IH]; intros w.
  - exists (Ok []), []. simpl. unfold ret. destruct w. simpl.
    by rewrite app_nil_r.
  - cbn [mapM]. destruct rk as [kw|e].
    + assert (leaf_round fn f true None default_submitter (Ok kw) w
              = (Ok (VRef (length (heap w))),
                 World (heap w ++ [Delayed f kw]) (trace w))) as Hr by done.
      rewrite (bind_ok _ _ _ _ _ Hr).
      destruct (IH (World (heap w ++ [Delayed f kw]) (trace w)))
        as (r & objs & Hm & Hobjs & Hres).
      cbn [heap trace] in Hm. unfold bind, ret. rewrite Hm.
      rewrite <- app_assoc.
      destruct r as [vs|e].
      * eexists (Ok _), _. split; [reflexivity|]. split; [|done].
        by constructor.
      * exists (Raise e), (Delayed f kw :: objs). split; [done|].
        split; [by constructor|done].
    + simpl in Hrk. subst e.
      exists (Raise (TypeError "got multiple values for keyword argument")),
        [].
      split; [|by split].
      unfold bind, leaf_round, bind, lift. destruct w. simpl.
      by rewrite app_nil_r.
Qed.

Lemma deferred_flat_submit fn f kws :
  forall w,
    mapM (leaf_round fn f true None default_submitter) (map Ok kws) w
    = (Ok (map VRef (seq (length (heap w)) (length kws))),
       World (heap w ++ map (Delayed f) kws) (trace w)).
Proof.
  induction kws as [|kw kws IH]; intros w.
  - simpl. unfold ret. destruct w. simpl. by rewrite app_nil_r.
  - cbn [map mapM]. unfold bind at 1.
    assert (leaf_round fn f true None default_submitter (Ok kw) w
            = (Ok (VRef (length (heap w))),
               World (heap w ++ [Delayed f kw]) (trace w))) as -> by done.
    unfold bind at 1. rewrite IH. unfold ret. cbn [heap trace length seq map].
    rewrite length_app. cbn [length].
    replace (length (heap w) + 1)%nat with (S (length (heap w))) by lia.
    by rewrite <- app_assoc.
Qed.

(** C6. A scheduler given by a non-empty name that is not known, and a
    function [fn]. With no pool and [parallel] other than mpi the runner
    takes the deferred-graph path, through [parallel='dask'] or through
    the scheduler itself, and the run raises: the calling thread has run
    no call and advanced no bar, nothing has been registered with a pool,
    and the heap has gained deferred nodes only. Under the data model's
    invariants (a non-empty combination list, names distinct and disjoint
    from the constants) the exception is the configuration error and it
    comes after the deferred submission of the whole grid: the heap has
    gained one deferred node per combination, in row-major order. Without
    them the exception may be the earlier [TypeError] of the empty product
    or of a repeated keyword. With a pool, or with [parallel='mpi'], the
    scheduler argument is not read: the run is the run without a
    scheduler. *)
Theorem unknown_scheduler_raises_after_deferred_submission
    (fn : kwargs -> res value) (as_completed : list value -> list value)
    (known_scheduler : string -> option strategy)
    (combos : combos_t) (constants : kwargs) (split : bool)
    (parallel : parallel_t) (num_workers : option Z) (s : string)
    (hide : bool) (w : world) :
  s <> "" ->
  known_scheduler s = None ->
  (parallel_is parallel "mpi" = false ->
   exists e objs,
     _combo_runner fn as_completed known_scheduler combos constants split
       parallel num_workers (SName s) None hide w
     = (Raise e, World (heap w ++ objs) (trace w)) /\
     Forall is_delayed objs /\
     (e = ValueError "unknown scheduler" \/
      e = TypeError "reduce() of empty sequence with no initial value" \/
      e = TypeError "got multiple values for keyword argument") /\
     (combos <> [] -> names_fresh combos constants ->
      e = ValueError "unknown scheduler" /\
      objs = map (Delayed Fn) (all_kwargs combos constants))) /\
  (forall scheduler p,
     _combo_runner fn as_completed known_scheduler combos constants split
       parallel num_workers scheduler (Some p) hide w
     = _combo_runner fn as_completed known_scheduler combos constants split
         parallel num_workers SNone (Some p) hide w) /\
  (forall scheduler,
     parallel_is parallel "mpi" = true ->
     _combo_runner fn as_completed known_scheduler combos constants split
       parallel num_workers scheduler None hide w
     = _combo_runner fn as_completed known_scheduler combos constants split
         parallel num_workers SNone None hide w).
Proof.
  intros Hs Hknown. split; [|split].
  - intros Hmpi. destruct (decide (combos = [])) as [-> | Hne].
    { exists (TypeError "reduce() of empty sequence with no initial value"),
        [].
      rewrite app_nil_r. destruct w. split; [by rewrite _combo_runner_eq|].
      split; [constructor|]. split; [by right; left|done]. }
    assert (scheduler_truthy (SName s) = true) as Htruthy.
    { simpl. apply negb_true_iff, String.eqb_neq. done. }
    pose proof (nested_submit_agrees fn Fn combos constants true None
                  default_submitter w Hne) as Hag.
    destruct (deferred_flat fn Fn _ (leaf_calls_outcomes combos constants) w)
      as (r & objs & Hflat & Hobjs & Hres).
    rewrite Hflat in Hag.
    assert (forall r',
              nested_submit fn Fn combos constants true None
                default_submitter w
              = (r', World (heap w ++ objs) (trace w)) ->
              _combo_runner fn as_completed known_scheduler combos constants
                split parallel num_workers (SName s) None hide w
              = (Raise (match r' with
                        | Ok _ => ValueError "unknown scheduler"
                        | Raise e => e
                        end), World (heap w ++ objs) (trace w))) as Hrun.
    { intros r' Hsub. rewrite _combo_runner_eq.
      unfold bind at 1. unfold lift at 1. rewrite (prod_ne _ Hne).
      unfold dispatch. rewrite Hmpi, Htruthy, orb_true_r.
      unfold bind at 1. rewrite bind_get_fn_name.
      destruct r' as [tj|e].
      - rewrite (bind_ok _ _ _ _ _ Hsub).
        unfold bind at 1. unfold dask_scheduler_get. by rewrite Hknown.
      - by rewrite (bind_raise _ _ _ _ _ Hsub). }
    destruct r as [ls|e]; unfold agrees in Hag.
    + destruct Hag as (tj & Hsub & _).
      exists (ValueError "unknown scheduler"), objs.
      split; [exact (Hrun _ Hsub)|]. split; [done|]. split; [by left|].
      intros _ Hfresh. split; [done|].
      rewrite (leaf_calls_fresh_ne _ _ Hne Hfresh) in Hflat.
      rewrite deferred_flat_submit in Hflat.
      injection Hflat as _ Hheap. by apply app_inv_head in Hheap.
    + exists e, objs. split; [exact (Hrun _ Hag)|]. split; [done|].
      split; [by right; right|].
      intros _ Hfresh.
      rewrite (leaf_calls_fresh_ne _ _ Hne Hfresh) in Hflat.
      by rewrite deferred_flat_submit in Hflat.
  - reflexivity.
  - intros scheduler Hmpi. rewrite !_combo_runner_eq. unfold dispatch.
    by rewrite Hmpi.
Qed.

Lemma unknown_scheduler_raises_after_deferred_submission_witness :
  "z" <> "" /\
  (parallel_is (PBool false) "mpi" = false ->
   exists e objs,
     _combo_runner foo3_scalar (@rev value) (fun _ => None) combos_ab ∅ false
       (PBool false) (Some 2) (SName "z") None false world0
     = (Raise e, World (heap world0 ++ objs) (trace world0)) /\
     Forall is_delayed objs /\
     (e = ValueError "unknown scheduler" \/
      e = TypeError "reduce() of empty sequence with no initial value" \/
      e = TypeError "got multiple values for keyword argument") /\
     (combos_ab <> [] -> names_fresh combos_ab ∅ ->
      e = ValueError "unknown scheduler" /\
      objs = map (Delayed Fn) (all_kwargs combos_ab ∅))) /\
  (forall scheduler p,
     _combo_runner foo3_scalar (@rev value) (fun _ => None) combos_ab ∅ false
       (PBool false) (Some 2) scheduler (Some p) false world0
     = _combo_runner foo3_scalar (@rev value) (fun _ => None) combos_ab ∅ false
         (PBool false) (Some 2) SNone (Some p) false world0) /\
  (forall scheduler,
     parallel_is (PBool false) "mpi" = true ->
     _combo_runner foo3_scalar (@rev value) (fun _ => None) combos_ab ∅ false
       (PBool false) (Some 2) scheduler None false world0
     = _combo_runner foo3_scalar (@rev value) (fun _ => None) combos_ab ∅ false
         (PBool false) (Some 2) SNone None false world0).
Proof.
  split; [discriminate|].
  apply (unknown_scheduler_raises_after_deferred_submission foo3_scalar
           (@rev value) (fun _ => None) combos_ab ∅ false (PBool false)
           (Some 2) "z" false world0).
  - discriminate.
  - reflexivity.
Defined.

(** The run of the tests with the scheduler name z: when the configuration
    error is raised the six deferred nodes of the grid are on the heap;
    and with a pool or with [parallel='mpi'] the same name raises nothing. *)
Lemma unknown_scheduler_grid_submitted_first :
  _combo_runner foo3_scalar (@rev value) (fun _ => None) combos_ab ∅ false
    (PBool false) (Some 2) (SName "z") None false world0
  = (Raise (ValueError "unknown scheduler"),
     World (map (Delayed Fn) (all_kwargs combos_ab ∅)) []) /\
  length (all_kwargs combos_ab ∅) = 6%nat /\
  fst (_combo_runner foo3_scalar (@rev value) (fun _ => None) combos_abc ∅
         false (PBool false) (Some 2) (SName "z") (Some executor) false
         world0)
  = Ok tree_abc /\
  fst (_combo_runner foo3_scalar (@rev value) (fun _ => None) combos_abc ∅
         false (PStr "mpi") (Some 2) (SName "z") None false world0)
  = Ok tree_abc.
Proof. repeat split; vm_compute; reflexivity. Qed.

Lemma call_update_round fn kw w :
  call fn (UpdateUponEval Fn) kw w
  = match fn kw with
    | Ok v => (Ok v, after w (call_round kw))
    | Raise e => (Raise e, after w [Call kw])
    end.
Proof.
  simpl. unfold bind, emit, lift, pbar_update, emit, ret, after, call_round.
  simpl. destruct (fn kw); simpl; [by rewrite <- app_assoc|done].
Qed.

Lemma mapM_rounds_ok fn kws :
  Forall (fun kw => exists v, fn kw = Ok v) kws ->
  forall w, exists vs,
    mapM (call fn (UpdateUponEval Fn)) kws w
    = (Ok vs, after w (concat (map call_round kws))) /\
    Forall2 (fun kw v => fn kw = Ok v) kws vs.
Proof.
  induction 1 as [|kw kws [v Hv] _ IH]; intros w.
  - exists []. simpl. unfold ret. by rewrite after_nil.
  - destruct (IH (after w (call_round kw))) as (vs & Hm & HF).
    exists (v :: vs). split; [|by constructor].
    cbn [mapM]. unfold bind at 1. rewrite call_update_round, Hv.
    rewrite (bind_ok _ _ _ _ _ Hm). unfold ret.
    by rewrite after_after.
Qed.

Lemma mapM_rounds_fail fn pre kw post e w :
  Forall (fun kw => exists v, fn kw = Ok v) pre ->
  fn kw = Raise e ->
  mapM (call fn (UpdateUponEval Fn)) (pre ++ kw :: post) w
  = (Raise e, after w (concat (map call_round pre) ++ [Call kw])).
Proof.
  intros Hpre Hkw. rewrite mapM_app.
  destruct (mapM_rounds_ok fn pre Hpre w) as (vs & -> & _).
  rewrite (mapM_first_raises _ _ _ _ e (after (after w (concat (map call_round pre))) [Call kw])).
  - by rewrite after_after.
  - by rewrite call_update_round, Hkw.
Qed.

Lemma direct_rounds fn f submitter kws w :
  mapM (leaf_round fn f false None submitter) (map Ok kws) w
  = mapM (call fn f) kws w.
Proof. rewrite mapM_map. by apply mapM_ext. Qed.

Lemma finish_world split t ndim w : snd (finish split t ndim w) = w.
Proof.
  unfold finish. destruct split; [|done]. unfold bind, lift, ret.
  by destruct (res_bind (unzip t ndim) iter).
Qed.

Lemma sequential_dispatch fn ac ks combos constants hide n :
  dispatch fn ac ks combos constants (PBool false) None SNone None hide n
  = nested_submit fn (update_upon_eval Fn) combos constants false None
      default_submitter.
Proof. reflexivity. Qed.

(** X3. When every combination's call returns, the sequential run calls the
    function once per combination, in row-major order, and advances the
    bar once after each call; nothing else happens to the world, and the
    total [n] that [prod] computes is the number of these calls. *)
Theorem sequential_calls_each_once_in_order
    (fn : kwargs -> res value) (as_completed : list value -> list value)
    (known_scheduler : string -> option strategy)
    (combos : combos_t) (constants : kwargs) (split hide : bool) (w : world) :
  combos <> [] ->
  names_fresh combos constants ->
  Forall (fun kw => exists v, fn kw = Ok v) (all_kwargs combos constants) ->
  snd (_combo_runner fn as_completed known_scheduler combos constants split
         (PBool false) None SNone None hide w)
  = after w (concat (map call_round (all_kwargs combos constants))) /\
  prod (map (fun c => Z.of_nat (length (snd c))) combos)
  = Ok (Z.of_nat (length (all_kwargs combos constants))).
Proof.
  intros Hne Hfresh Hok. split; [|by rewrite all_kwargs_length, prod_ne].
  rewrite _combo_runner_eq. unfold bind at 1. unfold lift at 1.
  rewrite (prod_ne _ Hne). rewrite sequential_dispatch.
  pose proof (nested_submit_agrees fn (update_upon_eval Fn) combos constants
                false None default_submitter w Hne) as H.
  rewrite (leaf_calls_fresh_ne _ _ Hne Hfresh), direct_rounds in H.
  destruct (mapM_rounds_ok fn _ Hok w) as (vs & Hm & _).
  unfold update_upon_eval in H. rewrite Hm in H.
  destruct H as (t & Hs & _). rewrite (bind_ok _ _ _ _ _ Hs).
  apply finish_world.
Qed.

(** X4. When the calls of the combinations [pre] return and the call of the
    next combination raises [e], the sequential run raises [e]: the calls
    of [pre] were made, each followed by one update of the bar, the
    failing call was made and not followed by an update, and no later
    combination is called. *)
Theorem sequential_stops_at_first_failure
    (fn : kwargs -> res value) (as_completed : list value -> list value)
    (known_scheduler : string -> option strategy)
    (combos : combos_t) (constants : kwargs) (split hide : bool) (w : world)
    (pre post : list kwargs) (kw : kwargs) (e : exn) :
  combos <> [] ->
  names_fresh combos constants ->
  all_kwargs combos constants = pre ++ kw :: post ->
  Forall (fun kw => exists v, fn kw = Ok v) pre ->
  fn kw = Raise e ->
  _combo_runner fn as_completed known_scheduler combos constants split
    (PBool false) None SNone None hide w
  = (Raise e, after w (concat (map call_round pre) ++ [Call kw])).
Proof.
  intros Hne Hfresh Hall Hpre Hkw.
  rewrite _combo_runner_eq. unfold bind at 1. unfold lift at 1.
  rewrite (prod_ne _ Hne). rewrite sequential_dispatch.
  pose proof (nested_submit_agrees fn (update_upon_eval Fn) combos constants
                false None default_submitter w Hne) as H.
  rewrite (leaf_calls_fresh_ne _ _ Hne Hfresh), direct_rounds, Hall in H.
  unfold update_upon_eval in H.
  rewrite (mapM_rounds_fail fn pre kw post e w Hpre Hkw) in H.
  by rewrite (bind_raise _ _ _ _ _ H).
Qed.

(** X5. When some value sequence is empty, [nested_submit] returns in any
    mode without running a single leaf operation: the world is unchanged,
    the tree has the Cartesian shape and no leaf, and the total that
    [prod] computes is 0. *)
Theorem empty_sequence_runs_nothing
    (fn : kwargs -> res value) (f : callable) (combos : combos_t)
    (kwds : kwargs) (delay : bool) (pool : option pool_obj)
    (submitter : pool_obj -> callable -> kwargs -> M value) (w : world) :
  (exists c, c ∈ combos /\ snd c = []) ->
  exists t,
    nested_submit fn f combos kwds delay pool submitter w = (Ok t, w) /\
    list_shape (dims_of combos) t = true /\
    flatten t (Z.of_nat (length combos)) = Ok [] /\
    prod (map (fun c => Z.of_nat (length (snd c))) combos) = Ok 0.
Proof.
  intros Hc.
  assert (combos <> []) as Hne.
  { destruct Hc as (c & Hin & _). intros ->. by apply elem_of_nil in Hin. }
  pose proof (nested_submit_agrees fn f combos kwds delay pool submitter w Hne)
    as H.
  assert (leaf_calls combos kwds = []) as Hnil.
  { destruct combos as [|[arg inputs] rest]; [done|].
    by apply leaf_calls_empty. }
  rewrite Hnil in H. simpl in H. destruct H as (t & Hs & Hsh & Hfl).
  exists t. split; [done|]. split; [done|]. split; [done|].
  rewrite (prod_ne _ Hne). do 2 f_equal.
  destruct combos as [|[arg inputs] rest]; [done|].
  rewrite <- (leaf_calls_length rest arg inputs kwds), Hnil. done.
Qed.

(** ** The progress bar *)

Lemma ticks_refl w : ticks 0 w w.
Proof. exists []. by rewrite app_nil_r. Qed.

Lemma updates_app e1 e2 : updates (e1 ++ e2) = (updates e1 + updates e2)%nat.
Proof. unfold updates. by rewrite List.filter_app, length_app. Qed.

Lemma ticks_trans a b w1 w2 w3 :
  ticks a w1 w2 -> ticks b w2 w3 -> ticks (a + b) w1 w3.
Proof.
  intros (e1 & H1 & <-) (e2 & H2 & <-). exists (e1 ++ e2).
  by rewrite H2, H1, app_assoc, updates_app.
Qed.

Lemma mapM_ticks {A B} (f : A -> M B) k xs :
  (forall x w y w', f x w = (Ok y, w') -> ticks k w w') ->
  forall w ys w', mapM f xs w = (Ok ys, w') -> ticks (length xs * k) w w'.
Proof.
  intros Hf. induction xs as [|x xs IH]; intros w ys w' Hm.
  - simpl in Hm. unfold ret in Hm. injection Hm as _ <-. apply ticks_refl.
  - cbn [mapM] in Hm. apply bind_ok_inv in Hm as (y & w1 & Hx & Hm).
    apply bind_ok_inv in Hm as (ys' & w2 & Hm & Hr).
    unfold ret in Hr. injection Hr as _ <-.
    simpl. eapply ticks_trans; [by eapply Hf|by eapply IH].
Qed.

Lemma agrees_ok_inv {A B} (Q : A -> B -> Prop) a w1 l :
  agrees Q (Ok a, w1) l -> exists b, l = (Ok b, w1) /\ Q a b.
Proof.
  unfold agrees. destruct l as [[b|e] w']; [|done].
  intros (a' & [= -> ->] & Hq). by exists b.
Qed.

Lemma ticks_trace k w w' : trace w' = trace w -> k = 0%nat -> ticks k w w'.
Proof. intros H ->. exists []. by rewrite app_nil_r. Qed.

Lemma py_result_world fn v w : snd (py_result fn v w) = w.
Proof.
  unfold py_result. destruct v; try done.
  by destruct (heap w !! id) as [[|f kw [] hg st]|].
Qed.

Lemma py_get_world fn v w : snd (py_get fn v w) = w.
Proof.
  unfold py_get. destruct v; try done.
  by destruct (heap w !! id) as [[|f kw hr [] st]|].
Qed.

Lemma accessor_world fn v w :
  snd (try_except_AttributeError (py_result fn v) (py_get fn v) w) = w.
Proof.
  unfold try_except_AttributeError.
  pose proof (py_result_world fn v w) as H1.
  destruct (py_result fn v w) as [[r|e] w1]; simpl in H1; subst w1; [done|].
  destruct e; try done. apply py_get_world.
Qed.

Lemma default_getter_ticks fn pbar v w r w' :
  default_getter fn pbar v w = (Ok r, w') ->
  ticks (if pbar then 1 else 0) w w'.
Proof.
  rewrite default_getter_unfold. pose proof (accessor_world fn v w) as H.
  destruct (try_except_AttributeError _ _ w) as [[r1|e] w1]; simpl in H;
    subst w1; [|done].
  unfold resolved. intros [= _ <-]. destruct pbar.
  - by exists [Update].
  - apply ticks_refl.
Qed.

Lemma try_stored_then_result_world fn v w :
  snd (try_stored_then_result fn v w) = w.
Proof.
  unfold try_stored_then_result. destruct v; try apply py_result_world.
  destruct (heap w !! id) as [[|f kw hr hg [r|]]|]; try apply py_result_world.
  done.
Qed.

Lemma set_stored_result_trace v r w u w' :
  set_stored_result v r w = (u, w') -> trace w' = trace w.
Proof.
  unfold set_stored_result. destruct v; try by intros [= _ <-].
  destruct (heap w !! id) as [[|f kw hr hg st]|]; by intros [= _ <-].
Qed.

Lemma store_round_ticks fn v w u w' :
  (r <- py_result fn v ;; set_stored_result v r ;;; pbar_update) w
  = (Ok u, w') ->
  ticks 1 w w'.
Proof.
  intros H. apply bind_ok_inv in H as (r & w1 & Hr & H).
  pose proof (py_result_world fn v w) as Hw. rewrite Hr in Hw. simpl in Hw.
  subst w1. apply bind_ok_inv in H as ([] & w2 & Hs & H).
  apply set_stored_result_trace in Hs.
  unfold pbar_update, emit in H. injection H as _ <-.
  exists [Update]. simpl. by rewrite Hs.
Qed.

Lemma leaf_round_ticks fn f delay pool rk w v w' :
  leaf_round fn f delay pool default_submitter rk w = (Ok v, w') ->
  match pool, delay, f with
  | None, false, UpdateUponEval Fn => ticks 1 w w'
  | None, false, _ => True
  | _, _, _ => ticks 0 w w'
  end.
Proof.
  unfold leaf_round. intros H. apply bind_ok_inv in H as (kw & w1 & Hl & H).
  unfold lift in Hl. injection Hl as -> <-. unfold leaf_op in H.
  destruct pool as [p|].
  - apply default_submitter_ok in H as (_ & -> & _). by apply ticks_trace.
  - destruct delay.
    + rewrite delayed_spec in H. injection H as _ <-. by apply ticks_trace.
    + destruct f as [|[|g]]; [done| |done].
      rewrite call_update_round in H. destruct (fn kw); [|done].
      injection H as _ <-. by exists (call_round kw).
Qed.

(** A submission that returns took one leaf round per combination. *)
Lemma nested_submit_ticks fn f delay pool combos kwds k w t w' :
  (forall rk w v w',
     leaf_round fn f delay pool default_submitter rk w = (Ok v, w') ->
     ticks k w w') ->
  nested_submit fn f combos kwds delay pool default_submitter w = (Ok t, w') ->
  combos <> [] /\
  ticks (product (dims_of combos) * k) w w' /\
  list_shape (dims_of combos) t = true.
Proof.
  intros Hk Hs.
  assert (combos <> []) as Hne by (by intros ->).
  split; [done|].
  pose proof (nested_submit_agrees fn f combos kwds delay pool
                default_submitter w Hne) as H.
  rewrite Hs in H. apply agrees_ok_inv in H as (ls & Hm & Hsh & Hfl).
  split; [|done].
  apply (mapM_ticks _ k _ Hk) in Hm.
  destruct combos as [|[arg inputs] rest]; [done|].
  by rewrite leaf_calls_length in Hm.
Qed.

Lemma nested_get_agrees getter dims t w :
  dims <> [] -> has_shape dims t = true ->
  exists leaves,
    flatten t (Z.of_nat (length dims)) = Ok leaves /\
    agrees (fun r ys =>
              list_shape dims r = true /\
              flatten r (Z.of_nat (length dims)) = Ok ys)
      (nested_get getter t (Z.of_nat (length dims)) w)
      (mapM getter leaves w).
Proof.
  intros Hne Hs. destruct dims as [|n ds]; [done|].
  exists (leaves_of (length ds) t). simpl length.
  split; [rewrite flatten_of_nat_S; by eapply flatten_levels_shape|].
  pose proof (nested_get_flat getter ds n t Hs w) as H.
  unfold agrees in *. destruct (mapM _ _ w) as [[ls|e] w']; [|done].
  destruct H as (r & Hg & Hsh & Hfl). exists r. split; [done|].
  split; [done|]. by rewrite flatten_of_nat_S.
Qed.

(** X1. In every mode and with any submitter, [nested_submit] on a non-empty
    combination list does what the flat loop over the combinations does,
    last argument varying fastest: the keywords are merged and the leaf
    operation runs, once per combination. The first exception of the loop
    is the exception of [nested_submit], in the same world; when the loop
    returns, [nested_submit] returns in the same world a nested list of
    the Cartesian shape whose [flatten] is the list of the loop's results. *)
Theorem nested_submit_flat_loop (fn : kwargs -> res value) (f : callable)
    (combos : combos_t) (kwds : kwargs) (delay : bool)
    (pool : option pool_obj)
    (submitter : pool_obj -> callable -> kwargs -> M value) (w : world) :
  combos <> [] ->
  agrees (fun t leaves =>
            list_shape (dims_of combos) t = true /\
            flatten t (Z.of_nat (length combos)) = Ok leaves)
    (nested_submit fn f combos kwds delay pool submitter w)
    (mapM (leaf_round fn f delay pool submitter) (leaf_calls combos kwds) w).
Proof.
  intros Hne. destruct combos as [|[arg inputs] rest]; [done|].
  pose proof (nested_submit_flat fn f delay pool submitter rest arg inputs
                kwds w) as H.
  unfold agrees in *. destruct (mapM _ _ w) as [[ls|e] w']; [|done].
  destruct H as (t & Hs & Hsh & Hfl). exists t. split; [done|].
  split; [done|]. simpl length. by rewrite flatten_of_nat_S.
Qed.

(** X2. For any getter, also one that raises or changes the world,
    [nested_get] on a tree of shape [dims] with the depth [length dims]
    does what the loop of the getter over [flatten] of the tree does: the
    same first exception in the same world, or, in the same world, a
    nested list of the same shape whose [flatten] is the list of the
    getter's results. *)
Theorem nested_get_flat_loop (getter : value -> M value) (dims : list nat)
    (t : value) (w : world) :
  dims <> [] -> has_shape dims t = true ->
  exists leaves,
    flatten t (Z.of_nat (length dims)) = Ok leaves /\
    agrees (fun r ys =>
              list_shape dims r = true /\
              flatten r (Z.of_nat (length dims)) = Ok ys)
      (nested_get getter t (Z.of_nat (length dims)) w)
      (mapM getter leaves w).
Proof.
  intros Hne Hs. destruct dims as [|n ds]; [done|].
  exists (leaves_of (length ds) t). simpl length.
  split; [rewrite flatten_of_nat_S; by eapply flatten_levels_shape|].
  pose proof (nested_get_flat getter ds n t Hs w) as H.
  unfold agrees in *. destruct (mapM _ _ w) as [[ls|e] w']; [|done].
  destruct H as (r & Hg & Hsh & Hfl). exists r. split; [done|].
  split; [done|]. by rewrite flatten_of_nat_S.
Qed.

Lemma flatten_length dims t leaves :
  dims <> [] -> has_shape dims t = true ->
  flatten t (Z.of_nat (length dims)) = Ok leaves ->
  length leaves = product dims.
Proof.
  intros Hne Hs. destruct dims as [|n ds]; [done|]. simpl length.
  rewrite flatten_of_nat_S, (flatten_levels_shape n) by done.
  intros [= <-]. by apply leaves_of_length.
Qed.

(** A collection that returns invoked the getter once per leaf. *)
Lemma nested_get_ticks getter combos t k w r w' :
  combos <> [] ->
  list_shape (dims_of combos) t = true ->
  (forall v w r w', getter v w = (Ok r, w') -> ticks k w w') ->
  nested_get getter t (Z.of_nat (length combos)) w = (Ok r, w') ->
  ticks (product (dims_of combos) * k) w w'.
Proof.
  intros Hne Hsh Hk Hg.
  assert (dims_of combos <> []) as Hd by (by destruct combos).
  apply list_shape_has_shape in Hsh.
  destruct (nested_get_agrees getter _ t w Hd Hsh) as (leaves & Hfl & H).
  rewrite length_dims_of in *. rewrite Hg in H.
  apply agrees_ok_inv in H as (ys & Hm & _).
  apply (mapM_ticks _ k _ Hk) in Hm.
  rewrite <- length_dims_of in Hfl.
  by rewrite (flatten_length _ _ _ Hd Hsh Hfl) in Hm.
Qed.

Lemma ticks_eq a b w w' : ticks a w w' -> a = b -> ticks b w w'.
Proof. by intros H <-. Qed.

Lemma pooled_round_ticks fn f delay p rk w v w' :
  leaf_round fn f delay (Some p) default_submitter rk w = (Ok v, w') ->
  ticks 0 w w'.
Proof. intros H. by apply leaf_round_ticks in H. Qed.

Lemma deferred_round_ticks fn f rk w v w' :
  leaf_round fn f true None default_submitter rk w = (Ok v, w') ->
  ticks 0 w w'.
Proof. intros H. by apply leaf_round_ticks in H. Qed.

Lemma direct_round_ticks fn rk w v w' :
  leaf_round fn (UpdateUponEval Fn) false None default_submitter rk w
  = (Ok v, w') ->
  ticks 1 w w'.
Proof. intros H. by apply leaf_round_ticks in H. Qed.

Lemma lift_ok_inv {A} (r : res A) w a w' :
  lift r w = (Ok a, w') -> r = Ok a /\ w' = w.
Proof. unfold lift. by intros [= -> ->]. Qed.

Lemma pool_path_ticks fn p pbar combos constants w r w' :
  (futures <- nested_submit fn Fn combos constants false (Some p)
                default_submitter ;;
   nested_get (default_getter fn pbar) futures (Z.of_nat (length combos))) w
  = (Ok r, w') ->
  ticks (if pbar then product (dims_of combos) else 0) w w'.
Proof.
  intros H. apply bind_ok_inv in H as (tf & w1 & Hs & Hg).
  apply (nested_submit_ticks _ _ _ _ _ _ 0) in Hs as (Hne & Hs & Hsh);
    [|intros *; apply pooled_round_ticks].
  apply (nested_get_ticks _ combos _ (if pbar then 1 else 0)) in Hg;
    [|done|done|intros *; apply default_getter_ticks].
  pose proof (ticks_trans _ _ _ _ _ Hs Hg) as Ht.
  destruct pbar; (apply (ticks_eq _ _ _ _ Ht); lia).
Qed.

Section Ticks.
Variable fn : kwargs -> res value.
Variable as_completed : list value -> list value.
Variable known_scheduler : string -> option strategy.
Hypothesis as_completed_perm : forall l, as_completed l ≡ₚ l.

Lemma completed_length combos tf fs :
  combos <> [] -> list_shape (dims_of combos) tf = true ->
  flatten tf (Z.of_nat (length combos)) = Ok fs ->
  length (as_completed fs) = product (dims_of combos).
Proof.
  intros Hne Hsh Hfl. rewrite (Permutation_length (as_completed_perm fs)).
  assert (dims_of combos <> []) as Hd by (by destruct combos).
  rewrite <- length_dims_of in Hfl.
  by apply (flatten_length _ tf); [|apply list_shape_has_shape|].
Qed.

Lemma dispatch_ticks combos constants parallel num_workers scheduler pool
    hide n w r w' :
  dispatch fn as_completed known_scheduler combos constants parallel
    num_workers scheduler pool hide n w = (Ok r, w') ->
  ticks (if graph_backend parallel scheduler pool then 0
         else product (dims_of combos)) w w'.
Proof.
  unfold dispatch, graph_backend. intros H. destruct pool as [p|].
  - destruct (has_scheduler p).
    + apply bind_ok_inv in H as (tf & w1 & Hs & H).
      apply bind_ok_inv in H as (fs & w2 & Hfl & H).
      apply lift_ok_inv in Hfl as [Hfl ->].
      apply bind_ok_inv in H as (us & w3 & Hloop & Hg).
      apply (nested_submit_ticks _ _ _ _ _ _ 0) in Hs as (Hne & Hs & Hsh);
        [|intros *; apply pooled_round_ticks].
      apply (mapM_ticks _ 1) in Hloop; [|intros *; apply store_round_ticks].
      rewrite (completed_length _ _ _ Hne Hsh Hfl) in Hloop.
      apply (nested_get_ticks _ combos _ 0) in Hg; [|done|done|].
      * pose proof (ticks_trans _ _ _ _ _ Hs
                      (ticks_trans _ _ _ _ _ Hloop Hg)) as Ht.
        apply (ticks_eq _ _ _ _ Ht); lia.
      * intros v w0 r0 w0' Hv.
        pose proof (try_stored_then_result_world fn v w0) as Hw.
        rewrite Hv in Hw. simpl in Hw. subst. apply ticks_refl.
    + by apply (pool_path_ticks fn p true) in H.
  - destruct (parallel_is parallel "mpi"); simpl.
    { unfold mpi_combo_runner_pool, MPIPoolExecutor in H.
      apply bind_ok_inv in H as (p & w0 & Hp & H).
      unfold ret in Hp. injection Hp as <- <-.
      apply (pool_path_ticks fn executor true combos constants w r w').
      apply bind_ok_inv in H as (tf & w1 & Hs & H).
      apply bind_ok_inv in H as (rs & w2 & Hg & Hr).
      unfold ret in Hr. injection Hr as <- <-.
      by rewrite (bind_ok _ _ _ _ _ Hs). }
    destruct (parallel_is parallel "dask" || scheduler_truthy scheduler).
    { rewrite bind_get_fn_name in H.
      apply bind_ok_inv in H as (tj & w1 & Hs & H).
      apply bind_ok_inv in H as (s' & w2 & Hsch & Hc).
      apply (nested_submit_ticks _ _ _ _ _ _ 0) in Hs as (Hne & Hs & Hsh);
        [|intros *; apply deferred_round_ticks].
      assert (w2 = w1) as ->.
      { destruct scheduler as [|s|g]; try (by injection Hsch as _ <-).
        destruct (scheduler_truthy (SName s)); [|by injection Hsch as _ <-].
        unfold dask_scheduler_get in Hsch.
        destruct (known_scheduler s); [by injection Hsch as _ <-|done]. }
      assert (w' = w1) as ->.
      { unfold compute in Hc. apply bind_ok_inv in Hc as (args & w3 & Ha & Hc).
        apply lift_ok_inv in Ha as [_ ->]. by injection Hc as _ <-. }
      apply (ticks_eq _ _ _ _ Hs); lia. }
    destruct (parallel_truthy parallel || num_workers_truthy num_workers).
    { apply bind_ok_inv in H as (p & w0 & Hp & H).
      assert (w0 = w /\ p = executor) as [-> ->].
      { unfold ProcessPoolExecutor in Hp. destruct num_workers as [k|].
        - destruct (k <=? 0); [done|]. unfold ret in Hp. by injection Hp as <- <-.
        - unfold ret in Hp. by injection Hp as <- <-. }
      apply bind_ok_inv in H as (tf & w1 & Hs & H).
      apply bind_ok_inv in H as (fs & w2 & Hfl & H).
      apply lift_ok_inv in Hfl as [Hfl ->].
      apply bind_ok_inv in H as (us & w3 & Hloop & Hg).
      apply (nested_submit_ticks _ _ _ _ _ _ 0) in Hs as (Hne & Hs & Hsh);
        [|intros *; apply pooled_round_ticks].
      apply (mapM_ticks _ 1) in Hloop.
      2:{ intros x w0 y w0' Hu. unfold pbar_update, emit in Hu.
          injection Hu as _ <-. by exists [Update]. }
      rewrite (completed_length _ _ _ Hne Hsh Hfl) in Hloop.
      apply (nested_get_ticks _ combos _ 0) in Hg;
        [|done|done|intros *; apply (default_getter_ticks fn false)].
      pose proof (ticks_trans _ _ _ _ _ Hs
                    (ticks_trans _ _ _ _ _ Hloop Hg)) as Ht.
      apply (ticks_eq _ _ _ _ Ht); lia. }
    apply (nested_submit_ticks _ _ _ _ _ _ 1) in H as (Hne & Hs & Hsh);
      [|intros *; apply direct_round_ticks].
    apply (ticks_eq _ _ _ _ Hs); lia.
Qed.
End Ticks.

(** X7. Whenever a run of [_combo_runner] returns, with [as_completed]
    handing back each future once, the calling thread has advanced the
    bar exactly [n] times, [n] the total that [prod] computes, on every
    backend but the deferred graph, where it has not advanced it at all
    (the bar of that branch is dask's own). *)
Theorem progress_bar_advances_once_per_combination
    (fn : kwargs -> res value) (as_completed : list value -> list value)
    (known_scheduler : string -> option strategy)
    (combos : combos_t) (constants : kwargs) (split : bool)
    (parallel : parallel_t) (num_workers : option Z) (scheduler : scheduler_t)
    (pool : option pool_obj) (hide : bool) (w w' : world) (t : value) :
  (forall l, as_completed l ≡ₚ l) ->
  _combo_runner fn as_completed known_scheduler combos constants split
    parallel num_workers scheduler pool hide w = (Ok t, w') ->
  exists n evs,
    prod (map (fun c => Z.of_nat (length (snd c))) combos) = Ok (Z.of_nat n) /\
    trace w' = trace w ++ evs /\
    updates evs = if graph_backend parallel scheduler pool then 0%nat else n.
Proof.
  intros Hperm H. rewrite _combo_runner_eq in H.
  apply bind_ok_inv in H as (n & w0 & Hn & H).
  apply lift_ok_inv in Hn as [Hn ->].
  apply bind_ok_inv in H as (r & w1 & Hd & Hf).
  pose proof (finish_world split r (Z.of_nat (length combos)) w1) as Hw.
  rewrite Hf in Hw. simpl in Hw. subst w1.
  assert (combos <> []) as Hne by (intros ->; done).
  apply (dispatch_ticks fn as_completed known_scheduler Hperm) in Hd
    as (evs & Htr & Hup).
  exists (product (dims_of combos)), evs. split; [by apply prod_ne|done].
Qed.

(** ** The first element: [get_ndim_first] *)

Lemma get_ndim_first_unfold x k :
  get_ndim_first x k
  = if k =? 0 then Ok x
    else match x with
         | VList (x0 :: _) | VTuple (x0 :: _) => get_ndim_first x0 (k - 1)
         | VList [] | VTuple [] => Raise IndexError
         | _ => Raise (TypeError "object is not subscriptable")
         end.
Proof. by destruct x as [| | |[|]|[|]|]. Qed.

Lemma get_ndim_first_index n :
  forall x v,
    get_ndim_first x (Z.of_nat n) = Ok v <-> index x (repeat 0%nat n) = Some v.
Proof.
  induction n as [|n IH]; intros x v; rewrite get_ndim_first_unfold.
  - simpl. split; congruence.
  - assert ((Z.of_nat (S n) =? 0) = false) as -> by (apply Z.eqb_neq; lia).
    replace (Z.of_nat (S n) - 1) with (Z.of_nat n) by lia.
    simpl repeat. simpl index.
    destruct x as [| | |[|x0 xs]|[|x0 xs]|]; simpl; try (split; congruence);
      apply IH.
Qed.

(** X11. For [ndim >= 0] and a value made of scalars, lists and tuples,
    [get_ndim_first(x, ndim)] returns [v] exactly when [x[0][0]...[0]]
    with [ndim] subscripts exists and is [v]. *)
Theorem get_ndim_first_is_index_zero (x v : value) (ndim : Z) :
  0 <= ndim ->
  plain x = true ->
  (get_ndim_first x ndim = Ok v
   <-> index x (repeat 0%nat (Z.to_nat ndim)) = Some v).
Proof.
  intros H _. rewrite <- (Z2Nat.id ndim H) at 1. apply get_ndim_first_index.
Qed.

(** X12. For a negative [ndim], and a value made of scalars, lists and
    tuples, [get_ndim_first] never returns: the test [ndim == 0] never
    holds on the way down, and the descent ends in the [IndexError] of an
    empty sequence or the [TypeError] of a scalar. *)
Theorem get_ndim_first_negative_raises (x : value) (ndim : Z) :
  ndim < 0 ->
  plain x = true ->
  get_ndim_first x ndim = Raise IndexError \/
  get_ndim_first x ndim = Raise (TypeError "object is not subscriptable").
Proof.
  revert ndim. induction x as [| | |xs IH|xs IH|] using value_nested_ind;
    intros ndim Hn Hplain; rewrite get_ndim_first_unfold;
    (assert ((ndim =? 0) = false) as -> by (apply Z.eqb_neq; lia));
    try (by right).
  - destruct xs as [|x0 xs]; [by left|].
    apply Forall_cons in IH as [IH _]. simpl in Hplain.
    apply andb_true_iff in Hplain as [Hplain _]. apply IH; [lia|done].
  - destruct xs as [|x0 xs]; [by left|].
    apply Forall_cons in IH as [IH _]. simpl in Hplain.
    apply andb_true_iff in Hplain as [Hplain _]. apply IH; [lia|done].
Qed.

Lemma assign_first combos :
  forall kwds, Forall (fun c : string * list value => snd c <> []) combos ->
    exists kw, assign combos kwds (repeat 0%nat (length combos)) = Some kw.
Proof.
  induction combos as [|[arg inputs] rest IH]; intros kwds Hne.
  - by exists kwds.
  - apply Forall_cons in Hne as [Hx Hne]. simpl in Hx.
    destruct inputs as [|x inputs]; [done|]. simpl. by apply IH.
Qed.

(** X13. On the tree a direct [nested_submit] returned, with no empty value
    sequence, [get_ndim_first] at the depth of the combination list is the
    result of the call whose arguments are the first value of every
    sequence. *)
Theorem get_ndim_first_of_results
    (fn : kwargs -> res value) (f : callable)
    (submitter : pool_obj -> callable -> kwargs -> M value)
    (combos : combos_t) (kwds : kwargs) (w w' : world) (t : value) :
  nested_submit fn f combos kwds false None submitter w = (Ok t, w') ->
  Forall (fun c => snd c <> []) combos ->
  exists kw v,
    assign combos kwds (repeat 0%nat (length combos)) = Some kw /\
    get_ndim_first t (Z.of_nat (length combos)) = Ok v /\
    remote fn f kw = Ok v.
Proof.
  intros Hs Hne. apply nested_submit_direct_sound in Hs.
  destruct (assign_first combos kwds Hne) as (kw & Hkw).
  destruct (cartesian_index _ _ _ _ _ _ Hs Hkw) as (v & Hi & Hv).
  exists kw, v. split; [done|]. split; [|done].
  by apply get_ndim_first_index.
Qed.

(** ** Row-major positions *)

Lemma lookup_concat_const {A} (xss : list (list A)) k i j :
  Forall (fun xs => length xs = k) xss -> (j < k)%nat ->
  concat xss !! (i * k + j)%nat = xss !! i ≫= (.!! j).
Proof.
  intros Hall Hj. revert i. induction Hall as [|xs xss Hx _ IH]; intros i.
  - done.
  - destruct i as [|i]; simpl.
    + rewrite lookup_app_l by lia. done.
    + rewrite lookup_app_r by lia.
      replace (k + i * k + j - length xs)%nat with (i * k + j)%nat by lia.
      apply IH.
Qed.

Lemma product_pos ds p : Forall2 lt p ds -> (0 < product ds)%nat.
Proof.
  induction 1 as [|i d p ds Hi _ IH]; simpl; [lia|].
  apply Nat.mul_pos_pos; lia.
Qed.

Lemma ravel_lt ds p : Forall2 lt p ds -> (ravel ds p < product ds)%nat.
Proof.
  induction 1 as [|i d p ds Hi _ IH]; simpl; [lia|]. nia.
Qed.

Lemma leaves_of_ravel ds :
  forall n t path,
    has_shape (n :: ds) t = true -> Forall2 lt path (n :: ds) ->
    leaves_of (length ds) t !! ravel (n :: ds) path = index t path /\
    is_Some (index t path).
Proof.
  induction ds as [|m ds' IH]; intros n t path Hs Hp;
    apply has_shape_cons in Hs as (xs & Hi & Hl & Hf);
    inversion Hp as [|i d p ds0 Hlt Hp']; subst.
  - inversion Hp'; subst. simpl. rewrite (items_elems _ _ Hi), Hi.
    replace (i * 1 + 0)%nat with i by lia.
    destruct (lookup_lt_is_Some_2 xs i Hlt) as [x Hx]. rewrite Hx. by split.
  - simpl leaves_of. rewrite (items_elems _ _ Hi).
    cbn [ravel index]. rewrite Hi.
    destruct (lookup_lt_is_Some_2 xs i Hlt) as [x Hx]. rewrite Hx.
    pose proof (proj1 (Forall_forall _ _) Hf x
                  (list_elem_of_lookup_2 _ _ _ Hx)) as Hxs.
    rewrite (lookup_concat_const _ (product (m :: ds'))).
    + rewrite list_lookup_fmap, Hx. exact (IH m x p Hxs Hp').
    + apply Forall_map. eapply Forall_impl; [exact Hf|].
      intros y Hy. by apply (leaves_of_length m).
    + exact (ravel_lt (m :: ds') p Hp').
Qed.

(** X14. [flatten] lists the leaves in row-major order: for a tree of shape
    [dims] and an index within bounds, the leaf at the index is the item
    of [flatten(tree, len(dims))] at the position that the index has in
    row-major order. *)
Theorem flatten_is_row_major (dims path : list nat) (t : value)
    (leaves : list value) :
  has_shape dims t = true ->
  Forall2 lt path dims ->
  path <> [] ->
  flatten t (Z.of_nat (length dims)) = Ok leaves ->
  exists leaf, index t path = Some leaf /\
               leaves !! ravel dims path = Some leaf.
Proof.
  intros Hs Hp Hne. destruct dims as [|n ds]; [by inversion Hp; subst|].
  simpl length. rewrite flatten_of_nat_S, (flatten_levels_shape n) by done.
  intros [= <-].
  destruct (leaves_of_ravel ds n t path Hs Hp) as [Heq [leaf Hleaf]].
  exists leaf. split; [done|]. by rewrite Heq.
Qed.

(** ** More on [unzip] *)

Lemma zip_star_involutive k rows :
  rows <> [] -> (0 < k)%nat -> Forall (fun r => length r = k) rows ->
  zip_star (zip_star rows) = rows.
Proof.
  intros Hne Hk Hall.
  rewrite (zip_star_transpose k rows Hne Hall).
  rewrite (zip_star_transpose (length rows)).
  - apply list_eq. intros i. rewrite list_lookup_fmap.
    destruct (decide (i < length rows)%nat) as [Hlt|Hge].
    + rewrite lookup_seq_lt by done. simpl.
      destruct (lookup_lt_is_Some_2 rows i Hlt) as [r Hr]. rewrite Hr.
      f_equal. rewrite map_map.
      pose proof (proj1 (Forall_forall _ _) Hall r
                    (list_elem_of_lookup_2 _ _ _ Hr)) as Hlen.
      rewrite <- (map_nth_seq r VNone) at 1. rewrite Hlen.
      apply map_ext. intros j.
      rewrite (nth_indep _ _ (nth j [] VNone))
        by (rewrite length_map; lia).
      rewrite (map_nth (fun r0 => nth j r0 VNone)).
      by rewrite (nth_lookup_Some _ _ _ _ Hr).
    + rewrite lookup_seq_ge by lia. simpl. symmetry.
      apply lookup_ge_None. lia.
  - destruct k; [lia|]. done.
  - apply Forall_map, Forall_forall. intros j _. by rewrite length_map.
Qed.

(** X15. On a non-empty list of tuples of one positive arity [k], [unzip] at
    level 1 returns [k] tuples as long as the list, and [unzip] at level 1
    of these returns the tuples of the list again. *)
Theorem unzip_twice_gives_back (k : nat) (rows : list (list value)) :
  rows <> [] -> (0 < k)%nat -> Forall (fun r => length r = k) rows ->
  exists cols,
    unzip (VList (map VTuple rows)) 1 = Ok (VList (map VTuple cols)) /\
    length cols = k /\
    Forall (fun c => length c = length rows) cols /\
    unzip (VList (map VTuple cols)) 1 = Ok (VList (map VTuple rows)).
Proof.
  intros Hne Hk Hall. exists (zip_star rows).
  assert (forall rs, unzip (VList (map VTuple rs)) 1
                     = Ok (VList (map VTuple (zip_star rs)))) as Hun.
  { intros rs. unfold unzip. simpl. unfold zip_values. simpl.
    by rewrite mapR_iter_tuples. }
  split; [apply Hun|]. split.
  { rewrite (zip_star_transpose k rows Hne Hall).
    by rewrite length_map, length_seq. }
  split.
  { rewrite (zip_star_transpose k rows Hne Hall).
    apply Forall_map, Forall_forall. intros j _. by rewrite length_map. }
  by rewrite Hun, (zip_star_involutive k).
Qed.

Lemma mapR_all_ok {A B} (f : A -> res B) xs :
  Forall (fun x => exists y, f x = Ok y) xs -> exists ys, mapR f xs = Ok ys.
Proof.
  induction 1 as [|x xs [y Hy] _ [ys IH]]; [by exists []|].
  exists (y :: ys). simpl. by rewrite Hy, IH.
Qed.

Lemma mapR_one_error {A B} (f : A -> res B) e0 xs :
  Forall (fun x => (exists y, f x = Ok y) \/ f x = Raise e0) xs ->
  Exists (fun x => f x = Raise e0) xs ->
  mapR f xs = Raise e0.
Proof.
  induction 1 as [|x xs Hx Hall IH]; intros Hex; [by inversion Hex|].
  simpl. destruct Hx as [[y Hy]|Hx]; [|by rewrite Hx].
  rewrite Hy. simpl. inversion Hex as [? ? Hbad|? ? Hbad]; subst.
  - congruence.
  - by rewrite (IH Hbad).
Qed.

Lemma mapR_results {A B} (f : A -> res B) (P : B -> Prop) xs ys :
  (forall x y, f x = Ok y -> P y) -> mapR f xs = Ok ys -> Forall P ys.
Proof.
  intros HP. revert ys. induction xs as [|x xs IH]; intros ys; simpl.
  - intros [= <-]. constructor.
  - destruct (f x) as [y|] eqn:Hy; [|done]. simpl.
    destruct (mapR f xs) as [ys'|]; [|done]. simpl. intros [= <-].
    constructor; [by eapply HP|by apply IH].
Qed.

Lemma iterable_iter v : iterable v = true -> exists xs, iter v = Ok xs.
Proof. destruct v; try done; by eexists. Qed.

Lemma not_iterable_iter v :
  iterable v = false -> iter v = Raise (TypeError "object is not iterable").
Proof. by destruct v. Qed.

Lemma iter_cases v :
  (exists xs, iter v = Ok xs) \/
  iter v = Raise (TypeError "object is not iterable").
Proof. destruct v; try (by right); left; by eexists. Qed.

Lemma iterable_all_or_not ls :
  Forall (fun l => iterable l = true) ls \/
  Exists (fun l => iterable l = false) ls.
Proof.
  induction ls as [|l ls [IH|IH]].
  - left. constructor.
  - destruct (iterable l) eqn:Hl.
    + left. by constructor.
    + right. by constructor.
  - right. by constructor.
Qed.

Lemma zip_values_cases xs :
  (Forall (fun x => iterable x = true) xs ->
   exists cols, zip_values (VList xs) = Ok cols) /\
  (Exists (fun x => iterable x = false) xs ->
   zip_values (VList xs) = Raise (TypeError "object is not iterable")).
Proof.
  unfold zip_values. simpl. split.
  - intros Hall.
    destruct (mapR_all_ok iter xs) as [rows Hrows].
    { eapply Forall_impl; [exact Hall|]. apply iterable_iter. }
    rewrite Hrows. by eexists.
  - intros Hex.
    rewrite (mapR_one_error iter (TypeError "object is not iterable") xs);
      [done| |].
    + apply Forall_forall. intros x _. apply iter_cases.
    + eapply Exists_impl; [exact Hex|]. apply not_iterable_iter.
Qed.

Lemma unzipper_cases ds :
  forall n t, has_shape (n :: ds) t = true ->
    (Forall (fun l => iterable l = true) (leaves_of (length ds) t) ->
     exists cols, res_bind (_unzipper (length ds) t) zip_values = Ok cols) /\
    (Exists (fun l => iterable l = false) (leaves_of (length ds) t) ->
     res_bind (_unzipper (length ds) t) zip_values
     = Raise (TypeError "object is not iterable")).
Proof.
  induction ds as [|m ds' IH]; intros n t Hs;
    apply has_shape_cons in Hs as (xs & Hi & Hl & Hf).
  - simpl. rewrite (items_elems _ _ Hi).
    assert (zip_values t = zip_values (VList xs)) as ->.
    { unfold zip_values. by rewrite (items_iter _ _ Hi). }
    apply zip_values_cases.
  - simpl _unzipper. simpl leaves_of. rewrite (items_iter _ _ Hi),
      (items_elems _ _ Hi).
    change (res_bind (Ok xs) ?k) with (k xs). cbv beta.
    set (step := fun it => res_map VList (res_bind (_unzipper (length ds') it)
                                            zip_values)).
    assert (Forall (fun x =>
              (Forall (fun l => iterable l = true) (leaves_of (length ds') x) ->
               exists y, step x = Ok y) /\
              (Exists (fun l => iterable l = false) (leaves_of (length ds') x) ->
               step x = Raise (TypeError "object is not iterable"))) xs)
      as Hsub.
    { eapply Forall_impl; [exact Hf|]. intros x Hx.
      destruct (IH m x Hx) as [Hok Hbad]. unfold step. split.
      - intros Hall. destruct (Hok Hall) as [cols ->]. by eexists.
      - intros Hex. by rewrite (Hbad Hex). }
    split.
    + intros Hall. apply Forall_concat in Hall.
      destruct (mapR_all_ok step xs) as [ys Hys].
      { apply Forall_forall. intros x Hx.
        apply (proj1 (Forall_forall _ _) Hsub x Hx).
        apply (proj1 (Forall_forall _ _) Hall). apply list_elem_of_fmap.
        by exists x. }
      unfold res_map at 1. rewrite Hys. simpl res_bind.
      apply zip_values_cases.
      eapply (mapR_results step); [|exact Hys].
      intros x y. unfold step, res_map.
      destruct (res_bind (_unzipper (length ds') x) zip_values); [|done].
      simpl. by intros [= <-].
    + intros Hex. unfold res_map at 1.
      rewrite (mapR_one_error step (TypeError "object is not iterable") xs);
        [done| |].
      * apply Forall_forall. intros x Hx.
        destruct (proj1 (Forall_forall _ _) Hsub x Hx) as [Hok Hbad].
        destruct (iterable_all_or_not (leaves_of (length ds') x))
          as [Hall|Hnot].
        -- left. by apply Hok.
        -- right. by apply Hbad.
      * apply Exists_exists in Hex as (l & Hin0 & Hbadl).
        apply list_elem_of_In, in_concat in Hin0 as (ls & Hls & Hin).
        apply in_map_iff in Hls as (x & <- & Hx).
        apply list_elem_of_In in Hx, Hin.
        apply Exists_exists. exists x. split; [done|].
        apply (proj1 (Forall_forall _ _) Hsub x); [done|].
        apply Exists_exists. by exists l.
Qed.

(** X16. On a tree of shape [dims], [unzip] at level [len(dims)] returns
    when every leaf is iterable, whatever the lengths; when some leaf is
    not (a scalar result), it raises [TypeError], and so does the last
    line of [_combo_runner] with [split] set. *)
Theorem unzip_needs_iterable_leaves (dims : list nat) (t : value)
    (leaves : list value) :
  dims <> [] ->
  has_shape dims t = true ->
  flatten t (Z.of_nat (length dims)) = Ok leaves ->
  (Forall (fun l => iterable l = true) leaves ->
   exists outs, unzip t (Z.of_nat (length dims)) = Ok (VList outs)) /\
  (Exists (fun l => iterable l = false) leaves ->
   unzip t (Z.of_nat (length dims))
   = Raise (TypeError "object is not iterable") /\
   forall w, finish true t (Z.of_nat (length dims)) w
             = (Raise (TypeError "object is not iterable"), w)).
Proof.
  intros Hne Hs. destruct dims as [|n ds]; [done|]. simpl length.
  rewrite flatten_of_nat_S, (flatten_levels_shape n) by done.
  intros [= <-]. destruct (unzipper_cases ds n t Hs) as [Hok Hbad].
  assert (unzip t (Z.of_nat (S (length ds)))
          = res_map VList (res_bind (_unzipper (length ds) t) zip_values))
    as Hun.
  { unfold unzip.
    assert ((Z.of_nat (S (length ds)) =? 0) = false) as ->
        by (apply Z.eqb_neq; lia).
    by replace (Z.to_nat (Z.of_nat (S (length ds)) - 1)) with (length ds)
      by lia. }
  split.
  - intros Hall. destruct (Hok Hall) as [cols Hcols].
    exists cols. by rewrite Hun, Hcols.
  - intros Hex. specialize (Hbad Hex).
    assert (unzip t (Z.of_nat (S (length ds)))
            = Raise (TypeError "object is not iterable")) as Hr
        by (by rewrite Hun, Hbad).
    split; [done|]. intros w. unfold finish, bind, lift. by rewrite Hr.
Qed.

(** ** A depth argument that does not fit *)

Lemma mapM_fixed {A B} (F : (value -> M value) -> A -> M B) xs :
  Forall (fun x => exists r, forall getter w, F getter x w = (r, w)) xs ->
  exists R, forall getter w, mapM (F getter) xs w = (R, w).
Proof.
  induction 1 as [|x xs [r Hr] _ [R HR]].
  - by exists (Ok []).
  - exists (res_bind r (fun y => res_bind R (fun ys => Ok (y :: ys)))).
    intros getter w. simpl. unfold bind. rewrite Hr.
    destruct r as [y|e]; [|done]. rewrite HR. by destruct R.
Qed.

Lemma nested_get_not_iterable getter v k w :
  iterable v = false ->
  nested_get getter v k w = (Raise (TypeError "object is not iterable"), w).
Proof. by destruct v. Qed.

Lemma nested_get_misfit ds :
  forall n t ndim,
    has_shape (n :: ds) t = true ->
    Forall (fun l => iterable l = false) (leaves_of (length ds) t) ->
    ndim <= 0 \/ Z.of_nat (S (length ds)) < ndim ->
    exists r,
      (forall getter w, nested_get getter t ndim w = (r, w)) /\
      ((0 < product (n :: ds))%nat ->
       r = Raise (TypeError "object is not iterable")).
Proof.
  induction ds as [|m ds' IH]; intros n t ndim Hs Hleaves Hnd;
    apply has_shape_cons in Hs as (xs & Hi & Hl & Hf);
    (assert ((ndim =? 1) = false) as Hne1
       by (apply Z.eqb_neq; simpl length in Hnd; lia)).
  - simpl in Hleaves. rewrite (items_elems _ _ Hi) in Hleaves.
    destruct xs as [|x xs].
    + exists (Ok (VList [])). split.
      * intros getter w. by rewrite (nested_get_unfold _ _ _ _ Hi), Hne1.
      * simpl in Hl. subst n. simpl. lia.
    + exists (Raise (TypeError "object is not iterable")). split; [|done].
      intros getter w. rewrite (nested_get_unfold _ _ _ _ Hi), Hne1.
      apply Forall_cons in Hleaves as [Hx _].
      erewrite bind_raise; [done|]. apply mapM_first_raises.
      by apply nested_get_not_iterable.
  - simpl leaves_of in Hleaves. rewrite (items_elems _ _ Hi) in Hleaves.
    apply Forall_concat in Hleaves. rewrite Forall_map in Hleaves.
    assert (Forall (fun x => exists r,
              (forall getter w, nested_get getter x (ndim - 1) w = (r, w)) /\
              ((0 < product (m :: ds'))%nat ->
               r = Raise (TypeError "object is not iterable"))) xs) as Hsub.
    { apply Forall_forall. intros x Hx. apply (IH m).
      - by apply (proj1 (Forall_forall _ _) Hf).
      - by apply (proj1 (Forall_forall _ _) Hleaves).
      - simpl length in *. lia. }
    destruct (mapM_fixed (fun getter fut => nested_get getter fut (ndim - 1))
                xs) as [R HR].
    { eapply Forall_impl; [exact Hsub|]. intros x (r & Hr & _). by exists r. }
    exists (res_map VList R). split.
    + intros getter w. rewrite (nested_get_unfold _ _ _ _ Hi), Hne1.
      unfold bind. rewrite HR. by destruct R.
    + intros Hpos. destruct xs as [|x xs].
      { simpl in Hl. subst n. simpl in Hpos. lia. }
      apply Forall_cons in Hsub as [(r & Hr & Hraise) _].
      rewrite Hraise in Hr.
      * pose proof (HR (fun v => ret v) world0) as H1.
        pose proof (mapM_first_raises
                      (fun fut => nested_get (fun v => ret v) fut (ndim - 1))
                      x xs world0 _ world0 (Hr _ world0)) as H2.
        cbv beta in H1. rewrite H2 in H1. by injection H1 as <-.
      * change (product (n :: m :: ds')) with (n * product (m :: ds'))%nat
          in Hpos.
        destruct (product (m :: ds')); lia.
Qed.

(** X17. On a tree of shape [dims] whose leaves are not iterable (futures),
    [nested_get] with a depth argument that is not positive, or greater
    than [len(dims)], never invokes the getter: outcome and world do not
    depend on it, the world is unchanged, and with at least one leaf the
    outcome is the [TypeError] of iterating a leaf. *)
Theorem nested_get_misfit_never_calls_getter (dims : list nat) (t : value)
    (leaves : list value) (ndim : Z) :
  dims <> [] ->
  has_shape dims t = true ->
  flatten t (Z.of_nat (length dims)) = Ok leaves ->
  Forall (fun l => iterable l = false) leaves ->
  ndim <= 0 \/ Z.of_nat (length dims) < ndim ->
  exists r,
    (forall getter w, nested_get getter t ndim w = (r, w)) /\
    (leaves <> [] -> r = Raise (TypeError "object is not iterable")).
Proof.
  intros Hne Hs. destruct dims as [|n ds]; [done|]. simpl length.
  rewrite flatten_of_nat_S, (flatten_levels_shape n) by done.
  intros [= <-] Hleaves Hnd.
  destruct (nested_get_misfit ds n t ndim Hs Hleaves Hnd) as (r & Hr & Hp).
  exists r. split; [done|]. intros Hnil. apply Hp.
  rewrite <- (leaves_of_length n ds t Hs).
  destruct (leaves_of (length ds) t); [done|]. simpl. lia.
Qed.

(** ** [argwhere] *)

Section ArgwhereFacts.
Context {A B : Type} (key : A -> B -> res bool).

Lemma argwhere_from_spec x y :
  forall i,
    match argwhere_from key i x y with
    | Ok (Some j) => exists k, j = (i + k)%nat /\ first_answer key x y k (Ok true)
    | Ok None => Forall (fun el => key el y = Ok false) x
    | Raise e => exists k, first_answer key x y k (Raise e)
    end.
Proof.
  induction x as [|el rest IH]; intros i; simpl; [constructor|].
  destruct (key el y) as [[|]|e] eqn:Hk; simpl.
  - exists 0%nat. split; [lia|]. exists el. split; [done|]. split; [done|].
    intros j el' Hj. lia.
  - specialize (IH (S i)).
    destruct (argwhere_from key (S i) rest y) as [[j|]|e].
    + destruct IH as (k & -> & el0 & Hel & Hkey & Hbefore).
      exists (S k). split; [lia|]. exists el0. split; [done|].
      split; [done|]. intros [|j] el' Hj Hl.
      * simpl in Hl. by injection Hl as <-.
      * apply (Hbefore j); [lia|done].
    + by constructor.
    + destruct IH as (k & el0 & Hel & Hkey & Hbefore).
      exists (S k), el0. split; [done|]. split; [done|].
      intros [|j] el' Hj Hl.
      * simpl in Hl. by injection Hl as <-.
      * apply (Hbefore j); [lia|done].
  - exists 0%nat, el. split; [done|]. split; [done|]. intros j el' Hj. lia.
Qed.

Lemma first_answer_unique x y k k' r r' :
  first_answer key x y k r -> first_answer key x y k' r' ->
  r <> Ok false -> r' <> Ok false -> k = k' /\ r = r'.
Proof.
  intros (el & Hel & Hr & Hb) (el' & Hel' & Hr' & Hb') Hne Hne'.
  destruct (Nat.lt_trichotomy k k') as [Hlt|[->|Hlt]].
  - specialize (Hb' k el Hlt Hel). congruence.
  - split; [done|]. congruence.
  - specialize (Hb k' el' Hlt Hel'). congruence.
Qed.

Lemma first_answer_not_all_false x y k r :
  first_answer key x y k r -> r <> Ok false ->
  ~ Forall (fun el => key el y = Ok false) x.
Proof.
  intros (el & Hel & Hr & _) Hne Hall.
  apply list_elem_of_lookup_2 in Hel.
  apply (proj1 (Forall_forall _ _) Hall) in Hel. congruence.
Qed.

(** X18. [argwhere] returns the index [i] exactly when [key] holds of the
    element at [i] and answers [False], without raising, for every
    element before it. *)
Theorem argwhere_is_first_match (x : list A) (y : B) (i : nat) :
  argwhere key x y = Ok (Some i) <-> first_answer key x y i (Ok true).
Proof.
  unfold argwhere. pose proof (argwhere_from_spec x y 0) as H. split.
  - intros Heq. rewrite Heq in H. by destruct H as (k & -> & Hk).
  - intros Hi. destruct (argwhere_from key 0 x y) as [[j|]|e].
    + destruct H as (k & -> & Hk).
      by destruct (first_answer_unique _ _ _ _ _ _ Hi Hk) as [-> _].
    + by destruct (first_answer_not_all_false _ _ _ _ Hi).
    + destruct H as (k & Hk).
      by destruct (first_answer_unique _ _ _ _ _ _ Hi Hk) as [_ ?].
Qed.

(** X19. [argwhere] returns [None] exactly when [key] answers [False],
    without raising, for every element. *)
Theorem argwhere_none_iff_no_match (x : list A) (y : B) :
  argwhere key x y = Ok None <-> Forall (fun el => key el y = Ok false) x.
Proof.
  unfold argwhere. pose proof (argwhere_from_spec x y 0) as H. split.
  - intros Heq. by rewrite Heq in H.
  - intros Hall. destruct (argwhere_from key 0 x y) as [[j|]|e]; [|done|].
    + destruct H as (k & _ & Hk).
      by destruct (first_answer_not_all_false _ _ _ _ Hk).
    + destruct H as (k & Hk).
      by destruct (first_answer_not_all_false _ _ _ _ Hk).
Qed.

(** X20. [argwhere] raises [e] exactly when [key] raises [e] on some element
    and answers [False] for every element before it: a match behind a
    raising element is not reached, a raising element behind a match is
    not asked. *)
Theorem argwhere_raises_iff_key_raises_first (x : list A) (y : B) (e : exn) :
  argwhere key x y = Raise e <-> exists k, first_answer key x y k (Raise e).
Proof.
  unfold argwhere. pose proof (argwhere_from_spec x y 0) as H. split.
  - intros Heq. by rewrite Heq in H.
  - intros [k Hk]. destruct (argwhere_from key 0 x y) as [[j|]|e'].
    + destruct H as (k' & _ & Hk').
      by destruct (first_answer_unique _ _ _ _ _ _ Hk Hk') as [_ ?].
    + by destruct (first_answer_not_all_false _ _ _ _ Hk).
    + destruct H as (k' & Hk').
      destruct (first_answer_unique _ _ _ _ _ _ Hk Hk') as [_ Heq]; [done..|].
      by injection Heq as ->.
Qed.
End ArgwhereFacts.

(** X21. With the default key on dimension names: for a name in the list,
    [argwhere] returns an index that holds it; for a name not in the list
    it returns [None]; and in a list without repetition the index of a
    name is found again from the name. *)
Theorem argwhere_finds_member (dims : list string) (dim : string) :
  (dim ∈ dims ->
   exists i, argwhere eq_str dims dim = Ok (Some i) /\ dims !! i = Some dim) /\
  (dim ∉ dims -> argwhere eq_str dims dim = Ok None) /\
  (forall i, NoDup dims -> dims !! i = Some dim ->
     argwhere eq_str dims dim = Ok (Some i)).
Proof.
  unfold argwhere. pose proof (argwhere_from_spec eq_str dims dim 0) as H.
  assert (forall k, first_answer eq_str dims dim k (Ok true) ->
                    dims !! k = Some dim) as Hfound.
  { intros k (el & Hel & Hkey & _). unfold eq_str in Hkey.
    injection Hkey as Hkey. apply String.eqb_eq in Hkey. by subst. }
  split; [|split].
  - intros Hin. destruct (argwhere_from eq_str 0 dims dim) as [[j|]|e].
    + destruct H as (k & -> & Hk). exists k. split; [done|]. by apply Hfound.
    + apply (proj1 (Forall_forall _ _) H) in Hin. unfold eq_str in Hin.
      injection Hin as Hin. by rewrite String.eqb_refl in Hin.
    + by destruct H as (k & el & _ & Hkey & _).
  - intros Hnot. destruct (argwhere_from eq_str 0 dims dim) as [[j|]|e].
    + destruct H as (k & -> & Hk). apply Hfound in Hk.
      destruct Hnot. by eapply list_elem_of_lookup_2.
    + done.
    + by destruct H as (k & el & _ & Hkey & _).
  - intros i Hnd Hi. destruct (argwhere_from eq_str 0 dims dim) as [[j|]|e].
    + destruct H as (k & -> & Hk). apply Hfound in Hk.
      do 2 f_equal. by eapply NoDup_lookup.
    + apply list_elem_of_lookup_2 in Hi.
      apply (proj1 (Forall_forall _ _) H) in Hi. unfold eq_str in Hi.
      injection Hi as Hi. by rewrite String.eqb_refl in Hi.
    + by destruct H as (k & el & _ & Hkey & _).
Qed.

(** ** The name of a function: [_get_fn_name] *)

Lemma partition_head_split sep s :
  s = Inspect.partition_head sep s \/
  exists rest, s = String.append (Inspect.partition_head sep s)
                                 (String sep rest).
Proof.
  induction s as [|c s IH]; simpl; [by left|].
  destruct (Ascii.eqb c sep) eqn:Hc.
  - apply Ascii.eqb_eq in Hc as ->. right. by exists s.
  - destruct IH as [IH|[rest IH]].
    + left. by f_equal.
    + right. exists rest.
      change (String c s
              = String c (String.append (Inspect.partition_head sep s)
                                        (String sep rest))).
      by f_equal.
Qed.

Lemma partition_head_no_sep sep s a b :
  Inspect.partition_head sep s <> String.append a (String sep b).
Proof.
  revert a. induction s as [|c s IH]; intros a; simpl.
  - by destruct a.
  - destruct (Ascii.eqb c sep) eqn:Hc; [by destruct a|].
    destruct a as [|c' a].
    + intros [= -> _]. by rewrite Ascii.eqb_refl in Hc.
    + change (String c (Inspect.partition_head sep s)
              <> String c' (String.append a (String sep b))).
      intros [= _ H]. by apply IH in H.
Qed.

(** X22. For an object without [__name__] whose [key] is a string,
    [_get_fn_name] returns the key up to its first dash: the key itself
    or, followed by the dash, a prefix of it, and with no dash in it. On
    the callables of the runner it is the name that [_combo_runner] reads. *)
Theorem get_fn_name_of_dask_key (k : string) (func : option Inspect.fn_obj) :
  exists n,
    Inspect._get_fn_name (Inspect.FnObj None (Some (Inspect.AStr k)) func)
    = Ok n /\
    (k = n \/ exists rest, k = String.append n (String "-" rest)) /\
    (forall a b, n <> String.append a (String "-" b)) /\
    (forall f : callable,
       Inspect._get_fn_name (Inspect.of_callable f) = _get_fn_name f).
Proof.
  exists (Inspect.partition_head "-" k). split; [done|].
  split; [apply partition_head_split|].
  split; [apply partition_head_no_sep|]. by intros [|g].
Qed.

(** ** The same outcome from the backends that collect in order *)

Lemma all_kwargs_key_free k combos :
  forall kwds, kwds !! k = None -> k ∉ map fst combos ->
    Forall (fun kw => kw !! k = None) (all_kwargs combos kwds).
Proof.
  induction combos as [|[arg inputs] rest IH]; intros kwds Hk Hnot.
  - by repeat constructor.
  - simpl all_kwargs. apply Forall_concat, Forall_map, Forall_forall.
    intros x _. simpl in Hnot. apply not_elem_of_cons in Hnot as [Hne Hnot].
    apply IH; [|done]. by rewrite lookup_insert_ne.
Qed.

Lemma pooled_flat_submit fn p kws :
  Forall (fun kw => kw !! "pool" = None /\ kw !! "fn" = None) kws ->
  has_submit p || has_apply_async p = true ->
  forall w,
    mapM (leaf_round fn Fn false (Some p) default_submitter) (map Ok kws) w
    = (Ok (map VRef (seq (length (heap w)) (length kws))),
       World (heap w ++ map (fun kw => Handle Fn kw (gives_result p)
                                         (gives_get p) None) kws)
             (trace w)).
Proof.
  intros Hall Hp. induction Hall as [|kw kws [Hk1 Hk2] _ IH]; intros w.
  - simpl. unfold ret. destruct w. simpl. by rewrite app_nil_r.
  - cbn [map mapM]. unfold bind at 1.
    assert (leaf_round fn Fn false (Some p) default_submitter (Ok kw) w
            = default_submitter p Fn kw w) as -> by done.
    rewrite (default_submitter_spec p Fn kw w Hk1 Hk2 Hp).
    unfold bind at 1. rewrite IH. unfold ret. cbn [heap trace length seq map].
    rewrite length_app. cbn [length].
    replace (length (heap w) + 1)%nat with (S (length (heap w))) by lia.
    by rewrite <- app_assoc.
Qed.

Lemma default_getter_heap fn pbar v w :
  heap (snd (default_getter fn pbar v w)) = heap w.
Proof.
  rewrite default_getter_unfold. pose proof (accessor_world fn v w) as H.
  destruct (try_except_AttributeError _ _ w) as [[r|e] w1]; simpl in H;
    subst w1; [|done].
  by destruct pbar.
Qed.

Lemma default_getter_collected fn pbar id kw hr hg st w :
  heap w !! id = Some (Handle Fn kw hr hg st) ->
  hr || hg = true ->
  fst (default_getter fn pbar (VRef id) w) = collected hr hg (fn kw).
Proof.
  intros Hh Hacc. rewrite default_getter_unfold.
  unfold try_except_AttributeError, py_result, py_get. rewrite Hh.
  simpl remote.
  destruct (fn kw) as [v|e] eqn:Hfn; destruct hr, hg; try done;
    try destruct e; simpl; rewrite ?Hh; simpl remote; rewrite ?Hfn; simpl;
    try done; by destruct pbar.
Qed.

Lemma getter_flat fn pbar hr hg kws :
  hr || hg = true ->
  forall i w,
    (forall j kw, kws !! j = Some kw ->
       exists st, heap w !! (i + j)%nat = Some (Handle Fn kw hr hg st)) ->
    fst (mapM (default_getter fn pbar) (map VRef (seq i (length kws))) w)
    = mapR (fun kw => collected hr hg (fn kw)) kws.
Proof.
  intros Hacc. induction kws as [|kw kws IH]; intros i w Hh; [done|].
  cbn [length seq map mapM mapR].
  destruct (Hh 0%nat kw eq_refl) as [st H0]. rewrite Nat.add_0_r in H0.
  pose proof (default_getter_collected fn pbar i kw hr hg st w H0 Hacc) as Hc.
  pose proof (default_getter_heap fn pbar (VRef i) w) as Hw.
  unfold bind at 1.
  destruct (default_getter fn pbar (VRef i) w) as [[v|e] w1]; simpl in Hc, Hw;
    rewrite <- Hc; [|done].
  simpl res_bind. unfold bind at 1.
  specialize (IH (S i) w1). rewrite <- IH.
  - by destruct (mapM _ _ w1) as [[vs|e] w2].
  - intros j kw' Hj. rewrite Hw.
    replace (S i + j)%nat with (i + S j)%nat by lia. by apply Hh.
Qed.

Lemma calls_flat fn kws w :
  fst (mapM (call fn (UpdateUponEval Fn)) kws w) = mapR fn kws.
Proof.
  revert w. induction kws as [|kw kws IH]; intros w; [done|].
  cbn [mapM mapR]. unfold bind at 1. rewrite call_update_round.
  destruct (fn kw) as [v|e]; [|done]. simpl res_bind. unfold bind at 1.
  rewrite <- (IH (after w (call_round kw))).
  by destruct (mapM _ _ _) as [[vs|e] w2].
Qed.

Lemma collected_outcome hr hg (fn : kwargs -> res value) (kws : list kwargs) :
  match mapR fn kws with
  | Raise (AttributeError a) =>
      mapR (fun kw => collected hr hg (fn kw)) kws
      = Raise (AttributeError (if hr && negb hg then "get" else a))
  | o => mapR (fun kw => collected hr hg (fn kw)) kws = o
  end.
Proof.
  induction kws as [|kw kws IH]; [done|]. simpl.
  destruct (fn kw) as [v|[]]; simpl; try done.
  destruct (mapR fn kws) as [vs|[]]; simpl; by rewrite IH.
Qed.

Lemma concat_const_inj {A} k (xss yss : list (list A)) :
  Forall (fun xs => length xs = k) xss ->
  Forall (fun ys => length ys = k) yss ->
  length xss = length yss ->
  concat xss = concat yss -> xss = yss.
Proof.
  intros Hx. revert yss. induction Hx as [|xs xss Hxs _ IH];
    intros [|ys yss] Hy Hlen Heq; try done.
  apply Forall_cons in Hy as [Hys Hy]. simpl in Heq, Hlen.
  apply app_inj_1 in Heq as [-> Heq]; [|congruence].
  f_equal. apply IH; [done|lia|done].
Qed.

Lemma list_shape_leaves_inj ds :
  forall n t t',
    list_shape (n :: ds) t = true -> list_shape (n :: ds) t' = true ->
    leaves_of (length ds) t = leaves_of (length ds) t' -> t = t'.
Proof.
  induction ds as [|m ds' IH]; intros n t t' Ht Ht' Heq;
    destruct t as [| | | |xs|]; try done; destruct t' as [| | | |ys|];
    try done.
  - simpl leaves_of in Heq. change (elems (VList ?l)) with l in Heq.
    by subst.
  - simpl in Ht, Ht'.
    apply andb_true_iff in Ht as [Hlx Hfx].
    apply andb_true_iff in Ht' as [Hly Hfy].
    apply Nat.eqb_eq in Hlx, Hly.
    rewrite forallb_forall in Hfx, Hfy.
    simpl leaves_of in Heq. change (elems (VList ?l)) with l in Heq.
    apply (concat_const_inj (product (m :: ds'))) in Heq.
    + f_equal. apply list_eq_same_length with n; [done..|].
      intros i x y Hi Hxi Hyi.
      apply (IH m).
      * apply Hfx. by eapply list_elem_of_In, list_elem_of_lookup_2.
      * apply Hfy. by eapply list_elem_of_In, list_elem_of_lookup_2.
      * assert (map (leaves_of (length ds')) xs !! i
                = map (leaves_of (length ds')) ys !! i) as Hl
            by (by rewrite Heq).
        rewrite !list_lookup_fmap, Hxi, Hyi in Hl. by injection Hl.
    + apply Forall_map, Forall_forall. intros x Hx.
      apply (leaves_of_length m), list_shape_has_shape, Hfx.
      by apply list_elem_of_In.
    + apply Forall_map, Forall_forall. intros y Hy.
      apply (leaves_of_length m), list_shape_has_shape, Hfy.
      by apply list_elem_of_In.
    + rewrite !length_map. congruence.
Qed.

Lemma agrees_reshaped combos r l :
  agrees (fun t leaves =>
            list_shape (dims_of combos) t = true /\
            flatten t (Z.of_nat (length combos)) = Ok leaves) r l ->
  reshaped combos (fst r) (fst l).
Proof.
  unfold agrees, reshaped. destruct l as [[ls|e] w']; simpl.
  - intros (t & -> & H). by exists t.
  - by intros ->.
Qed.

Lemma reshaped_functional combos o o' flat :
  combos <> [] ->
  reshaped combos o flat -> reshaped combos o' flat -> o = o'.
Proof.
  intros Hne. unfold reshaped. destruct flat as [vs|e]; [|congruence].
  intros (t & -> & Hs & Hf) (t' & -> & Hs' & Hf'). f_equal.
  destruct combos as [|[arg inputs] rest]; [done|].
  rewrite dims_of_cons in Hs, Hs'. simpl length in Hf, Hf'.
  rewrite flatten_of_nat_S in Hf, Hf'.
  rewrite <- (length_dims_of rest) in Hf, Hf'.
  rewrite (flatten_levels_shape (length inputs))
    in Hf, Hf' by by apply list_shape_has_shape.
  apply (list_shape_leaves_inj (dims_of rest) (length inputs)); [done..|].
  congruence.
Qed.

Lemma mapR_raise_inv {A B} (f : A -> res B) xs e :
  mapR f xs = Raise e -> exists x, x ∈ xs /\ f x = Raise e.
Proof.
  induction xs as [|x xs IH]; simpl; [done|].
  destruct (f x) as [y|e'] eqn:Hx; simpl.
  - destruct (mapR f xs) as [ys|e'']; simpl; [done|].
    intros [= ->]. destruct IH as (x' & Hin & Hx'); [done|].
    exists x'. split; [by right|done].
  - intros [= ->]. exists x. split; [by left|done].
Qed.

Lemma iter_raise_inv v e :
  iter v = Raise e -> e = TypeError "object is not iterable".
Proof. destruct v; simpl; congruence. Qed.

Lemma zip_values_raise_inv v e :
  zip_values v = Raise e -> e = TypeError "object is not iterable".
Proof.
  unfold zip_values. destruct (iter v) as [rows|e'] eqn:Hi; simpl.
  - destruct (mapR iter rows) as [cols|e''] eqn:Hm; simpl; [done|].
    intros [= ->]. apply mapR_raise_inv in Hm as (x & _ & Hx).
    by eapply iter_raise_inv.
  - intros [= ->]. by eapply iter_raise_inv.
Qed.

Lemma unzipper_raise_inv n :
  forall t e, res_bind (_unzipper n t) zip_values = Raise e ->
              e = TypeError "object is not iterable".
Proof.
  induction n as [|n IH]; intros t e; simpl.
  - apply zip_values_raise_inv.
  - destruct (iter t) as [xs|e'] eqn:Hi; simpl.
    + unfold res_map at 1.
      destruct (mapR _ xs) as [ys|e''] eqn:Hm; simpl.
      * apply zip_values_raise_inv.
      * intros [= ->]. apply mapR_raise_inv in Hm as (x & _ & Hx).
        unfold res_map in Hx.
        destruct (res_bind (_unzipper n x) zip_values) as [c|e3] eqn:Hu;
          [done|].
        simpl in Hx. injection Hx as ->. by eapply IH.
    + intros [= ->]. by eapply iter_raise_inv.
Qed.

Lemma finish_fst split r ndim w :
  fst (finish split r ndim w) = finish_out split r ndim.
Proof.
  unfold finish, finish_out. destruct split; [|done].
  unfold bind, lift, ret.
  by destruct (res_bind (unzip r ndim) iter).
Qed.

Lemma finish_out_raise_inv split r ndim e :
  finish_out split r ndim = Raise e ->
  e = TypeError "object is not iterable".
Proof.
  unfold finish_out. destruct split; [|done]. unfold res_map.
  destruct (unzip r ndim) as [u|e'] eqn:Hu; simpl.
  - destruct (iter u) as [xs|e''] eqn:Hi; simpl; [done|].
    intros [= ->]. by eapply iter_raise_inv.
  - intros [= ->]. unfold unzip in Hu. destruct (ndim =? 0); [done|].
    unfold res_map in Hu.
    destruct (res_bind (_unzipper _ r) zip_values) as [c|e3] eqn:Hz; [done|].
    simpl in Hu. injection Hu as ->. by eapply unzipper_raise_inv.
Qed.

Lemma runner_fst fn ac ks combos constants split parallel num_workers
    scheduler pool hide w :
  combos <> [] ->
  fst (_combo_runner fn ac ks combos constants split parallel num_workers
         scheduler pool hide w)
  = res_bind (fst (dispatch fn ac ks combos constants parallel num_workers
                     scheduler pool hide
                     (Z.of_nat (product (dims_of combos))) w))
      (fun r => finish_out split r (Z.of_nat (length combos))).
Proof.
  intros Hne. rewrite _combo_runner_eq. unfold bind at 1. unfold lift at 1.
  rewrite (prod_ne _ Hne). unfold bind.
  destruct (dispatch _ _ _ _ _ _ _ _ _ _ _ w) as [[r|e] w1]; [|done].
  simpl. apply finish_fst.
Qed.

Lemma mapR_ext_eq {A B} (f g : A -> res B) xs :
  (forall x, f x = g x) -> mapR f xs = mapR g xs.
Proof.
  intros H. induction xs as [|x xs IH]; simpl; [done|]. by rewrite H, IH.
Qed.

Section Outcomes.
Variable fn : kwargs -> res value.
Variable as_completed : list value -> list value.
Variable known_scheduler : string -> option strategy.

Lemma names_free_all combos constants :
  submit_names_free combos constants ->
  Forall (fun kw => kw !! "pool" = None /\ kw !! "fn" = None)
         (all_kwargs combos constants).
Proof.
  intros (H1 & H2 & H3 & H4).
  pose proof (all_kwargs_key_free "pool" combos constants H1 H3) as Hp.
  pose proof (all_kwargs_key_free "fn" combos constants H2 H4) as Hf.
  apply Forall_forall. intros kw Hkw. split.
  - by apply (proj1 (Forall_forall _ _) Hp).
  - by apply (proj1 (Forall_forall _ _) Hf).
Qed.

Lemma sequential_outcome combos constants w :
  combos <> [] -> names_fresh combos constants ->
  reshaped combos
    (fst (nested_submit fn (update_upon_eval Fn) combos constants false None
            default_submitter w))
    (mapR fn (all_kwargs combos constants)).
Proof.
  intros Hne Hfresh.
  pose proof (nested_submit_agrees fn (update_upon_eval Fn) combos constants
                false None default_submitter w Hne) as H.
  rewrite (leaf_calls_fresh_ne _ _ Hne Hfresh), direct_rounds in H.
  apply agrees_reshaped in H. unfold update_upon_eval in *.
  by rewrite calls_flat in H.
Qed.

(** Whatever precedes the collection, as long as the handles stay. *)
Lemma pooled_outcome p pbar (collect : value -> M value) combos constants w :
  combos <> [] -> names_fresh combos constants ->
  submit_names_free combos constants ->
  has_submit p || has_apply_async p = true ->
  gives_result p || gives_get p = true ->
  (forall tf w1, list_shape (dims_of combos) tf = true ->
     exists w2, heap w2 = heap w1 /\
       collect tf w1
       = nested_get (default_getter fn pbar) tf (Z.of_nat (length combos)) w2) ->
  reshaped combos
    (fst ((futures <- nested_submit fn Fn combos constants false (Some p)
                        default_submitter ;;
           collect futures) w))
    (mapR (fun kw => collected (gives_result p) (gives_get p) (fn kw))
          (all_kwargs combos constants)).
Proof.
  intros Hne Hfresh Hfree Hp Hacc Hcollect.
  pose proof (nested_submit_agrees fn Fn combos constants false (Some p)
                default_submitter w Hne) as H.
  rewrite (leaf_calls_fresh_ne _ _ Hne Hfresh) in H.
  rewrite (pooled_flat_submit fn p _ (names_free_all _ _ Hfree) Hp w) in H.
  destruct H as (tf & Hs & Hsh & Hfl).
  rewrite (bind_ok _ _ _ _ _ Hs).
  match type of Hs with _ = (_, ?x) => set (w1 := x) in * end.
  destruct (Hcollect tf w1 Hsh) as (w2 & Hh & ->).
  assert (dims_of combos <> []) as Hd by (by destruct combos).
  destruct (nested_get_agrees (default_getter fn pbar) _ tf w2 Hd
              (list_shape_has_shape _ _ Hsh)) as (leaves & Hfl' & Hg).
  rewrite length_dims_of in Hfl', Hg. rewrite Hfl in Hfl'.
  injection Hfl' as <-.
  apply agrees_reshaped in Hg.
  rewrite (getter_flat fn pbar (gives_result p) (gives_get p) _ Hacc) in Hg;
    [done|].
  intros j kw Hj. exists None. rewrite Hh. subst w1. simpl.
  rewrite lookup_app_r by lia.
  replace (length (heap w) + j - length (heap w))%nat with j by lia.
  by rewrite list_lookup_fmap, Hj.
Qed.

Lemma bind_ret_r {A} (m : M A) w : (x <- m ;; ret x) w = m w.
Proof. unfold bind, ret. by destruct (m w) as [[a|e] w1]. Qed.

Lemma collected_plain r : collected false false r = r.
Proof. by destruct r as [v|[]]. Qed.

Lemma mpi_is_truthy parallel :
  parallel_is parallel "mpi" = true -> parallel_truthy parallel = true.
Proof.
  destruct parallel as [b|s]; [done|]. simpl. intros H%String.eqb_eq.
  by subst.
Qed.

Lemma dispatch_outcome combos constants parallel num_workers scheduler pool
    hide n w :
  combos <> [] -> names_fresh combos constants ->
  supported known_scheduler combos constants parallel num_workers scheduler
    pool ->
  graph_backend parallel scheduler pool = false ->
  (forall p, pool = Some p -> has_scheduler p = false) ->
  exists hr hg,
    hr && negb hg = (match pool with
                     | Some p => gives_result p && negb (gives_get p)
                     | None => parallel_truthy parallel ||
                               num_workers_truthy num_workers
                     end) /\
    reshaped combos
      (fst (dispatch fn as_completed known_scheduler combos constants
              parallel num_workers scheduler pool hide n w))
      (mapR (fun kw => collected hr hg (fn kw))
            (all_kwargs combos constants)).
Proof.
  intros Hne Hfresh Hsup Hgraph Hsched.
  unfold dispatch, supported, graph_backend in *. destruct pool as [p|].
  - rewrite (Hsched p eq_refl) in *.
    destruct Hsup as [[Hp Hacc]%andb_true_iff Hfree].
    rewrite (Hsched p eq_refl) in Hacc.
    exists (gives_result p), (gives_get p). split; [done|].
    apply (pooled_outcome p true
             (fun tf => nested_get (default_getter fn true) tf
                          (Z.of_nat (length combos)))); try done.
    intros tf w1 _. by exists w1.
  - destruct (parallel_is parallel "mpi") eqn:Hmpi.
    { exists true, false. split; [by rewrite (mpi_is_truthy _ Hmpi)|].
      unfold mpi_combo_runner_pool, MPIPoolExecutor.
      change (reshaped combos
                (fst ((futures <- nested_submit fn Fn combos constants false
                                    (Some executor) default_submitter ;;
                       (fun tf => results <- nested_get (default_getter fn true)
                                               tf (Z.of_nat (length combos)) ;;
                                  ret results) futures) w))
                (mapR (fun kw => collected (gives_result executor)
                                   (gives_get executor) (fn kw))
                      (all_kwargs combos constants))).
      apply (pooled_outcome executor true); try done. intros tf w1 _.
      exists w1. split; [done|]. apply bind_ret_r. }
    simpl in Hgraph. rewrite Hgraph in *.
    destruct (parallel_truthy parallel || num_workers_truthy num_workers)
      eqn:Hpar.
    { destruct Hsup as [Hk Hfree]. exists true, false. split; [done|].
      assert (ProcessPoolExecutor num_workers w = (Ok executor, w)) as Hpp.
      { unfold ProcessPoolExecutor. destruct num_workers as [k|]; [|done].
        destruct (Z.leb_spec k 0); [lia|done]. }
      rewrite (bind_ok _ _ _ _ _ Hpp).
      apply (pooled_outcome executor false
               (fun tf => fs <- lift (flatten tf (Z.of_nat (length combos))) ;;
                          mapM (fun _ => pbar_update) (as_completed fs) ;;;
                          nested_get (default_getter fn false) tf
                            (Z.of_nat (length combos)))); try done.
      intros tf w1 Hsh.
      assert (exists fs, flatten tf (Z.of_nat (length combos)) = Ok fs)
        as [fs Hfs].
      { destruct combos as [|[arg inputs] rest]; [done|].
        rewrite dims_of_cons in Hsh. simpl length.
        rewrite flatten_of_nat_S, <- (length_dims_of rest).
        rewrite (flatten_levels_shape (length inputs))
          by by apply list_shape_has_shape.
        by eexists. }
      destruct (pbar_rounds (as_completed fs) w1) as (us & w2 & Hm & Hh).
      exists w2. split; [done|].
      unfold bind at 1. unfold lift at 1. rewrite Hfs.
      by rewrite (bind_ok _ _ _ _ _ Hm). }
    exists false, false. split; [done|].
    pose proof (sequential_outcome combos constants w Hne Hfresh) as H.
    erewrite (mapR_ext_eq _ fn); [exact H|]. intros kw. apply collected_plain.
Qed.
End Outcomes.

(** X8. With the data model's names and a backend that can run the calls,
    the backends that collect through [default_getter] (a pool without
    the attribute [scheduler], MPI, the process pool) end as the
    sequential run ends: with the same tree, or with the same exception,
    that of the first failing combination in row-major order. The one
    exception to this is an [AttributeError]: the accessor takes it for a
    missing [result()] and asks [get()], so where the futures have no
    [get()] the run raises the [AttributeError] for [get] in its place. *)
Theorem in_order_backends_same_outcome
    (fn : kwargs -> res value) (as_completed : list value -> list value)
    (known_scheduler : string -> option strategy)
    (combos : combos_t) (constants : kwargs) (split : bool)
    (parallel : parallel_t) (num_workers : option Z) (scheduler : scheduler_t)
    (pool : option pool_obj) (hide hide0 : bool) (w w0 : world) :
  names_fresh combos constants ->
  supported known_scheduler combos constants parallel num_workers scheduler
    pool ->
  graph_backend parallel scheduler pool = false ->
  (forall p, pool = Some p -> has_scheduler p = false) ->
  match fst (_combo_runner fn as_completed known_scheduler combos constants
               split (PBool false) None SNone None hide0 w0) with
  | Raise (AttributeError a) =>
      fst (_combo_runner fn as_completed known_scheduler combos constants
             split parallel num_workers scheduler pool hide w)
      = Raise (AttributeError
                 (if masks_attribute_error parallel num_workers pool
                  then "get" else a))
  | o =>
      fst (_combo_runner fn as_completed known_scheduler combos constants
             split parallel num_workers scheduler pool hide w) = o
  end.
Proof.
  intros Hfresh Hsup Hgraph Hsched.
  destruct combos as [|c rest]; [rewrite !_combo_runner_eq; reflexivity|].
  set (combos := c :: rest) in *.
  assert (combos <> []) as Hne by done.
  rewrite !(runner_fst _ _ _ _ _ _ _ _ _ _ _ _ Hne).
  set (n := Z.of_nat (product (dims_of combos))).
  destruct (dispatch_outcome fn as_completed known_scheduler combos constants
              parallel num_workers scheduler pool hide n w Hne Hfresh Hsup
              Hgraph Hsched) as (hr & hg & Hmask & Hrun).
  fold (masks_attribute_error parallel num_workers pool) in Hmask.
  pose proof (sequential_outcome fn combos constants w0 Hne Hfresh) as Hseq.
  rewrite <- (sequential_dispatch fn as_completed known_scheduler combos
                constants hide0 n) in Hseq.
  pose proof (collected_outcome hr hg fn (all_kwargs combos constants)) as Hc.
  rewrite Hmask in Hc.
  destruct (mapR fn (all_kwargs combos constants)) as [vs|e] eqn:Hflat.
  - rewrite Hc in Hrun.
    rewrite (reshaped_functional _ _ _ _ Hne Hrun Hseq).
    destruct Hseq as (t & -> & _). cbn [res_bind].
    destruct (finish_out split t (Z.of_nat (length combos))) as [v|e] eqn:Hf;
      [done|].
    apply finish_out_raise_inv in Hf. by subst e.
  - unfold reshaped in Hseq. rewrite Hseq. cbn [res_bind].
    destruct e; rewrite Hc in Hrun; unfold reshaped in Hrun;
      by rewrite Hrun.
Qed.

(** ** The total, and the submission to a pool *)

(** X6. For the empty combination list [_combo_runner] raises the
    [TypeError] of [prod] ([reduce] of an empty sequence) under every
    configuration, before a backend is entered; for a non-empty one the
    total that [prod] computes is the number of leaf calls of
    [nested_submit]. *)
Theorem total_is_the_number_of_leaf_calls
    (fn : kwargs -> res value) (as_completed : list value -> list value)
    (known_scheduler : string -> option strategy)
    (combos : combos_t) (constants : kwargs) (split : bool)
    (parallel : parallel_t) (num_workers : option Z) (scheduler : scheduler_t)
    (pool : option pool_obj) (hide : bool) (w : world) :
  (combos = [] ->
   _combo_runner fn as_completed known_scheduler combos constants split
     parallel num_workers scheduler pool hide w
   = (Raise (TypeError "reduce() of empty sequence with no initial value"),
      w)) /\
  (combos <> [] ->
   prod (map (fun c => Z.of_nat (length (snd c))) combos)
   = Ok (Z.of_nat (length (leaf_calls combos constants)))).
Proof.
  split.
  - intros ->. by rewrite _combo_runner_eq.
  - intros Hne. rewrite (prod_ne _ Hne).
    destruct combos as [|[arg inputs] rest]; [done|].
    by rewrite leaf_calls_length.
Qed.

(** X9. With the data model's names, none of them [pool] or [fn], and a
    pool object that [if pool:] takes and that has [submit], a method that
    hands the keywords on to the call as the executors of
    concurrent.futures do, pooled submission through [default_submitter]
    registers one call per combination, in row-major order, and calls
    nothing itself: the heap grows by exactly these handles, the trace is
    unchanged, and the leaves of the returned tree are the references to
    the handles in that order. [apply_async] is never reached. *)
Theorem pooled_submission_registers_each_call_once
    (fn : kwargs -> res value) (p : pool_obj) (combos : combos_t)
    (constants : kwargs) (w : world) :
  combos <> [] ->
  names_fresh combos constants ->
  submit_names_free combos constants ->
  has_submit p = true ->
  exists tf,
    nested_submit fn Fn combos constants false (Some p) default_submitter w
    = (Ok tf,
       World (heap w ++ map (fun kw => Handle Fn kw (gives_result p)
                                         (gives_get p) None)
                          (all_kwargs combos constants))
             (trace w)) /\
    list_shape (dims_of combos) tf = true /\
    flatten tf (Z.of_nat (length combos))
    = Ok (map VRef (seq (length (heap w))
                      (length (all_kwargs combos constants)))).
Proof.
  intros Hne Hfresh Hfree Hsub.
  assert (has_submit p || has_apply_async p = true) as Hp by by rewrite Hsub.
  pose proof (nested_submit_agrees fn Fn combos constants false (Some p)
                default_submitter w Hne) as H.
  rewrite (leaf_calls_fresh_ne _ _ Hne Hfresh) in H.
  by rewrite (pooled_flat_submit fn p _ (names_free_all _ _ Hfree) Hp w) in H.
Qed.

(** X10. With a pool that has neither [submit] nor [apply_async], pooled
    submission of at least one combination raises the [AttributeError]
    for [apply_async] at the first leaf: nothing is registered and the
    world is unchanged. *)
Theorem unusable_pool_fails_at_first_call
    (fn : kwargs -> res value) (p : pool_obj) (combos : combos_t)
    (constants : kwargs) (w : world) :
  names_fresh combos constants ->
  submit_names_free combos constants ->
  has_submit p = false -> has_apply_async p = false ->
  all_kwargs combos constants <> [] ->
  combos <> [] ->
  nested_submit fn Fn combos constants false (Some p) default_submitter w
  = (Raise (AttributeError "apply_async"), w).
Proof.
  intros Hfresh Hfree Hs Ha Hkws Hne.
  pose proof (nested_submit_agrees fn Fn combos constants false (Some p)
                default_submitter w Hne) as H.
  rewrite (leaf_calls_fresh_ne _ _ Hne Hfresh) in H.
  pose proof (names_free_all _ _ Hfree) as Hall.
  destruct (all_kwargs combos constants) as [|kw kws]; [done|].
  apply Forall_cons in Hall as [[Hk1 Hk2] _].
  rewrite map_cons in H.
  rewrite (mapM_first_raises _ _ _ w (AttributeError "apply_async") w) in H;
    [done|].
  unfold leaf_round, bind, lift, leaf_op, default_submitter.
  by rewrite Hk1, Hk2, Hs, Ha.
Qed.

(** ** manage.py: file names and loading *)

Lemma contains_app needle a b :
  Manage.contains needle b = true ->
  Manage.contains needle (String.append a b) = true.
Proof.
  intros H. induction a as [|c a IH]; [done|].
  change (String.append (String c a) b) with (String c (String.append a b)).
  simpl. rewrite IH. apply orb_true_r.
Qed.

Lemma append_inj_l a b c :
  String.append a b = String.append a c -> b = c.
Proof.
  induction a as [|x a IH]; [done|].
  change (String x (String.append a b) = String x (String.append a c) -> b = c).
  intros [= H]. by apply IH.
Qed.

(** X23. [_auto_add_extension] leaves a name with a dot as it is, and
    appends to a name without one .h5 for the engine h5netcdf and .nc for
    every other engine. So the name it returns has a dot, applying the
    function again, with any engine, changes nothing, and for a name
    without a dot the engine h5netcdf and any other engine give different
    names. *)
Theorem auto_add_extension_settles (file_name engine engine' : string) :
  (Manage.contains "." file_name = true ->
   Manage._auto_add_extension file_name engine = file_name) /\
  (Manage.contains "." file_name = false ->
   Manage._auto_add_extension file_name "h5netcdf"
   = String.append file_name ".h5") /\
  (Manage.contains "." file_name = false -> engine <> "h5netcdf" ->
   Manage._auto_add_extension file_name engine
   = String.append file_name ".nc") /\
  Manage.contains "." (Manage._auto_add_extension file_name engine) = true /\
  Manage._auto_add_extension (Manage._auto_add_extension file_name engine)
    engine'
  = Manage._auto_add_extension file_name engine /\
  (Manage.contains "." file_name = false ->
   String.eqb engine "h5netcdf" <> String.eqb engine' "h5netcdf" ->
   Manage._auto_add_extension file_name engine
   <> Manage._auto_add_extension file_name engine').
Proof.
  assert (Manage.contains "."
            (Manage._auto_add_extension file_name engine) = true) as Hdot.
  { unfold Manage._auto_add_extension.
    destruct (Manage.contains "." file_name) eqn:Hc; [done|]. simpl.
    apply contains_app. by destruct (String.eqb engine "h5netcdf"). }
  split; [|split; [|split; [|split; [done|split]]]].
  - intros Hc. unfold Manage._auto_add_extension. by rewrite Hc.
  - intros Hc. unfold Manage._auto_add_extension. by rewrite Hc.
  - intros Hc Hne. unfold Manage._auto_add_extension. rewrite Hc. simpl.
    apply String.eqb_neq in Hne. by rewrite Hne.
  - unfold Manage._auto_add_extension at 1. by rewrite Hdot.
  - intros Hno Hne. unfold Manage._auto_add_extension. rewrite Hno. simpl.
    intros H%append_inj_l.
    by destruct (String.eqb engine "h5netcdf"),
      (String.eqb engine' "h5netcdf").
Qed.

(** The names of a store for the two kinds of engine, and a name that has
    its extension already. *)
Example auto_add_extension_names :
  Manage._auto_add_extension "run" "h5netcdf" = "run.h5" /\
  Manage._auto_add_extension "run" "netcdf4" = "run.nc" /\
  Manage._auto_add_extension "run.h5" "netcdf4" = "run.h5" /\
  Manage._auto_add_extension "data/run" "scipy" = "data/run.nc".
Proof. repeat split. Qed.

Section IOFacts.
Variable Dataset : Type.
Variable blank : Dataset.
Variable open_dataset : string -> string -> Manage.io_exn + Dataset.
Variable ds_load : Dataset -> option Manage.io_exn.
Variable ds_close : Dataset -> option Manage.io_exn.
Variable to_netcdf : Dataset -> string -> string -> option Manage.io_exn.

Lemma load_ds_log file_name engine load_to_mem create_new :
  fst (Manage.load_ds Dataset blank open_dataset ds_load ds_close file_name
         engine load_to_mem create_new)
  = fst (Manage.open_with_fallback Dataset open_dataset
           (Manage._auto_add_extension file_name engine) engine)
    ++ match Manage.open_with_fallback Dataset open_dataset
               (Manage._auto_add_extension file_name engine) engine with
       | (_, inr ds) =>
           if load_to_mem then
             match ds_load ds with
             | Some _ => [Manage.EvLoad Dataset ds]
             | None => [Manage.EvLoad Dataset ds; Manage.EvClose Dataset ds]
             end
           else []
       | (_, inl _) => []
       end.
Proof.
  unfold Manage.load_ds.
  destruct (Manage.open_with_fallback _ _ _ _) as [log [e|ds]]; simpl.
  - rewrite app_nil_r.
    destruct e as [m|m|m|m]; try done;
      by destruct (Manage.contains "o such" m && create_new).
  - destruct load_to_mem; [|by rewrite app_nil_r].
    destruct (ds_load ds) as [e|].
    + destruct e as [m|m|m|m]; try done;
        by destruct (Manage.contains "o such" m && create_new).
    + destruct (ds_close ds) as [e|]; [|done].
      destruct e as [m|m|m|m]; try done;
        by destruct (Manage.contains "o such" m && create_new).
Qed.

(** X24. [save_ds] writes to the name with its extension, and [load_ds] of
    the same name and engine opens that path first. It opens nothing
    else, and opens at most once more: the same path with netcdf4, which
    takes the engine to be h5netcdf. Nothing is written, and the dataset
    is loaded and closed only with [load_to_mem]. *)
Theorem load_ds_opens_the_path_save_ds_writes
    (ds : Dataset) (file_name engine : string)
    (load_to_mem create_new : bool) :
  let p := Manage._auto_add_extension file_name engine in
  fst (Manage.save_ds Dataset to_netcdf ds file_name engine)
  = [Manage.EvWrite Dataset ds p engine] /\
  exists rest,
    fst (Manage.load_ds Dataset blank open_dataset ds_load ds_close file_name
           engine load_to_mem create_new)
    = Manage.EvOpen Dataset p engine :: rest /\
    Forall (fun ev =>
              match ev with
              | Manage.EvOpen _ f e =>
                  f = p /\ e = "netcdf4" /\ engine = "h5netcdf"
              | Manage.EvLoad _ _ | Manage.EvClose _ _ => load_to_mem = true
              | Manage.EvWrite _ _ _ _ => False
              end) rest /\
    (length (List.filter (fun ev => match ev with
                                    | Manage.EvOpen _ _ _ => true
                                    | _ => false
                                    end) rest) <= 1)%nat.
Proof.
  intros p. split; [done|]. rewrite load_ds_log. fold p.
  unfold Manage.open_with_fallback.
  destruct (open_dataset p engine) as [[m|m|m|m]|d] eqn:Hopen;
    try (eexists; split; [reflexivity|]; split; [by constructor|simpl; lia]).
  - destruct (Manage.contains "object has no attribute" m) eqn:Hm; simpl.
    + destruct (String.eqb engine "h5netcdf") eqn:He; simpl.
      * apply String.eqb_eq in He.
        destruct (open_dataset p "netcdf4") as [e|d]; simpl.
        -- eexists. split; [reflexivity|]. split; [|simpl; lia].
           by repeat constructor.
        -- eexists. split; [reflexivity|].
           destruct load_to_mem; [|split; [by repeat constructor|simpl; lia]].
           destruct (ds_load d); (split; [by repeat constructor|simpl; lia]).
      * eexists. split; [reflexivity|]. split; [by constructor|simpl; lia].
    + eexists. split; [reflexivity|]. split; [by constructor|simpl; lia].
  - simpl. eexists. split; [reflexivity|].
    destruct load_to_mem; [|split; [by repeat constructor|simpl; lia]].
    destruct (ds_load d); (split; [by repeat constructor|simpl; lia]).
Qed.

(** X25. Without [create_new], a dataset that [load_ds] returns is one that
    [open_dataset] gave for the name with its extension, with the engine
    or, for h5netcdf, with netcdf4; with [load_to_mem] it was loaded and
    closed without error. *)
Theorem load_ds_makes_a_dataset_only_when_asked
    (file_name engine : string) (load_to_mem : bool) (d : Dataset) :
  snd (Manage.load_ds Dataset blank open_dataset ds_load ds_close file_name
         engine load_to_mem false) = inr d ->
  exists e, open_dataset (Manage._auto_add_extension file_name engine) e
            = inr d /\
            (e = engine \/ e = "netcdf4" /\ engine = "h5netcdf") /\
            (load_to_mem = true -> ds_load d = None /\ ds_close d = None).
Proof.
  unfold Manage.load_ds, Manage.open_with_fallback.
  set (p := Manage._auto_add_extension file_name engine).
  destruct (open_dataset p engine) as [[m|m|m|m]|d0] eqn:Hopen; simpl;
    rewrite ?andb_false_r; try done.
  - destruct (Manage.contains "object has no attribute" m); simpl; [|done].
    destruct (String.eqb engine "h5netcdf") eqn:He; simpl; [|done].
    apply String.eqb_eq in He.
    destruct (open_dataset p "netcdf4") as [[m'|m'|m'|m']|d0] eqn:Hopen2;
      simpl; rewrite ?andb_false_r; try done.
    destruct load_to_mem; simpl.
    + destruct (ds_load d0) as [[m'|m'|m'|m']|] eqn:Hl; simpl;
        rewrite ?andb_false_r; try done.
      destruct (ds_close d0) as [[m'|m'|m'|m']|] eqn:Hc; simpl;
        rewrite ?andb_false_r; try done.
      intros [= <-]. exists "netcdf4". split; [done|]. split; [by right|done].
    + intros [= <-]. exists "netcdf4". split; [done|]. split; [by right|done].
  - destruct load_to_mem; simpl.
    + destruct (ds_load d0) as [[m'|m'|m'|m']|] eqn:Hl; simpl;
        rewrite ?andb_false_r; try done.
      destruct (ds_close d0) as [[m'|m'|m'|m']|] eqn:Hc; simpl;
        rewrite ?andb_false_r; try done.
      intros [= <-]. exists engine. split; [done|]. split; [by left|done].
    + intros [= <-]. exists engine. split; [done|]. split; [by left|done].
Qed.
End IOFacts.

(** ** The distributed path, when a call fails *)

Lemma holds_handles_fresh p kws h :
  holds_handles p (length h) kws
    (h ++ map (fun kw => Handle Fn kw (gives_result p) (gives_get p) None) kws).
Proof.
  intros i kw Hi. exists None. rewrite lookup_app_r by lia.
  replace (length h + i - length h)%nat with i by lia.
  by rewrite list_lookup_fmap, Hi.
Qed.

Section Distributed.
Variable fn : kwargs -> res value.

Lemma store_round_ok p h0 kws i kw r w :
  gives_result p = true ->
  holds_handles p h0 kws (heap w) ->
  kws !! i = Some kw -> fn kw = Ok r ->
  exists w',
    (r <- py_result fn (VRef (h0 + i)) ;;
     set_stored_result (VRef (h0 + i)) r ;;; pbar_update) w = (Ok tt, w') /\
    holds_handles p h0 kws (heap w') /\ ticks 1 w w'.
Proof.
  intros Hr Hh Hi Hv. destruct (Hh i kw Hi) as (st & Hw).
  rewrite Hr in Hw.
  assert (py_result fn (VRef (h0 + i)) w = (Ok r, w)) as Hres.
  { unfold py_result. rewrite Hw. simpl. by rewrite Hv. }
  rewrite (bind_ok _ _ _ _ _ Hres).
  assert (set_stored_result (VRef (h0 + i)) r w
          = (Ok tt,
             World (<[(h0 + i)%nat := Handle Fn kw true (gives_get p)
                                        (Some r)]> (heap w)) (trace w)))
    as Hset.
  { unfold set_stored_result. by rewrite Hw. }
  rewrite (bind_ok _ _ _ _ _ Hset).
  eexists. split; [reflexivity|]. split.
  - intros i' kw' Hi'. simpl.
    destruct (decide (i' = i)) as [->|Hne].
    + rewrite Hi in Hi'. injection Hi' as <-. exists (Some r).
      rewrite Hr. apply list_lookup_insert_eq. by eapply lookup_lt_Some.
    + destruct (Hh i' kw' Hi') as (st' & Hw'). exists st'.
      rewrite list_lookup_insert_ne by lia. done.
  - by exists [Update].
Qed.

Lemma store_round_raises p h0 kws i kw e w :
  gives_result p = true ->
  holds_handles p h0 kws (heap w) ->
  kws !! i = Some kw -> fn kw = Raise e ->
  (r <- py_result fn (VRef (h0 + i)) ;;
   set_stored_result (VRef (h0 + i)) r ;;; pbar_update) w = (Raise e, w).
Proof.
  intros Hr Hh Hi Hv. destruct (Hh i kw Hi) as (st & Hw).
  rewrite Hr in Hw. apply bind_raise.
  unfold py_result. rewrite Hw. simpl. by rewrite Hv.
Qed.

Lemma store_rounds_ok p h0 kws done :
  gives_result p = true ->
  Forall (fun i => exists kw r, kws !! i = Some kw /\ fn kw = Ok r) done ->
  forall w, holds_handles p h0 kws (heap w) ->
    exists us w',
      mapM (fun f => r <- py_result fn f ;;
                     set_stored_result f r ;;; pbar_update)
           (map (fun i => VRef (h0 + i)) done) w = (Ok us, w') /\
      holds_handles p h0 kws (heap w') /\ ticks (length done) w w'.
Proof.
  intros Hr. induction 1 as [|i done (kw & r & Hi & Hv) _ IH]; intros w Hh.
  - exists [], w. split; [done|]. split; [done|]. apply ticks_refl.
  - destruct (store_round_ok p h0 kws i kw r w Hr Hh Hi Hv)
      as (w1 & Hround & Hh1 & Ht1).
    destruct (IH w1 Hh1) as (us & w2 & Hm & Hh2 & Ht2).
    exists (tt :: us), w2. split; [|split; [done|]].
    + cbn [map mapM]. by rewrite (bind_ok _ _ _ _ _ Hround),
        (bind_ok _ _ _ _ _ Hm).
    + exact (ticks_trans _ _ _ _ _ Ht1 Ht2).
Qed.
End Distributed.

(** X26. On the distributed path the futures are asked for their result
    in completion order, outside any [try]: when the futures that
    completed before the first failing one succeed, the run raises the
    exception of that failing call, whatever its place in row-major
    order, and the bar has been advanced once per future that completed
    before it. *)
Theorem distributed_raises_first_completed_failure
    (fn : kwargs -> res value) (as_completed : list value -> list value)
    (known_scheduler : string -> option strategy)
    (combos : combos_t) (constants : kwargs) (split : bool)
    (parallel : parallel_t) (num_workers : option Z) (scheduler : scheduler_t)
    (p : pool_obj) (hide : bool) (w : world)
    (done post : list nat) (j : nat) (kw : kwargs) (e : exn) :
  combos <> [] ->
  names_fresh combos constants ->
  submit_names_free combos constants ->
  has_scheduler p = true ->
  has_submit p || has_apply_async p = true ->
  gives_result p = true ->
  as_completed (map VRef (seq (length (heap w))
                            (length (all_kwargs combos constants))))
  = map (fun i => VRef (length (heap w) + i)) (done ++ j :: post) ->
  Forall (fun i => exists kw r,
            all_kwargs combos constants !! i = Some kw /\ fn kw = Ok r) done ->
  all_kwargs combos constants !! j = Some kw ->
  fn kw = Raise e ->
  exists w',
    _combo_runner fn as_completed known_scheduler combos constants split
      parallel num_workers scheduler (Some p) hide w = (Raise e, w') /\
    ticks (length done) w w'.
Proof.
  intros Hne Hfresh Hfree Hsch Hp Hr Horder Hdone Hj Hv.
  rewrite _combo_runner_eq. unfold bind at 1. unfold lift at 1.
  rewrite (prod_ne _ Hne). unfold dispatch. rewrite Hsch.
  pose proof (nested_submit_agrees fn Fn combos constants false (Some p)
                default_submitter w Hne) as H.
  rewrite (leaf_calls_fresh_ne _ _ Hne Hfresh) in H.
  rewrite (pooled_flat_submit fn p _ (names_free_all _ _ Hfree) Hp w) in H.
  destruct H as (tf & Hs & Hsh & Hfl).
  match type of Hs with _ = (_, ?x) => set (w1 := x) in * end.
  assert (holds_handles p (length (heap w)) (all_kwargs combos constants)
            (heap w1)) as Hh by apply holds_handles_fresh.
  assert (ticks 0 w w1) as Ht0 by (by apply ticks_trace).
  rewrite map_app in Horder.
  destruct (store_rounds_ok fn p _ _ done Hr Hdone w1 Hh)
    as (us & w2 & Hm & Hh2 & Ht).
  exists w2. split; [|exact (ticks_trans _ _ _ _ _ Ht0 Ht)].
  unfold bind at 1. rewrite (bind_ok _ _ _ _ _ Hs).
  unfold bind at 1. unfold lift at 1. rewrite Hfl, Horder.
  pose proof (mapM_first_raises
                (fun f => r <- py_result fn f ;;
                          set_stored_result f r ;;; pbar_update)
                (VRef (length (heap w) + j))
                (map (fun i => VRef (length (heap w) + i)) post) w2 e w2
                (store_round_raises fn p _ _ j kw e w2 Hr Hh2 Hj Hv))
    as Hfail.
  unfold bind at 1. rewrite mapM_app, Hm. cbn [map]. by rewrite Hfail.
Qed.

(** ** The further theorems at concrete inputs *)

Lemma nested_submit_flat_loop_witness :
  combos_ab <> [] /\
  agrees (fun t leaves =>
            list_shape (dims_of combos_ab) t = true /\
            flatten t (Z.of_nat (length combos_ab)) = Ok leaves)
    (nested_submit foo3_scalar Fn combos_ab constants_c true None
       default_submitter world0)
    (mapM (leaf_round foo3_scalar Fn true None default_submitter)
          (leaf_calls combos_ab constants_c) world0).
Proof.
  split; [discriminate|].
  apply (nested_submit_flat_loop foo3_scalar Fn combos_ab constants_c true
           None default_submitter world0).
  discriminate.
Defined.

Lemma nested_get_flat_loop_witness :
  [2%nat] <> [] /\ has_shape [2%nat] futures_a = true /\
  exists leaves,
    flatten futures_a (Z.of_nat (length [2%nat])) = Ok leaves /\
    agrees (fun r ys =>
              list_shape [2%nat] r = true /\
              flatten r (Z.of_nat (length [2%nat])) = Ok ys)
      (nested_get (default_getter foo3_scalar true) futures_a
         (Z.of_nat (length [2%nat])) world_a)
      (mapM (default_getter foo3_scalar true) leaves world_a).
Proof.
  split; [discriminate|]. split; [reflexivity|].
  apply (nested_get_flat_loop (default_getter foo3_scalar true) [2%nat]
           futures_a world_a).
  - discriminate.
  - reflexivity.
Defined.

Lemma names_fresh_a : names_fresh combos_a constants_bc.
Proof.
  split.
  - simpl. apply NoDup_cons. split; [apply not_elem_of_nil|apply NoDup_nil_2].
  - intros a Ha. apply list_elem_of_singleton in Ha. subst a. reflexivity.
Defined.

Lemma names_fresh_a_none : names_fresh combos_a_none constants_bc.
Proof.
  split.
  - simpl. apply NoDup_cons. split; [apply not_elem_of_nil|apply NoDup_nil_2].
  - intros a Ha. apply list_elem_of_singleton in Ha. subst a. reflexivity.
Defined.

Lemma sequential_calls_each_once_in_order_witness :
  snd (_combo_runner foo3_scalar (@rev value) (fun _ => None) combos_a
         constants_bc false (PBool false) None SNone None false world0)
  = after world0 (concat (map call_round (all_kwargs combos_a constants_bc))) /\
  prod (map (fun c => Z.of_nat (length (snd c))) combos_a)
  = Ok (Z.of_nat (length (all_kwargs combos_a constants_bc))).
Proof.
  apply (sequential_calls_each_once_in_order foo3_scalar (@rev value)
           (fun _ => None) combos_a constants_bc false false world0).
  - discriminate.
  - exact names_fresh_a.
  - change (all_kwargs combos_a constants_bc)
      with [<["a" := VInt 1]> constants_bc; <["a" := VInt 2]> constants_bc].
    constructor; [exists (VInt 321); vm_compute; reflexivity|].
    constructor; [exists (VInt 322); vm_compute; reflexivity|].
    constructor.
Defined.

Lemma sequential_stops_at_first_failure_witness :
  _combo_runner foo3_scalar (@rev value) (fun _ => None) combos_a_none
    constants_bc false (PBool false) None SNone None false world0
  = (Raise (TypeError "unsupported operand type(s) for +"),
     after world0
       (concat (map call_round [<["a" := VInt 1]> constants_bc])
        ++ [Call (<["a" := VNone]> constants_bc)])).
Proof.
  apply (sequential_stops_at_first_failure foo3_scalar (@rev value)
           (fun _ => None) combos_a_none constants_bc false false world0
           [<["a" := VInt 1]> constants_bc] []
           (<["a" := VNone]> constants_bc)).
  - discriminate.
  - exact names_fresh_a_none.
  - reflexivity.
  - constructor; [exists (VInt 321); vm_compute; reflexivity|]. constructor.
  - vm_compute. reflexivity.
Defined.

Lemma empty_sequence_runs_nothing_witness :
  exists t,
    nested_submit foo3_scalar Fn combos_ab_empty constants_c false None
      default_submitter world0 = (Ok t, world0) /\
    list_shape (dims_of combos_ab_empty) t = true /\
    flatten t (Z.of_nat (length combos_ab_empty)) = Ok [] /\
    prod (map (fun c => Z.of_nat (length (snd c))) combos_ab_empty) = Ok 0.
Proof.
  apply (empty_sequence_runs_nothing foo3_scalar Fn combos_ab_empty
           constants_c false None default_submitter world0).
  exists ("b", []). split; [|reflexivity].
  apply (list_elem_of_lookup_2 _ 1%nat). reflexivity.
Defined.

Lemma progress_bar_advances_once_per_combination_witness :
  exists n evs,
    prod (map (fun c => Z.of_nat (length (snd c))) combos_a)
    = Ok (Z.of_nat n) /\
    trace (snd (_combo_runner foo3_scalar (@rev value) (fun _ => None)
                  combos_a constants_bc false (PBool true) (Some 2) SNone
                  None false world0))
    = trace world0 ++ evs /\
    updates evs = if graph_backend (PBool true) SNone None then 0%nat else n.
Proof.
  apply (progress_bar_advances_once_per_combination foo3_scalar (@rev value)
           (fun _ => None) combos_a constants_bc false (PBool true) (Some 2)
           SNone None false world0
           (snd (_combo_runner foo3_scalar (@rev value) (fun _ => None)
                   combos_a constants_bc false (PBool true) (Some 2) SNone
                   None false world0))
           (VList [VInt 321; VInt 322]) rev_completion).
  vm_compute. reflexivity.
Defined.

Lemma in_order_backends_same_outcome_witness :
  match fst (_combo_runner raises_attribute_error (@rev value)
               (fun _ => None) combos_a constants_bc false (PBool false)
               None SNone None false world0) with
  | Raise (AttributeError a) =>
      fst (_combo_runner raises_attribute_error (@rev value) (fun _ => None)
             combos_a constants_bc false (PBool true) (Some 2) SNone None
             false world0)
      = Raise (AttributeError
                 (if masks_attribute_error (PBool true) (Some 2) None
                  then "get" else a))
  | o =>
      fst (_combo_runner raises_attribute_error (@rev value) (fun _ => None)
             combos_a constants_bc false (PBool true) (Some 2) SNone None
             false world0) = o
  end.
Proof.
  apply (in_order_backends_same_outcome raises_attribute_error (@rev value)
           (fun _ => None) combos_a constants_bc false (PBool true) (Some 2)
           SNone None false false world0 world0).
  - exact names_fresh_a.
  - split; [reflexivity|exact submit_names_free_a].
  - reflexivity.
  - intros p Hp. discriminate Hp.
Defined.

Lemma get_ndim_first_is_index_zero_witness :
  0 <= 2 /\
  (get_ndim_first tree_docstring 2 = Ok (VTuple [VInt 1; VBool true])
   <-> index tree_docstring (repeat 0%nat (Z.to_nat 2))
       = Some (VTuple [VInt 1; VBool true])).
Proof.
  split; [lia|].
  apply (get_ndim_first_is_index_zero tree_docstring
           (VTuple [VInt 1; VBool true]) 2).
  - lia.
  - reflexivity.
Defined.

Lemma get_ndim_first_negative_raises_witness :
  -1 < 0 /\
  (get_ndim_first tree_docstring (-1) = Raise IndexError \/
   get_ndim_first tree_docstring (-1)
   = Raise (TypeError "object is not subscriptable")).
Proof.
  split; [lia|]. apply (get_ndim_first_negative_raises tree_docstring (-1)).
  - lia.
  - reflexivity.
Defined.

Lemma get_ndim_first_of_results_witness :
  exists kw v,
    assign combos_abc ∅ (repeat 0%nat (length combos_abc)) = Some kw /\
    get_ndim_first tree_abc (Z.of_nat (length combos_abc)) = Ok v /\
    remote foo3_scalar Fn kw = Ok v.
Proof.
  apply (get_ndim_first_of_results foo3_scalar Fn default_submitter combos_abc
           ∅ world0
           (snd (nested_submit foo3_scalar Fn combos_abc ∅ false None
                   default_submitter world0))
           tree_abc).
  - vm_compute. reflexivity.
  - repeat constructor; discriminate.
Defined.

Lemma flatten_is_row_major_witness :
  exists leaf,
    index tree_docstring [1; 2]%nat = Some leaf /\
    [VTuple [VInt 1; VBool true]; VTuple [VInt 2; VBool false];
     VTuple [VInt 3; VBool true]; VTuple [VInt 7; VBool true];
     VTuple [VInt 8; VBool false]; VTuple [VInt 9; VBool true]]
      !! ravel [2; 3]%nat [1; 2]%nat = Some leaf.
Proof.
  apply (flatten_is_row_major [2; 3]%nat [1; 2]%nat tree_docstring).
  - reflexivity.
  - constructor; [lia|]. constructor; [lia|]. constructor.
  - discriminate.
  - reflexivity.
Defined.

Lemma unzip_twice_gives_back_witness :
  exists cols,
    unzip (VList (map VTuple [[VInt 1; VInt 2; VInt 3];
                              [VInt 4; VInt 5; VInt 6]])) 1
    = Ok (VList (map VTuple cols)) /\
    length cols = 3%nat /\
    Forall (fun c => length c
                     = length [[VInt 1; VInt 2; VInt 3];
                               [VInt 4; VInt 5; VInt 6]]) cols /\
    unzip (VList (map VTuple cols)) 1
    = Ok (VList (map VTuple [[VInt 1; VInt 2; VInt 3];
                             [VInt 4; VInt 5; VInt 6]])).
Proof.
  apply (unzip_twice_gives_back 3 [[VInt 1; VInt 2; VInt 3];
                                   [VInt 4; VInt 5; VInt 6]]).
  - discriminate.
  - lia.
  - constructor; [reflexivity|]. constructor; [reflexivity|]. constructor.
Defined.

Lemma unzip_needs_iterable_leaves_witness :
  (Forall (fun l => iterable l = true) [VInt 321; VInt 322] ->
   exists outs,
     unzip (VList [VInt 321; VInt 322]) (Z.of_nat (length [2%nat]))
     = Ok (VList outs)) /\
  (Exists (fun l => iterable l = false) [VInt 321; VInt 322] ->
   unzip (VList [VInt 321; VInt 322]) (Z.of_nat (length [2%nat]))
   = Raise (TypeError "object is not iterable") /\
   forall w, finish true (VList [VInt 321; VInt 322])
               (Z.of_nat (length [2%nat])) w
             = (Raise (TypeError "object is not iterable"), w)).
Proof.
  apply (unzip_needs_iterable_leaves [2%nat] (VList [VInt 321; VInt 322])
           [VInt 321; VInt 322]).
  - discriminate.
  - reflexivity.
  - reflexivity.
Defined.

Lemma nested_get_misfit_never_calls_getter_witness :
  exists r,
    (forall getter w, nested_get getter futures_a 0 w = (r, w)) /\
    ([VRef 0; VRef 1] <> [] -> r = Raise (TypeError "object is not iterable")).
Proof.
  apply (nested_get_misfit_never_calls_getter [2%nat] futures_a
           [VRef 0; VRef 1] 0).
  - discriminate.
  - reflexivity.
  - reflexivity.
  - constructor; [reflexivity|]. constructor; [reflexivity|]. constructor.
  - left. lia.
Defined.

Lemma pooled_submission_registers_each_call_once_witness :
  exists tf,
    nested_submit foo3_scalar Fn combos_a constants_bc false (Some executor)
      default_submitter world0
    = (Ok tf,
       World (heap world0 ++
              map (fun kw => Handle Fn kw (gives_result executor)
                               (gives_get executor) None)
                  (all_kwargs combos_a constants_bc))
             (trace world0)) /\
    list_shape (dims_of combos_a) tf = true /\
    flatten tf (Z.of_nat (length combos_a))
    = Ok (map VRef (seq (length (heap world0))
                      (length (all_kwargs combos_a constants_bc)))).
Proof.
  apply (pooled_submission_registers_each_call_once foo3_scalar executor
           combos_a constants_bc world0).
  - discriminate.
  - exact names_fresh_a.
  - exact submit_names_free_a.
  - reflexivity.
Defined.

Lemma unusable_pool_fails_at_first_call_witness :
  nested_submit foo3_scalar Fn combos_a constants_bc false
    (Some (Pool false false false true false)) default_submitter world0
  = (Raise (AttributeError "apply_async"), world0).
Proof.
  apply (unusable_pool_fails_at_first_call foo3_scalar
           (Pool false false false true false) combos_a constants_bc world0).
  - exact names_fresh_a.
  - exact submit_names_free_a.
  - reflexivity.
  - reflexivity.
  - discriminate.
  - discriminate.
Defined.

Lemma load_ds_makes_a_dataset_only_when_asked_witness :
  exists e,
    one_file_store (Manage._auto_add_extension "data" "h5netcdf") e
    = inr 7%nat /\
    (e = "h5netcdf" \/ e = "netcdf4" /\ "h5netcdf" = "h5netcdf") /\
    (true = true -> no_error 7%nat = None /\ no_error 7%nat = None).
Proof.
  apply (load_ds_makes_a_dataset_only_when_asked nat 0%nat one_file_store
           no_error no_error "data" "h5netcdf" true 7%nat).
  reflexivity.
Defined.

Lemma distributed_raises_first_completed_failure_witness :
  exists w',
    _combo_runner foo3_scalar (@rev value) (fun _ => None) combos_a_none
      constants_bc false (PBool false) None SNone (Some distributed_client)
      false world0
    = (Raise (TypeError "unsupported operand type(s) for +"), w') /\
    ticks (length (@nil nat)) world0 w'.
Proof.
  apply (distributed_raises_first_completed_failure foo3_scalar (@rev value)
           (fun _ => None) combos_a_none constants_bc false (PBool false)
           None SNone distributed_client false world0 [] [0%nat] 1%nat
           (<["a" := VNone]> constants_bc)).
  - discriminate.
  - exact names_fresh_a_none.
  - repeat split; try reflexivity.
    + intros H. apply list_elem_of_singleton in H. discriminate H.
    + intros H. apply list_elem_of_singleton in H. discriminate H.
  - reflexivity.
  - reflexivity.
  - reflexivity.
  - reflexivity.
  - constructor.
  - reflexivity.
  - vm_compute. reflexivity.
Defined.
